(** * EvoAug: random augmentations of one-hot sequence batches

    A shallow embedding of [evoaug/augment.py].  A batch [x] of shape
    (N, A, L) is the nested list [x[n][a][l]]; every primitive's
    [__call__] becomes a computation in a monad that threads the random
    generator and propagates the exceptions raised by the tensor library.

    - Tensor entries are rationals: the primitives copy entries, and
      [RandomNoise] alone computes with them.
    - The generator is the stream of raw integers and of standard normal
      variates it will emit; [torch.randint], [torch.rand] and
      [multinomial] reduce a raw integer into their range, so that every
      value of the range, and no other, can be drawn.
    - The checks of the tensor library that the source relies on are
      written out: [torch.randint] rejects an empty range,
      [multinomial] a request for no sample, [torch.stack] an empty list
      or examples of different sizes, [torch.cat] pieces with different
      numbers of rows, an indexed assignment a value of another shape.
    - [round(mutate_frac / 0.75 * L)] is evaluated in binary64. *)

From Stdlib Require Import String.
From Stdlib Require Import ZArith List Lia Bool QArith Lqa Floats Permutation.
Import ListNotations.
Local Open Scope Z_scope.

Set Warnings "-inexact-float".

(** ** Tensors as nested lists *)

(** Tensor entries; the source moves them around and, in [RandomNoise]
    only, adds to them. *)
Abbreviation elt := Q (only parsing).
Abbreviation row := (list Q) (only parsing).
(** One example of a batch, shape (A, L): [A] rows of length [L]. *)
Abbreviation matrix := (list (list Q)) (only parsing).
(** A batch, shape (N, A, L). *)
Abbreviation batch := (list (list (list Q))) (only parsing).

Definition zero : elt := 0%Q.
Definition one : elt := 1%Q.

(** [N, A, L = x.shape].  A nested list records [A] only when [N > 0]
    and [L] only when also [A > 0]; the statements about a primitive that
    reads [A] or [L] are about batches with [N > 0] and [A > 0]. *)
Definition shape3 (x : batch) : nat * nat * nat :=
  (length x, length (hd [] x), length (hd [] (hd [] x))).

Definition shape2 (A L : nat) (m : matrix) : Prop :=
  length m = A /\ Forall (fun r => length r = L) m.

Definition has_shape (N A L : nat) (x : batch) : Prop :=
  length x = N /\ Forall (shape2 A L) x.

(** ** Exceptions and the generator monad *)

Inductive exn : Set :=
| RuntimeError (msg : string)
| IndexError (msg : string)
| ValueError (msg : string)
| OverflowError (msg : string).

Inductive result (X : Type) : Type :=
| Ok (v : X)
| Raise (e : exn).
Arguments Ok {X} v.
Arguments Raise {X} e.

Definition rbind {X Y} (r : result X) (k : X -> result Y) : result Y :=
  match r with
  | Ok v => k v
  | Raise e => Raise e
  end.

Fixpoint mapR {X Y} (f : X -> result Y) (l : list X) : result (list Y) :=
  match l with
  | [] => Ok []
  | v :: l' => rbind (f v) (fun w => rbind (mapR f l') (fun ws => Ok (w :: ws)))
  end.

(** The state of the global generator: the raw integers it will emit and
    the standard normal variates it will emit. *)
Record rng : Type := { ints : nat -> Z; normals : nat -> Q }.

Definition M (X : Type) : Type := rng -> result (X * rng).

Definition ret {X} (v : X) : M X := fun g => Ok (v, g).

Definition bind {X Y} (m : M X) (k : X -> M Y) : M Y :=
  fun g => match m g with
           | Ok (v, g') => k v g'
           | Raise e => Raise e
           end.

Definition raise {X} (e : exn) : M X := fun _ => Raise e.

Definition lift {X} (r : result X) : M X :=
  fun g => match r with
           | Ok v => Ok (v, g)
           | Raise e => Raise e
           end.

Notation "x <- m ;; k" := (bind m (fun x => k))
  (at level 61, m at next level, right associativity).

Definition next_int : M Z :=
  fun g => Ok (ints g 0%nat,
               {| ints := fun n => ints g (S n); normals := normals g |}).

Definition next_normal : M Q :=
  fun g => Ok (normals g 0%nat,
               {| ints := ints g; normals := fun n => normals g (S n) |}).

Fixpoint replicateM {X} (n : nat) (m : M X) : M (list X) :=
  match n with
  | O => ret []
  | S n' => v <- m ;; l <- replicateM n' m ;; ret (v :: l)
  end.

(** ** The tensor library *)

(** One draw of [torch.randint]: the raw output reduced into [low, high). *)
Definition randint_one (low high : Z) : M Z :=
  r <- next_int ;; ret (low + r mod (high - low)).

(** [torch.randint(low, high, (size,))]; an empty range is rejected
    whatever the size. *)
Definition torch_randint (low high : Z) (size : nat) : M (list Z) :=
  if low <? high then replicateM size (randint_one low high)
  else raise (RuntimeError "random_ expects 'from' to be less than 'to'").

(** One draw of [torch.rand]: a float32 in [0, 1), a multiple of 2^-24. *)
Definition rand_one : M Q :=
  r <- next_int ;; ret (Qmake (r mod 16777216) 16777216).

Definition torch_rand (size : nat) : M (list Q) := replicateM size rand_one.

(** [p.multinomial(num_samples, replacement=True)].  Every [p] of the
    source is uniform, so a draw is the raw output reduced modulo the
    number of categories. *)
Definition multinomial (p : list Q) (num_samples : Z) : M (list nat) :=
  if num_samples <=? 0
  then raise (RuntimeError "cannot sample n_sample <= 0 samples")
  else if (length p =? 0)%nat
  then raise (RuntimeError "invalid multinomial distribution")
  else replicateM (Z.to_nat num_samples)
         (r <- next_int ;; ret (Z.to_nat (r mod Z.of_nat (length p)))).

(** [torch.eye(A)] *)
Definition eye (A : nat) : matrix :=
  map (fun i => map (fun j => if (i =? j)%nat then one else zero) (seq 0 A))
      (seq 0 A).

(** [a[idx]]: rows of [a] selected by an index tensor. *)
Definition index_rows (a : matrix) (idx : list nat) : matrix :=
  map (fun i => nth i a []) idx.

(** [m.transpose(0,1)] of a matrix with [ncols] columns. *)
Definition transpose (ncols : nat) (m : matrix) : matrix :=
  map (fun j => map (fun r => nth j r zero) m) (seq 0 ncols).

(** The "sample random DNA" idiom of the source, for one example:
    [a[p.multinomial(n, replacement=True)].transpose(0,1)]. *)
Definition random_dna (A : nat) (n : Z) : M matrix :=
  let a := eye A in
  let p := repeat (Qmake 1 (Pos.of_nat A)) A in
  idx <- multinomial p n ;;
  ret (transpose A (index_rows a idx)).

(** Python's normalisation of a slice bound against a length. *)
Definition clamp_index (len i : Z) : Z :=
  if i <? 0 then Z.max (i + len) 0 else Z.min i len.

Definition slice_start (len : Z) (start : option Z) : Z :=
  match start with Some i => clamp_index len i | None => 0 end.
Definition slice_stop (len : Z) (stop : option Z) : Z :=
  match stop with Some j => clamp_index len j | None => len end.

(** [l[start:stop]], a missing bound being [None]. *)
Definition py_slice {X} (start stop : option Z) (l : list X) : list X :=
  let len := Z.of_nat (length l) in
  let s := slice_start len start in
  let e := slice_stop len stop in
  firstn (Z.to_nat (e - s)) (skipn (Z.to_nat s) l).

(** The length of [l[start:stop]] for [l] of length [L]. *)
Definition slice_len (start stop : option Z) (L : nat) : nat :=
  Z.to_nat (slice_stop (Z.of_nat L) stop - slice_start (Z.of_nat L) start).

(** [m[:, start:stop]] *)
Definition slice_last (start stop : option Z) (m : matrix) : matrix :=
  map (py_slice start stop) m.

Fixpoint zip_app (m1 m2 : matrix) : matrix :=
  match m1, m2 with
  | r1 :: m1', r2 :: m2' => (r1 ++ r2) :: zip_app m1' m2'
  | _, _ => []
  end.

Definition cat2 (m1 m2 : matrix) : result matrix :=
  if (length m1 =? length m2)%nat then Ok (zip_app m1 m2)
  else Raise (RuntimeError "Sizes of tensors must match except in dimension 1").

(** [torch.cat(ms, -1)] *)
Fixpoint cat_last (ms : list matrix) : result matrix :=
  match ms with
  | [] => Raise (RuntimeError "torch.cat(): expected a non-empty list of Tensors")
  | [m] => Ok m
  | m :: rest => rbind (cat_last rest) (cat2 m)
  end.

Definition dims (m : matrix) : list nat := map (@length elt) m.

(** [torch.stack(ms)] *)
Definition stack (ms : list matrix) : result batch :=
  match ms with
  | [] => Raise (RuntimeError "stack expects a non-empty TensorList")
  | m :: rest =>
      if forallb (fun m' => if list_eq_dec Nat.eq_dec (dims m') (dims m)
                            then true else false) rest
      then Ok ms
      else Raise (RuntimeError "stack expects each tensor to be equal size")
  end.

(** [torch.flip(m, dims=[0,1])] *)
Definition flip01 (m : matrix) : matrix := rev (map (@rev elt) m).

(** [torch.roll(m, shift, -1)]: entry [j] moves to [(j + shift) mod L]. *)
Definition roll_row {X} (shift : Z) (r : list X) : list X :=
  match r with
  | [] => []
  | _ => let k := Z.to_nat ((- shift) mod Z.of_nat (length r)) in
         skipn k r ++ firstn k r
  end.

Definition roll_last (shift : Z) (m : matrix) : matrix :=
  map (roll_row shift) m.

Fixpoint zip3 {X Y W} (a : list X) (b : list Y) (c : list W)
  : list (X * Y * W) :=
  match a, b, c with
  | u :: a', v :: b', w :: c' => (u, v, w) :: zip3 a' b' c'
  | _, _, _ => []
  end.

Fixpoint zip4 {X Y W V} (a : list X) (b : list Y) (c : list W) (d : list V)
  : list (X * Y * W * V) :=
  match a, b, c, d with
  | u :: a', v :: b', w :: c', t :: d' => (u, v, w, t) :: zip4 a' b' c' d'
  | _, _, _, _ => []
  end.

(** ** RandomDeletion *)

Record RandomDeletion : Set := { delete_min : Z; delete_max : Z }.

(** [RandomDeletion.__init__] *)
Definition RandomDeletion_init (delete_min delete_max : Z)
  : result RandomDeletion :=
  Ok {| delete_min := delete_min; delete_max := delete_max |}.

Definition pad_begin_index (delete_len : Z) : Z := delete_len / 2.
Definition pad_end_index (delete_len : Z) : Z :=
  delete_len - pad_begin_index delete_len.

(** The four pieces concatenated for one example. *)
Definition RandomDeletion_pieces (self : RandomDeletion)
    (seq pad : matrix) (delete_len delete_ind : Z) : list matrix :=
  [ slice_last None (Some (pad_begin_index delete_len)) pad;
    slice_last None (Some delete_ind) seq;
    slice_last (Some (delete_ind + delete_len)) None seq;
    slice_last (Some (delete_max self - pad_end_index delete_len)) None pad ].

(** The random draws of one call: padding, lengths, start indices. *)
Definition RandomDeletion_draws (self : RandomDeletion) (N A L : nat)
  : M (batch * list Z * list Z) :=
  padding_list <- replicateM N (random_dna A (delete_max self)) ;;
  padding <- lift (stack padding_list) ;;
  delete_lens <- torch_randint (delete_min self) (delete_max self + 1) N ;;
  delete_inds <- torch_randint 0 (Z.of_nat L - delete_max self + 1) N ;;
  ret (padding, delete_lens, delete_inds).

(** [RandomDeletion.__call__] *)
Definition RandomDeletion_call (self : RandomDeletion) (x : batch) : M batch :=
  let '(N, A, L) := shape3 x in
  draws <- RandomDeletion_draws self N A L ;;
  let '(padding, delete_lens, delete_inds) := draws in
  x_aug <- lift (mapR (fun '(seq, pad, delete_len, delete_ind) =>
                         cat_last (RandomDeletion_pieces self seq pad
                                     delete_len delete_ind))
                      (zip4 x padding delete_lens delete_inds)) ;;
  lift (stack x_aug).

(** ** RandomInsertion *)

Record RandomInsertion : Set := { insert_min : Z; insert_max : Z }.

(** [RandomInsertion.__init__] *)
Definition RandomInsertion_init (insert_min insert_max : Z)
  : result RandomInsertion :=
  Ok {| insert_min := insert_min; insert_max := insert_max |}.

Definition insert_beginning_len (self : RandomInsertion) (insert_len : Z) : Z :=
  (insert_max self - insert_len) / 2.
Definition insert_end_len (self : RandomInsertion) (insert_len : Z) : Z :=
  insert_max self - insert_len - insert_beginning_len self insert_len.

(** The five pieces concatenated for one example. *)
Definition RandomInsertion_pieces (self : RandomInsertion)
    (seq insertion : matrix) (insert_len insert_ind : Z) : list matrix :=
  let b := insert_beginning_len self insert_len in
  [ slice_last None (Some b) insertion;
    slice_last None (Some insert_ind) seq;
    slice_last (Some b) (Some (b + insert_len)) insertion;
    slice_last (Some insert_ind) None seq;
    slice_last (Some (b + insert_len)) (Some (insert_max self)) insertion ].

(** The random draws of one call: fragments, lengths, insertion indices. *)
Definition RandomInsertion_draws (self : RandomInsertion) (N A L : nat)
  : M (batch * list Z * list Z) :=
  insertion_list <- replicateM N (random_dna A (insert_max self)) ;;
  insertions <- lift (stack insertion_list) ;;
  insert_lens <- torch_randint (insert_min self) (insert_max self + 1) N ;;
  insert_inds <- torch_randint 0 (Z.of_nat L) N ;;
  ret (insertions, insert_lens, insert_inds).

(** [RandomInsertion.__call__] *)
Definition RandomInsertion_call (self : RandomInsertion) (x : batch) : M batch :=
  let '(N, A, L) := shape3 x in
  draws <- RandomInsertion_draws self N A L ;;
  let '(insertions, insert_lens, insert_inds) := draws in
  x_aug <- lift (mapR (fun '(seq, insertion, insert_len, insert_ind) =>
                         cat_last (RandomInsertion_pieces self seq insertion
                                     insert_len insert_ind))
                      (zip4 x insertions insert_lens insert_inds)) ;;
  lift (stack x_aug).

(** ** RandomTranslocation *)

Record RandomTranslocation : Set := { shift_min : Z; shift_max : Z }.

(** [RandomTranslocation.__init__] *)
Definition RandomTranslocation_init (shift_min shift_max : Z)
  : result RandomTranslocation :=
  Ok {| shift_min := shift_min; shift_max := shift_max |}.

(** [shifts[ind_neg] = -1 * shifts[ind_neg]] *)
Fixpoint negate_where (ind_neg : list bool) (shifts : list Z) : list Z :=
  match ind_neg, shifts with
  | b :: ind_neg', s :: shifts' =>
      (if b then -1 * s else s) :: negate_where ind_neg' shifts'
  | _, _ => shifts
  end.

Definition Qlt_bool (a b : Q) : bool := negb (Qle_bool b a).

Definition RandomTranslocation_draws (self : RandomTranslocation) (N : nat)
  : M (list Z) :=
  shifts <- torch_randint (shift_min self) (shift_max self + 1) N ;;
  u <- torch_rand N ;;
  let ind_neg := map (fun v => Qlt_bool v (1 # 2)) u in
  ret (negate_where ind_neg shifts).

(** [RandomTranslocation.__call__] *)
Definition RandomTranslocation_call (self : RandomTranslocation) (x : batch)
  : M batch :=
  let N := length x in
  shifts <- RandomTranslocation_draws self N ;;
  let x_rolled := map (fun '(xi, shift) => roll_last shift xi)
                      (combine x shifts) in
  lift (stack x_rolled).

(** ** RandomInversion *)

Record RandomInversion : Set := { invert_min : Z; invert_max : Z }.

(** [RandomInversion.__init__] *)
Definition RandomInversion_init (invert_min invert_max : Z)
  : result RandomInversion :=
  Ok {| invert_min := invert_min; invert_max := invert_max |}.

Definition RandomInversion_pieces (seq : matrix) (inversion_len inversion_ind : Z)
  : list matrix :=
  [ slice_last None (Some inversion_ind) seq;
    flip01 (slice_last (Some inversion_ind)
                       (Some (inversion_ind + inversion_len)) seq);
    slice_last (Some (inversion_ind + inversion_len)) None seq ].

Definition RandomInversion_draws (self : RandomInversion) (N L : nat)
  : M (list Z * list Z) :=
  inversion_lens <- torch_randint (invert_min self) (invert_max self + 1) N ;;
  inversion_inds <- torch_randint 0 (Z.of_nat L - invert_max self + 1) N ;;
  ret (inversion_lens, inversion_inds).

(** [RandomInversion.__call__] *)
Definition RandomInversion_call (self : RandomInversion) (x : batch) : M batch :=
  let '(N, A, L) := shape3 x in
  draws <- RandomInversion_draws self N L ;;
  let '(inversion_lens, inversion_inds) := draws in
  x_aug <- lift (mapR (fun '(seq, inversion_len, inversion_ind) =>
                         cat_last (RandomInversion_pieces seq
                                     inversion_len inversion_ind))
                      (zip3 x inversion_lens inversion_inds)) ;;
  lift (stack x_aug).

(** ** RandomMutation *)

Record RandomMutation : Set := { mutate_frac : float }.

(** [RandomMutation.__init__] *)
Definition RandomMutation_init (mutate_frac : float) : result RandomMutation :=
  Ok {| mutate_frac := mutate_frac |}.

(** Python's [round] of a float: the nearest integer, ties to even. *)
Definition py_round (f : float) : result Z :=
  match Prim2SF f with
  | S754_zero _ => Ok 0
  | S754_infinity _ =>
      Raise (OverflowError "cannot convert float infinity to integer")
  | S754_nan => Raise (ValueError "cannot convert float NaN to integer")
  | S754_finite s m e =>
      let a := if 0 <=? e then Z.pos m * 2 ^ e
               else let d := 2 ^ (- e) in
                    let q := Z.pos m / d in
                    let r := Z.pos m mod d in
                    if 2 * r <? d then q
                    else if d <? 2 * r then q + 1
                    else if Z.even q then q else q + 1 in
      Ok (if s then - a else a)
  end.

(** [round(self.mutate_frac / 0.75 * L)], in binary64 arithmetic. *)
Definition num_mutations (mutate_frac : float) (L : nat) : result Z :=
  py_round (PrimFloat.mul (PrimFloat.div mutate_frac 0.75%float)
                          (PrimFloat.of_uint63 (Uint63.of_Z (Z.of_nat L)))).

Fixpoint insert_key (k : Q) (i : nat) (l : list (Q * nat)) : list (Q * nat) :=
  match l with
  | [] => [(k, i)]
  | (k', i') :: l' =>
      if Qle_bool k k' then (k, i) :: l else (k', i') :: insert_key k i l'
  end.

(** [torch.argsort] of one row of keys: the indices in ascending order of
    key (ties in index order; any order of ties is a permutation too). *)
Definition argsort (keys : list Q) : list nat :=
  map snd (fold_right (fun ki acc => insert_key (fst ki) (snd ki) acc) []
                      (combine keys (seq 0 (length keys)))).

(** [torch.argsort(torch.rand(N,L))[:, :num_mutations]] *)
Definition RandomMutation_inds (N L : nat) (num_mutations : Z)
  : M (list (list nat)) :=
  keys <- replicateM N (torch_rand L) ;;
  ret (map (fun ks => py_slice None (Some num_mutations) (argsort ks)) keys).

Fixpoint set_nth {X} (i : nat) (v : X) (l : list X) : list X :=
  match l, i with
  | [], _ => []
  | _ :: l', O => v :: l'
  | u :: l', S i' => u :: set_nth i' v l'
  end.

(** [r[inds] = vals] on one row, written in index order. *)
Fixpoint scatter_row {X} (r : list X) (inds : list nat) (vals : list X)
  : list X :=
  match inds, vals with
  | i :: inds', v :: vals' => scatter_row (set_nth i v r) inds' vals'
  | _, _ => r
  end.

(** [m[:, inds] = vals].  The value must have the shape of the indexed
    region (the broadcast of a one-column value cannot arise here) and
    every index must be in range. *)
Definition index_put_last (m : matrix) (inds : list nat) (vals : matrix)
  : result matrix :=
  if negb (forallb (fun r => forallb (fun i => (i <? length r)%nat) inds) m)
  then Raise (IndexError "index out of range")
  else if list_eq_dec Nat.eq_dec (dims vals) (repeat (length inds) (length m))
  then Ok (map (fun rv => scatter_row (fst rv) inds (snd rv)) (combine m vals))
  else Raise (RuntimeError "shape mismatch: value tensor cannot be broadcast").

(** The number of mutations and the positions to mutate in one call. *)
Definition RandomMutation_draws (self : RandomMutation) (N L : nat)
  : M (Z * list (list nat)) :=
  k <- lift (num_mutations (mutate_frac self) L) ;;
  mutation_inds <- RandomMutation_inds N L k ;;
  ret (k, mutation_inds).

(** [RandomMutation.__call__] *)
Definition RandomMutation_call (self : RandomMutation) (x : batch) : M batch :=
  let '(N, A, L) := shape3 x in
  draws <- RandomMutation_draws self N L ;;
  let '(k, mutation_inds) := draws in
  mutation_list <- replicateM N (random_dna A k) ;;
  mutations <- lift (stack mutation_list) ;;
  let x_aug := x in
  lift (mapR (fun '(xi, inds, mut) => index_put_last xi inds mut)
             (zip3 x_aug mutation_inds mutations)).

(** ** RandomRC *)

Record RandomRC : Set := { rc_prob : Q }.

(** [RandomRC.__init__] *)
Definition RandomRC_init (rc_prob : Q) : result RandomRC :=
  Ok {| rc_prob := rc_prob |}.

(** [x[mask]] *)
Fixpoint mask_select {X} (mask : list bool) (x : list X) : list X :=
  match mask, x with
  | b :: mask', xi :: x' =>
      if b then xi :: mask_select mask' x' else mask_select mask' x'
  | _, _ => []
  end.

(** [x[mask] = vals] *)
Fixpoint mask_put {X} (mask : list bool) (x vals : list X) : list X :=
  match mask, x with
  | b :: mask', xi :: x' =>
      if b then match vals with
                | v :: vals' => v :: mask_put mask' x' vals'
                | [] => x
                end
      else xi :: mask_put mask' x' vals
  | _, _ => x
  end.

(** [torch.flip(x, dims=[1,2])] *)
Definition flip12 (x : batch) : batch := map flip01 x.

Definition RandomRC_draws (self : RandomRC) (N : nat) : M (list bool) :=
  u <- torch_rand N ;;
  ret (map (fun v => Qlt_bool v (rc_prob self)) u).

(** [RandomRC.__call__] *)
Definition RandomRC_call (self : RandomRC) (x : batch) : M batch :=
  let x_aug := x in
  ind_rc <- RandomRC_draws self (length x_aug) ;;
  ret (mask_put ind_rc x_aug (flip12 (mask_select ind_rc x_aug))).

(** ** RandomNoise *)

Record RandomNoise : Set := { noise_mean : Q; noise_std : Q }.

(** [RandomNoise.__init__] *)
Definition RandomNoise_init (noise_mean noise_std : Q) : result RandomNoise :=
  Ok {| noise_mean := noise_mean; noise_std := noise_std |}.

Definition normal_one (mean std : Q) : M Q :=
  z <- next_normal ;; ret (mean + std * z)%Q.

(** [torch.normal(mean, std, (N, A, L))], over the rationals. *)
Definition torch_normal (mean std : Q) (shape : nat * nat * nat) : M batch :=
  let '(N, A, L) := shape in
  if Qlt_bool std 0 then raise (RuntimeError "normal expects std >= 0.0")
  else replicateM N (replicateM A (replicateM L (normal_one mean std))).

Fixpoint map2 {X Y W} (f : X -> Y -> W) (a : list X) (b : list Y) : list W :=
  match a, b with
  | u :: a', v :: b' => f u v :: map2 f a' b'
  | _, _ => []
  end.

(** Elementwise [x + y] of two batches of one shape. *)
Definition tensor_add (x y : batch) : batch := map2 (map2 (map2 Qplus)) x y.

(** [RandomNoise.__call__] *)
Definition RandomNoise_call (self : RandomNoise) (x : batch) : M batch :=
  noise <- torch_normal (noise_mean self) (noise_std self) (shape3 x) ;;
  ret (tensor_add x noise).

(** ** One-hot tensors *)

(** Position [l] of an example: its column over the alphabet axis. *)
Definition column (l : nat) (m : matrix) : list elt :=
  map (fun r => nth l r zero) m.

(** Exactly one entry is 1 and the others are 0. *)
Definition one_hot (v : list elt) : Prop :=
  exists a, (a < length v)%nat /\
    forall b, (b < length v)%nat ->
      nth b v zero = if (b =? a)%nat then one else zero.

Definition OneHot2 (A L : nat) (m : matrix) : Prop :=
  shape2 A L m /\ forall l, (l < L)%nat -> one_hot (column l m).

Definition OneHot3 (N A L : nat) (x : batch) : Prop :=
  length x = N /\ Forall (OneHot2 A L) x.

(** The one-hot encoding of a symbol string: row [a] marks the
    positions holding symbol [a]. *)
Definition encode (A : nat) (idx : list nat) : matrix :=
  map (fun a => map (fun i => if (i =? a)%nat then one else zero) idx)
      (seq 0 A).

Definition Encoded (A L : nat) (m : matrix) : Prop :=
  exists idx, length idx = L /\ Forall (fun i => (i < A)%nat) idx /\
              m = encode A idx.

(** ** Specifications of computations *)

(** Total correctness: whatever the generator, [m] returns a value
    satisfying [P]. *)
Definition returns {X} (m : M X) (P : X -> Prop) : Prop :=
  forall g, exists v g', m g = Ok (v, g') /\ P v.

(** Whatever the generator, [m] raises. *)
Definition raises {X} (m : M X) : Prop :=
  forall g, exists e, m g = Raise e.

(** Every value [m] can return satisfies [P]. *)
Definition ensures {X} (m : M X) (P : X -> Prop) : Prop :=
  forall g v g', m g = Ok (v, g') -> P v.

(** Some generator makes [m] return [v]. *)
Definition can_return {X} (m : M X) (v : X) : Prop :=
  exists g g', m g = Ok (v, g').

(** What one call of [RandomDeletion] can draw. *)
Definition RandomDeletion_draws_ok (self : RandomDeletion) (N A L : nat)
    (d : batch * list Z * list Z) : Prop :=
  let '(padding, delete_lens, delete_inds) := d in
  length padding = N /\
  Forall (Encoded A (Z.to_nat (delete_max self))) padding /\
  length delete_lens = N /\
  Forall (fun v => delete_min self <= v <= delete_max self) delete_lens /\
  length delete_inds = N /\
  Forall (fun v => 0 <= v <= Z.of_nat L - delete_max self) delete_inds.

(** What one call of [RandomInsertion] can draw. *)
Definition RandomInsertion_draws_ok (self : RandomInsertion) (N A L : nat)
    (d : batch * list Z * list Z) : Prop :=
  let '(insertions, insert_lens, insert_inds) := d in
  length insertions = N /\
  Forall (Encoded A (Z.to_nat (insert_max self))) insertions /\
  length insert_lens = N /\
  Forall (fun v => insert_min self <= v <= insert_max self) insert_lens /\
  length insert_inds = N /\
  Forall (fun v => 0 <= v < Z.of_nat L) insert_inds.

(** What one call of [RandomInversion] can draw. *)
Definition RandomInversion_draws_ok (self : RandomInversion) (N L : nat)
    (d : list Z * list Z) : Prop :=
  let '(inversion_lens, inversion_inds) := d in
  length inversion_lens = N /\
  Forall (fun v => invert_min self <= v <= invert_max self) inversion_lens /\
  length inversion_inds = N /\
  Forall (fun v => 0 <= v <= Z.of_nat L - invert_max self) inversion_inds.

(** The entry [y[0,0,0]] of a batch. *)
Definition entry000 (y : batch) : Q := nth 0 (nth 0 (nth 0 y []) []) zero.

(** The first noise value a call of [RandomNoise] adds, for generator [g]. *)
Definition first_noise (self : RandomNoise) (g : rng) : Q :=
  (noise_mean self + noise_std self * normals g 0%nat)%Q.

(** The interval [[start, start + len)] lies inside [[0, L)]. *)
Definition interval_in_bounds (L start len : Z) : Prop :=
  forall i, start <= i < start + len -> 0 <= i < L.

(** A generator that emits the same raw integer forever. *)
Definition const_rng (c : Z) : rng :=
  {| ints := fun _ => c; normals := fun _ => 0%Q |}.

(** A sample batch of shape (2, 4, 6) and a sample generator. *)
Definition example_batch : batch :=
  [ encode 4 [0; 1; 2; 3; 0; 1]%nat; encode 4 [3; 3; 2; 2; 1; 0]%nat ].

Definition example_rng : rng :=
  {| ints := fun n => 7 * Z.of_nat n + 3; normals := fun _ => (1 # 2)%Q |}.

(** Every sampled length lies in [[vmin, vmax]], every sampled start in
    [[0, L - vmax]], the interval they delimit lies inside the sequence,
    and the slice bounds built from them are used as they are. *)
Definition sampled_in_bounds (L vmin vmax : Z) (lens inds : list Z) : Prop :=
  forall len ind, In len lens -> In ind inds ->
    vmin <= len <= vmax /\ 0 <= ind <= L - vmax /\
    interval_in_bounds L ind len /\
    (0 <= len -> clamp_index L ind = ind /\
                 clamp_index L (ind + len) = ind + len).

(** The value a computation returns from generator [g], its final
    generator dropped. *)
Definition run {X} (m : M X) (g : rng) : result X :=
  match m g with
  | Ok (v, _) => Ok v
  | Raise e => Raise e
  end.

(** The entry [m[a, j]] of an example. *)
Definition entry (m : list (list Q)) (a j : nat) : Q :=
  nth j (nth a m []) zero.

(** [out] is [seq] with the columns [delete_ind, delete_ind + delete_len)
    removed: the columns before the interval follow a front padding of
    floor(len / 2) columns, the columns after it come next, and both
    paddings are the first and the last columns of the fragment [pad]. *)
Definition deletion_of (self : RandomDeletion) (A L : nat)
    (pad : list (list Q)) (delete_len delete_ind : Z)
    (seq out : list (list Q)) : Prop :=
  forall a j, (a < A)%nat ->
    (Z.of_nat j < delete_ind ->
     entry out a (Z.to_nat (pad_begin_index delete_len) + j) = entry seq a j) /\
    (delete_ind + delete_len <= Z.of_nat j < Z.of_nat L ->
     entry out a (Z.to_nat (pad_begin_index delete_len) + j
                  - Z.to_nat delete_len) = entry seq a j) /\
    (Z.of_nat j < pad_begin_index delete_len ->
     entry out a j = entry pad a j) /\
    (Z.of_nat j < pad_end_index delete_len ->
     entry out a (L - Z.to_nat (pad_end_index delete_len) + j)
     = entry pad a (Z.to_nat (delete_max self - pad_end_index delete_len)
                    + j)).

(** [out] is [seq] with [insert_len] columns of the fragment [insertion]
    spliced in before column [insert_ind]: the columns of [seq] keep their
    order, and the columns of the fragment before and after the spliced
    ones are the front and the back padding. *)
Definition insertion_of (self : RandomInsertion) (A L : nat)
    (insertion : list (list Q)) (insert_len insert_ind : Z)
    (seq out : list (list Q)) : Prop :=
  let b := insert_beginning_len self insert_len in
  forall a j, (a < A)%nat ->
    (Z.of_nat j < insert_ind ->
     entry out a (Z.to_nat b + j) = entry seq a j) /\
    (insert_ind <= Z.of_nat j < Z.of_nat L ->
     entry out a (Z.to_nat b + Z.to_nat insert_len + j) = entry seq a j) /\
    (Z.of_nat j < b -> entry out a j = entry insertion a j) /\
    (b <= Z.of_nat j < b + insert_len ->
     entry out a (Z.to_nat insert_ind + j) = entry insertion a j) /\
    (b + insert_len <= Z.of_nat j < insert_max self ->
     entry out a (L + j) = entry insertion a j).

(** [out] is [seq] with the interval [inversion_ind, inversion_ind +
    inversion_len) flipped on both axes: outside the interval nothing
    moves, inside it column [j] of row [a] comes from the mirrored column
    of the mirrored row. *)
Definition inversion_of (A L : nat) (inversion_len inversion_ind : Z)
    (seq out : list (list Q)) : Prop :=
  forall a j, (a < A)%nat -> (j < L)%nat ->
    (Z.of_nat j < inversion_ind \/ inversion_ind + inversion_len <= Z.of_nat j ->
     entry out a j = entry seq a j) /\
    (inversion_ind <= Z.of_nat j < inversion_ind + inversion_len ->
     entry out a j
     = entry seq (A - 1 - a)
             (Z.to_nat (2 * inversion_ind + inversion_len - 1) - j)).

(** [out] is [seq] with the columns listed in [inds] overwritten, in
    that order, by the columns of [mut]; no other entry changes. *)
Definition mutation_of (A : nat) (inds : list nat) (mut seq out : list (list Q))
  : Prop :=
  forall a, (a < A)%nat ->
    (forall j, ~ In j inds -> entry out a j = entry seq a j) /\
    (forall t, (t < length inds)%nat ->
               entry out a (nth t inds 0%nat) = entry mut a t).

(** [out] is [seq] rotated along the length axis: column [j] of [seq]
    is column [(j + shift) mod L] of [out]. *)
Definition rotation_of (A L : nat) (shift : Z) (seq out : list (list Q))
  : Prop :=
  forall a j, (a < A)%nat -> (j < L)%nat ->
    entry out a (Z.to_nat ((Z.of_nat j + shift) mod Z.of_nat L))
    = entry seq a j.

Lemma returns_ret {X} (v : X) (P : X -> Prop) : P v -> returns (ret v) P.
Proof. intros H g. exists v, g. split; [reflexivity | exact H]. Qed.

Lemma returns_bind {X Y} (m : M X) (k : X -> M Y) (P : X -> Prop)
    (Q : Y -> Prop) :
  returns m P -> (forall v, P v -> returns (k v) Q) -> returns (bind m k) Q.
Proof.
  intros Hm Hk g. destruct (Hm g) as (v & g1 & E & Pv).
  destruct (Hk v Pv g1) as (w & g2 & E2 & Qw).
  exists w, g2. unfold bind. rewrite E. split; assumption.
Qed.

Lemma returns_lift {X} (r : result X) (v : X) (P : X -> Prop) :
  r = Ok v -> P v -> returns (lift r) P.
Proof. intros -> H g. exists v, g. split; [reflexivity | exact H]. Qed.

Lemma returns_weaken {X} (m : M X) (P Q : X -> Prop) :
  returns m P -> (forall v, P v -> Q v) -> returns m Q.
Proof.
  intros H I g. destruct (H g) as (v & g' & E & Pv).
  exists v, g'. split; [exact E | exact (I v Pv)].
Qed.

Lemma returns_ensures {X} (m : M X) (P : X -> Prop) :
  returns m P -> ensures m P.
Proof.
  intros H g v g' E. destruct (H g) as (w & g1 & E1 & Pw).
  rewrite E in E1. injection E1 as -> ->. exact Pw.
Qed.

Lemma returns_replicateM {X} (m : M X) (P : X -> Prop) (n : nat) :
  returns m P ->
  returns (replicateM n m) (fun l => length l = n /\ Forall P l).
Proof.
  intros Hm. induction n as [|n IH]; simpl.
  - apply returns_ret. split; [reflexivity | constructor].
  - apply returns_bind with (P := P); [exact Hm|]. intros v Pv.
    apply returns_bind with (P := fun l => length l = n /\ Forall P l);
      [exact IH|].
    intros l [Hl Hf]. apply returns_ret. simpl. split.
    + now rewrite Hl.
    + now constructor.
Qed.

Lemma raises_bind_l {X Y} (m : M X) (k : X -> M Y) :
  raises m -> raises (bind m k).
Proof.
  intros H g. destruct (H g) as (e & E). exists e. unfold bind. now rewrite E.
Qed.

Lemma raises_bind_r {X Y} (m : M X) (k : X -> M Y) (P : X -> Prop) :
  returns m P -> (forall v, P v -> raises (k v)) -> raises (bind m k).
Proof.
  intros Hm Hk g. destruct (Hm g) as (v & g1 & E & Pv).
  destruct (Hk v Pv g1) as (e & E2). exists e. unfold bind. now rewrite E.
Qed.

(** A computation either raises or returns, whatever it is. *)
Lemma raises_bind_any {X Y} (m : M X) (k : X -> M Y) :
  (forall v, raises (k v)) -> raises (bind m k).
Proof.
  intros Hk g. unfold bind. destruct (m g) as [[v g1]|e].
  - apply Hk.
  - now exists e.
Qed.

Lemma raises_raise {X} (e : exn) : raises (@raise X e).
Proof. intros g. now exists e. Qed.

Lemma raises_lift {X} (e : exn) : raises (@lift X (Raise e)).
Proof. intros g. now exists e. Qed.

(** ** The samplers *)

Lemma randint_one_returns (low high : Z) :
  low < high -> returns (randint_one low high) (fun v => low <= v < high).
Proof.
  intros H g. eexists _, _. split; [reflexivity|]. cbn beta.
  pose proof (Z.mod_pos_bound (ints g 0%nat) (high - low)). lia.
Qed.

Lemma torch_randint_returns (low high : Z) (size : nat) :
  low < high ->
  returns (torch_randint low high size)
          (fun l => length l = size /\ Forall (fun v => low <= v < high) l).
Proof.
  intros H. unfold torch_randint.
  destruct (Z.ltb_spec low high); [|lia].
  apply returns_replicateM. now apply randint_one_returns.
Qed.

Lemma torch_randint_raises (low high : Z) (size : nat) :
  high <= low -> raises (torch_randint low high size).
Proof.
  intros H. unfold torch_randint.
  destruct (Z.ltb_spec low high); [lia|]. apply raises_raise.
Qed.

Lemma torch_rand_returns (size : nat) :
  returns (torch_rand size) (fun l => length l = size).
Proof.
  unfold torch_rand.
  apply returns_weaken with
    (P := fun l : list Q => length l = size /\ Forall (fun _ => True) l).
  - apply returns_replicateM. intros g. eexists _, _.
    split; [reflexivity | exact I].
  - now intros l [H _].
Qed.

Lemma multinomial_returns (p : list Q) (n : Z) :
  0 < n -> (0 < length p)%nat ->
  returns (multinomial p n)
          (fun idx => length idx = Z.to_nat n /\
                      Forall (fun i => (i < length p)%nat) idx).
Proof.
  intros Hn Hp. unfold multinomial.
  destruct (Z.leb_spec n 0); [lia|].
  destruct (Nat.eqb_spec (length p) 0); [lia|].
  apply returns_replicateM. intros g. eexists _, _. split; [reflexivity|].
  cbn beta.
  pose proof (Z.mod_pos_bound (ints g 0%nat) (Z.of_nat (length p))). lia.
Qed.

Lemma multinomial_raises (p : list Q) (n : Z) :
  n <= 0 -> raises (multinomial p n).
Proof.
  intros H. unfold multinomial.
  destruct (Z.leb_spec n 0); [|lia]. apply raises_raise.
Qed.

(** ** Slices, concatenation and stacking *)

Lemma clamp_index_range (len i : Z) :
  0 <= len -> 0 <= clamp_index len i <= len.
Proof. unfold clamp_index. destruct (Z.ltb_spec i 0); lia. Qed.

Lemma clamp_index_id (len i : Z) : 0 <= i <= len -> clamp_index len i = i.
Proof. unfold clamp_index. destruct (Z.ltb_spec i 0); lia. Qed.

Lemma slice_start_range (len : Z) (start : option Z) :
  0 <= len -> 0 <= slice_start len start <= len.
Proof.
  destruct start; simpl; [apply clamp_index_range | lia].
Qed.

Lemma slice_stop_range (len : Z) (stop : option Z) :
  0 <= len -> 0 <= slice_stop len stop <= len.
Proof.
  destruct stop; simpl; [apply clamp_index_range | lia].
Qed.

Lemma py_slice_length {X} (start stop : option Z) (l : list X) :
  length (py_slice start stop l) = slice_len start stop (length l).
Proof.
  unfold py_slice, slice_len.
  pose proof (slice_start_range (Z.of_nat (length l)) start).
  pose proof (slice_stop_range (Z.of_nat (length l)) stop).
  rewrite length_firstn, length_skipn. lia.
Qed.

Lemma py_slice_map {X Y} (f : X -> Y) (start stop : option Z) (l : list X) :
  py_slice start stop (map f l) = map f (py_slice start stop l).
Proof.
  unfold py_slice. rewrite length_map.
  now rewrite <- firstn_map, <- skipn_map.
Qed.

Lemma py_slice_to {X} (j : Z) (l : list X) :
  0 <= j <= Z.of_nat (length l) ->
  py_slice None (Some j) l = firstn (Z.to_nat j) l.
Proof.
  intros H. unfold py_slice. simpl. rewrite clamp_index_id by lia.
  now rewrite Z.sub_0_r.
Qed.

Lemma py_slice_from {X} (i : Z) (l : list X) :
  0 <= i <= Z.of_nat (length l) ->
  py_slice (Some i) None l = skipn (Z.to_nat i) l.
Proof.
  intros H. unfold py_slice. simpl. rewrite clamp_index_id by lia.
  apply firstn_all2. rewrite length_skipn. lia.
Qed.

Lemma py_slice_mid {X} (i j : Z) (l : list X) :
  0 <= i <= Z.of_nat (length l) -> 0 <= j <= Z.of_nat (length l) ->
  py_slice (Some i) (Some j) l = firstn (Z.to_nat (j - i)) (skipn (Z.to_nat i) l).
Proof.
  intros Hi Hj. unfold py_slice. simpl. now rewrite !clamp_index_id by lia.
Qed.

Lemma shape2_slice_last (A L : nat) (start stop : option Z) (m : matrix) :
  shape2 A L m -> shape2 A (slice_len start stop L) (slice_last start stop m).
Proof.
  intros [HA HL]. split.
  - unfold slice_last. now rewrite length_map.
  - unfold slice_last. apply Forall_map.
    eapply Forall_impl; [|exact HL]. cbn beta. intros r Hr.
    now rewrite py_slice_length, Hr.
Qed.

Lemma shape2_zip_app (A L1 L2 : nat) (m1 m2 : matrix) :
  shape2 A L1 m1 -> shape2 A L2 m2 -> shape2 A (L1 + L2) (zip_app m1 m2).
Proof.
  intros [H1 F1] [H2 F2]. revert A m2 H1 H2 F2.
  induction F1 as [|r1 m1 Hr1 F1 IH]; intros A m2 H1 H2 F2.
  - simpl in *. subst A. split; [reflexivity | constructor].
  - destruct F2 as [|r2 m2 Hr2 F2]; simpl in *; [lia|].
    destruct A as [|A]; [lia|].
    destruct (IH A m2) as [E F]; try lia; try assumption.
    split; [simpl; lia|]. constructor; [|exact F].
    rewrite length_app. lia.
Qed.

Lemma cat2_shape (A L1 L2 : nat) (m1 m2 : matrix) :
  shape2 A L1 m1 -> shape2 A L2 m2 ->
  exists m, cat2 m1 m2 = Ok m /\ shape2 A (L1 + L2) m.
Proof.
  intros S1 S2. exists (zip_app m1 m2). split.
  - unfold cat2. destruct S1 as [-> _], S2 as [E _]. rewrite E.
    now rewrite Nat.eqb_refl.
  - now apply shape2_zip_app.
Qed.

(** Concatenating pieces of [A] rows gives [A] rows whose length is the
    sum of the pieces' lengths. *)
Lemma cat_last_shape (A : nat) (ms : list matrix) (Ls : list nat) :
  ms <> [] -> Forall2 (shape2 A) Ls ms ->
  exists m, cat_last ms = Ok m /\ shape2 A (list_sum Ls) m.
Proof.
  intros Hne F. induction F as [|L m Ls ms Hm F IH]; [congruence|].
  destruct ms as [|m' ms'].
  - inversion F; subst. exists m. split; [reflexivity|].
    simpl. now rewrite Nat.add_0_r.
  - destruct IH as (r & Er & Sr); [congruence|].
    destruct (cat2_shape _ _ _ _ _ Hm Sr) as (c & Ec & Sc).
    exists c. split; [|exact Sc].
    change (cat_last (m :: m' :: ms')) with
      (rbind (cat_last (m' :: ms')) (cat2 m)).
    rewrite Er. exact Ec.
Qed.

Lemma shape2_dims (A L : nat) (m : matrix) :
  shape2 A L m -> dims m = repeat L A.
Proof.
  intros [HA HL]. subst A. unfold dims.
  induction HL as [|r m Hr HL IH]; simpl; [reflexivity|]. now rewrite Hr, IH.
Qed.

Lemma dims_shape2 (A L : nat) (m : matrix) :
  dims m = repeat L A -> shape2 A L m.
Proof.
  revert A. induction m as [|r m IH]; intros [|A] E; simpl in E;
    try discriminate.
  - split; [reflexivity | constructor].
  - injection E as Er Em. destruct (IH A Em) as [HA HL].
    split; [simpl; now rewrite HA | now constructor].
Qed.

(** Stacking a non-empty list of examples of one shape succeeds. *)
Lemma stack_shape (A L : nat) (ms : list matrix) :
  ms <> [] -> Forall (shape2 A L) ms -> stack ms = Ok ms.
Proof.
  intros Hne F. destruct ms as [|m rest]; [congruence|].
  inversion F as [|? ? Hm Hrest]; subst. unfold stack.
  replace (forallb _ rest) with true; [reflexivity|].
  symmetry. apply forallb_forall. intros m' Hin.
  rewrite Forall_forall in Hrest.
  rewrite (shape2_dims _ _ _ (Hrest m' Hin)), (shape2_dims _ _ _ Hm).
  destruct (list_eq_dec Nat.eq_dec (repeat L A) (repeat L A)); congruence.
Qed.

Lemma stack_inv (ms : list matrix) (x : batch) :
  stack ms = Ok x -> x = ms /\ ms <> [].
Proof.
  destruct ms as [|m rest]; simpl; [discriminate|].
  destruct (forallb _ rest); [|discriminate].
  intros E. injection E as <-. split; [reflexivity | discriminate].
Qed.

Lemma mapR_ok {X Y} (f : X -> result Y) (Q : Y -> Prop) (l : list X) :
  Forall (fun a => exists b, f a = Ok b /\ Q b) l ->
  exists bs, mapR f l = Ok bs /\ length bs = length l /\ Forall Q bs.
Proof.
  induction 1 as [|a l (b & Eb & Qb) F (bs & Ebs & Hl & Hq)]; simpl.
  - exists []. repeat split. constructor.
  - exists (b :: bs). rewrite Eb, Ebs. simpl.
    repeat split; [now rewrite Hl | now constructor].
Qed.

(** ** One-hot encodings *)

Lemma nth_map_seq {X} (F : nat -> X) (n a : nat) (d : X) :
  (a < n)%nat -> nth a (map F (seq 0 n)) d = F a.
Proof.
  intros H. rewrite (nth_indep _ d (F 0%nat)) by now rewrite length_map, length_seq.
  rewrite map_nth, seq_nth by exact H. reflexivity.
Qed.

Lemma nth_map_default {X Y} (f : X -> Y) (l : list X) (n : nat) (d : Y) (d' : X) :
  (n < length l)%nat -> nth n (map f l) d = f (nth n l d').
Proof.
  intros H. rewrite (nth_indep _ d (f d')) by now rewrite length_map.
  apply map_nth.
Qed.

Lemma encode_shape (A : nat) (idx : list nat) :
  shape2 A (length idx) (encode A idx).
Proof.
  unfold encode. split.
  - now rewrite length_map, length_seq.
  - apply Forall_map, Forall_forall. intros a _. apply length_map.
Qed.

Lemma Encoded_shape2 (A L : nat) (m : matrix) : Encoded A L m -> shape2 A L m.
Proof. intros (idx & <- & _ & ->). apply encode_shape. Qed.

Lemma finite_choice (P : nat -> nat -> Prop) (L : nat) :
  (forall l, (l < L)%nat -> exists a, P l a) ->
  exists idx, length idx = L /\ forall l, (l < L)%nat -> P l (nth l idx 0%nat).
Proof.
  induction L as [|L IH]; intros H.
  - exists []. split; [reflexivity | lia].
  - destruct IH as (idx & Hl & Hp); [intros l Hlt; apply H; lia|].
    destruct (H L) as (a & Pa); [lia|].
    exists (idx ++ [a]). split; [rewrite length_app; simpl; lia|].
    intros l Hlt. destruct (Nat.eq_dec l L) as [->|Hne].
    + rewrite app_nth2 by lia. rewrite Hl, Nat.sub_diag. exact Pa.
    + rewrite app_nth1 by lia. apply Hp. lia.
Qed.

(** A matrix is one-hot at every position exactly when it is the
    encoding of a symbol string. *)
Lemma Encoded_OneHot2 (A L : nat) (m : matrix) : Encoded A L m -> OneHot2 A L m.
Proof.
  intros (idx & Hl & Hb & ->). split; [rewrite <- Hl; apply encode_shape|].
  intros l Hlt. unfold column, encode. rewrite map_map.
  exists (nth l idx 0%nat). rewrite length_map, length_seq. split.
  - rewrite Forall_forall in Hb. apply Hb, nth_In. lia.
  - intros b Hb'. rewrite nth_map_seq by exact Hb'.
    rewrite nth_map_default with (d' := 0%nat) by lia.
    now rewrite Nat.eqb_sym.
Qed.

Lemma OneHot2_Encoded (A L : nat) (m : matrix) : OneHot2 A L m -> Encoded A L m.
Proof.
  intros [[HA HL] Hc].
  destruct (finite_choice
              (fun l a => (a < A)%nat /\
                 forall b, (b < A)%nat ->
                   nth b (column l m) zero = if (b =? a)%nat then one else zero) L)
    as (idx & Hlen & Hidx).
  { intros l Hlt. destruct (Hc l Hlt) as (a & Ha & Hab).
    assert (E : length (column l m) = A)
      by (unfold column; rewrite length_map; exact HA).
    rewrite E in Ha, Hab. now exists a. }
  exists idx. split; [exact Hlen|]. split.
  - apply Forall_forall. intros i Hin.
    destruct (In_nth _ _ 0%nat Hin) as (l & Hlt & <-).
    apply Hidx. lia.
  - apply nth_ext with (d := []) (d' := []).
    + unfold encode. now rewrite length_map, length_seq.
    + intros a Ha. rewrite HA in Ha. unfold encode.
      rewrite nth_map_seq by exact Ha.
      assert (Hr : length (nth a m []) = L).
      { rewrite Forall_forall in HL. apply HL, nth_In. lia. }
      apply nth_ext with (d := zero) (d' := zero).
      * now rewrite length_map, Hr.
      * intros l Hlt. rewrite Hr in Hlt.
        rewrite nth_map_default with (d' := 0%nat) by lia.
        destruct (Hidx l Hlt) as [_ Hv]. specialize (Hv a Ha).
        unfold column in Hv.
        rewrite nth_map_default with (d' := []) in Hv
          by (rewrite <- HA in Ha; exact Ha).
        cbv beta in Hv. rewrite Nat.eqb_sym. exact Hv.
Qed.

Lemma slice_last_encode (A : nat) (start stop : option Z) (idx : list nat) :
  slice_last start stop (encode A idx) = encode A (py_slice start stop idx).
Proof.
  unfold slice_last, encode. rewrite map_map. apply map_ext.
  intros a. apply py_slice_map.
Qed.

Lemma zip_app_encode (A : nat) (i1 i2 : list nat) :
  zip_app (encode A i1) (encode A i2) = encode A (i1 ++ i2).
Proof.
  unfold encode. generalize (seq 0 A). intros l.
  induction l as [|a l IH]; simpl; [reflexivity|].
  now rewrite IH, map_app.
Qed.

Lemma cat2_encode (A : nat) (i1 i2 : list nat) :
  cat2 (encode A i1) (encode A i2) = Ok (encode A (i1 ++ i2)).
Proof.
  unfold cat2.
  destruct (encode_shape A i1) as [-> _], (encode_shape A i2) as [-> _].
  now rewrite Nat.eqb_refl, zip_app_encode.
Qed.

Lemma cat_last_encode (A : nat) (idxs : list (list nat)) :
  idxs <> [] -> cat_last (map (encode A) idxs) = Ok (encode A (concat idxs)).
Proof.
  induction idxs as [|i idxs IH]; [congruence|]. intros _.
  destruct idxs as [|i' idxs'].
  - simpl. now rewrite app_nil_r.
  - change (cat_last (map (encode A) (i :: i' :: idxs'))) with
      (rbind (cat_last (map (encode A) (i' :: idxs'))) (cat2 (encode A i))).
    rewrite IH by congruence. apply cat2_encode.
Qed.

Lemma rev_map_seq {X} (f : nat -> X) (n : nat) :
  rev (map f (seq 0 n)) = map (fun a => f (n - 1 - a)%nat) (seq 0 n).
Proof.
  induction n as [|n IH]; [reflexivity|].
  transitivity (f n :: rev (map f (seq 0 n))).
  { rewrite seq_S, map_app, rev_app_distr. reflexivity. }
  rewrite IH. change (seq 0 (S n)) with (0%nat :: seq 1 n).
  rewrite <- seq_shift, map_cons, map_map. f_equal.
  - f_equal. lia.
  - apply map_ext. intros a. f_equal. lia.
Qed.

(** Flipping both axes of an encoding reverses the string and mirrors
    every symbol in the alphabet. *)
Lemma flip01_encode (A : nat) (idx : list nat) :
  Forall (fun i => (i < A)%nat) idx ->
  flip01 (encode A idx) = encode A (map (fun i => (A - 1 - i)%nat) (rev idx)).
Proof.
  intros Hb. unfold flip01, encode. rewrite map_map, rev_map_seq.
  apply map_ext_in. intros a Ha. apply in_seq in Ha.
  rewrite <- map_rev, map_map. apply map_ext_in. intros i Hi.
  apply in_rev in Hi. rewrite Forall_forall in Hb. specialize (Hb i Hi).
  destruct (Nat.eqb_spec i (A - 1 - a)), (Nat.eqb_spec (A - 1 - i) a);
    try reflexivity; lia.
Qed.

Lemma roll_row_map {X Y} (f : X -> Y) (shift : Z) (r : list X) :
  roll_row shift (map f r) = map f (roll_row shift r).
Proof.
  destruct r as [|u r]; [reflexivity|].
  unfold roll_row. rewrite length_map.
  change (map f (u :: r)) with (f u :: map f r) at 1.
  cbv iota. rewrite map_app, firstn_map, skipn_map. reflexivity.
Qed.

Lemma roll_last_encode (A : nat) (shift : Z) (idx : list nat) :
  roll_last shift (encode A idx) = encode A (roll_row shift idx).
Proof.
  unfold roll_last, encode. rewrite map_map. apply map_ext.
  intros a. apply roll_row_map.
Qed.

Lemma roll_row_length {X} (shift : Z) (r : list X) :
  length (roll_row shift r) = length r.
Proof.
  destruct r as [|u r]; [reflexivity|]. unfold roll_row.
  rewrite length_app, length_skipn, length_firstn. lia.
Qed.

Lemma Forall_firstn_skipn {X} (P : X -> Prop) (k : nat) (l : list X) :
  Forall P l -> Forall P (firstn k l) /\ Forall P (skipn k l).
Proof.
  intros H. rewrite <- (firstn_skipn k l) in H. now apply Forall_app in H.
Qed.

Lemma roll_row_bound (A : nat) (shift : Z) (idx : list nat) :
  Forall (fun i => (i < A)%nat) idx ->
  Forall (fun i => (i < A)%nat) (roll_row shift idx).
Proof.
  intros H. destruct idx as [|i idx]; [constructor|]. unfold roll_row.
  apply Forall_app.
  apply and_comm, Forall_firstn_skipn, H.
Qed.

(** The random-DNA idiom builds the encoding of the drawn symbols. *)
Lemma transpose_index_rows_eye (A : nat) (idx : list nat) :
  Forall (fun i => (i < A)%nat) idx ->
  transpose A (index_rows (eye A) idx) = encode A idx.
Proof.
  intros Hb. unfold transpose, index_rows, encode, eye.
  apply map_ext_in. intros a Ha. apply in_seq in Ha.
  rewrite map_map. apply map_ext_in. intros i Hi.
  rewrite Forall_forall in Hb. specialize (Hb i Hi).
  rewrite nth_map_seq by exact Hb. rewrite nth_map_seq by lia. reflexivity.
Qed.

Lemma random_dna_returns (A : nat) (n : Z) :
  0 < n -> (0 < A)%nat ->
  returns (random_dna A n) (Encoded A (Z.to_nat n)).
Proof.
  intros Hn HA. unfold random_dna.
  eapply returns_bind.
  - apply multinomial_returns; [exact Hn | now rewrite repeat_length].
  - cbn beta. intros idx [Hl Hb]. rewrite repeat_length in Hb.
    apply returns_ret. exists idx. repeat split; try assumption.
    now apply transpose_index_rows_eye.
Qed.

Lemma random_dna_raises (A : nat) (n : Z) : n <= 0 -> raises (random_dna A n).
Proof.
  intros H. unfold random_dna. apply raises_bind_l.
  now apply multinomial_raises.
Qed.

(** ** Loops over the examples of a batch *)

Lemma returns_lift_ex {X} (r : result X) (P : X -> Prop) :
  (exists v, r = Ok v /\ P v) -> returns (lift r) P.
Proof. intros (v & E & H). now apply returns_lift with (v := v). Qed.

Lemma shape3_has_shape (N A L : nat) (x : batch) :
  has_shape N A L x -> (0 < N)%nat -> (0 < A)%nat -> shape3 x = (N, A, L).
Proof.
  intros [HN F] H0 H1. unfold shape3. rewrite HN.
  destruct x as [|m x]; [simpl in HN; lia|].
  inversion F as [|? ? [HA HL] _]; subst. simpl hd.
  destruct m as [|r m]; [simpl in H1; lia|].
  inversion HL; subst. reflexivity.
Qed.

Lemma zip4_Forall {X Y W V} (P1 : X -> Prop) (P2 : Y -> Prop) (P3 : W -> Prop)
    (P4 : V -> Prop) (R : X * Y * W * V -> Prop) (n : nat)
    (a : list X) (b : list Y) (c : list W) (d : list V) :
  length a = n -> length b = n -> length c = n -> length d = n ->
  Forall P1 a -> Forall P2 b -> Forall P3 c -> Forall P4 d ->
  (forall u v w t, P1 u -> P2 v -> P3 w -> P4 t -> R (u, v, w, t)) ->
  Forall R (zip4 a b c d) /\ length (zip4 a b c d) = n.
Proof.
  intros Ha Hb Hc Hd F1 F2 F3 F4 HR.
  revert n b c d Ha Hb Hc Hd F2 F3 F4.
  induction F1 as [|u a Pu F1 IH]; intros n b c d Ha Hb Hc Hd F2 F3 F4.
  - simpl in *. subst n. split; constructor.
  - destruct F2 as [|v b Pv F2]; [simpl in *; lia|].
    destruct F3 as [|w c Pw F3]; [simpl in *; lia|].
    destruct F4 as [|t d Pt F4]; [simpl in *; lia|].
    simpl in *. destruct n as [|n]; [lia|].
    destruct (IH n b c d) as [F E]; try lia; try assumption.
    split; [constructor; auto | lia].
Qed.

Lemma zip3_Forall {X Y W} (P1 : X -> Prop) (P2 : Y -> Prop) (P3 : W -> Prop)
    (R : X * Y * W -> Prop) (n : nat)
    (a : list X) (b : list Y) (c : list W) :
  length a = n -> length b = n -> length c = n ->
  Forall P1 a -> Forall P2 b -> Forall P3 c ->
  (forall u v w, P1 u -> P2 v -> P3 w -> R (u, v, w)) ->
  Forall R (zip3 a b c) /\ length (zip3 a b c) = n.
Proof.
  intros Ha Hb Hc F1 F2 F3 HR.
  revert n b c Ha Hb Hc F2 F3.
  induction F1 as [|u a Pu F1 IH]; intros n b c Ha Hb Hc F2 F3.
  - simpl in *. subst n. split; constructor.
  - destruct F2 as [|v b Pv F2]; [simpl in *; lia|].
    destruct F3 as [|w c Pw F3]; [simpl in *; lia|].
    simpl in *. destruct n as [|n]; [lia|].
    destruct (IH n b c) as [F E]; try lia; try assumption.
    split; [constructor; auto | lia].
Qed.

Lemma combine_Forall {X Y} (P1 : X -> Prop) (P2 : Y -> Prop)
    (R : X * Y -> Prop) (a : list X) (b : list Y) :
  Forall P1 a -> Forall P2 b ->
  (forall u v, P1 u -> P2 v -> R (u, v)) -> Forall R (combine a b).
Proof.
  intros F1. revert b. induction F1 as [|u a Pu F1 IH]; intros b F2 HR.
  - constructor.
  - destruct F2 as [|v b Pv F2]; simpl; constructor; auto.
Qed.

Lemma py_slice_Forall {X} (P : X -> Prop) (start stop : option Z) (l : list X) :
  Forall P l -> Forall P (py_slice start stop l).
Proof.
  intros H. unfold py_slice.
  apply Forall_firstn_skipn, Forall_firstn_skipn, H.
Qed.

(** ** RandomDeletion: the call *)

(** Abstracts a floor division by two into its quotient and remainder. *)
Ltac half_of n :=
  let q := fresh "q" in
  let r := fresh "r" in
  pose proof (Z.div_mod n 2 ltac:(lia));
  pose proof (Z.mod_pos_bound n 2 ltac:(lia));
  set (q := n / 2) in *; set (r := n mod 2) in *;
  clearbody q r.

Ltac slice_arith :=
  unfold slice_len, slice_start, slice_stop, clamp_index in *;
  repeat match goal with
         | |- context [?a <? ?b] => destruct (Z.ltb_spec a b)
         end;
  lia.

(** The four pieces of one example add up to the input length. *)
Lemma RandomDeletion_pieces_length (dmax delete_len delete_ind : Z) (L : nat) :
  0 <= delete_len <= dmax -> 0 <= delete_ind <= Z.of_nat L - dmax ->
  list_sum [ slice_len None (Some (pad_begin_index delete_len)) (Z.to_nat dmax);
             slice_len None (Some delete_ind) L;
             slice_len (Some (delete_ind + delete_len)) None L;
             slice_len (Some (dmax - pad_end_index delete_len)) None
                       (Z.to_nat dmax) ] = L.
Proof.
  intros H1 H2. simpl list_sum. unfold pad_end_index, pad_begin_index.
  half_of delete_len. slice_arith.
Qed.

Lemma RandomDeletion_pieces_shape (self : RandomDeletion) (A L : nat)
    (seq pad : matrix) (delete_len delete_ind : Z) :
  shape2 A L seq -> shape2 A (Z.to_nat (delete_max self)) pad ->
  0 <= delete_len <= delete_max self ->
  0 <= delete_ind <= Z.of_nat L - delete_max self ->
  exists m, cat_last (RandomDeletion_pieces self seq pad delete_len delete_ind)
            = Ok m /\ shape2 A L m.
Proof.
  intros Hs Hp Hl Hi.
  destruct (cat_last_shape A
              (RandomDeletion_pieces self seq pad delete_len delete_ind)
              [ slice_len None (Some (pad_begin_index delete_len))
                  (Z.to_nat (delete_max self));
                slice_len None (Some delete_ind) L;
                slice_len (Some (delete_ind + delete_len)) None L;
                slice_len (Some (delete_max self - pad_end_index delete_len))
                  None (Z.to_nat (delete_max self)) ])
    as (m & E & S).
  - discriminate.
  - unfold RandomDeletion_pieces.
    repeat (apply Forall2_cons; [now apply shape2_slice_last|]).
    apply Forall2_nil.
  - exists m. split; [exact E|].
    now rewrite RandomDeletion_pieces_length in S.
Qed.

Lemma RandomDeletion_pieces_encoded (self : RandomDeletion) (A L : nat)
    (seq pad : matrix) (delete_len delete_ind : Z) :
  Encoded A L seq -> Encoded A (Z.to_nat (delete_max self)) pad ->
  0 <= delete_len <= delete_max self ->
  0 <= delete_ind <= Z.of_nat L - delete_max self ->
  exists m, cat_last (RandomDeletion_pieces self seq pad delete_len delete_ind)
            = Ok m /\ Encoded A L m.
Proof.
  intros (si & Hsl & Hsb & ->) (pi & Hpl & Hpb & ->) Hl Hi.
  unfold RandomDeletion_pieces. rewrite !slice_last_encode.
  eexists. split.
  - apply (cat_last_encode A [_; _; _; _]). discriminate.
  - eexists. split; [|split; [|reflexivity]].
    + simpl concat. rewrite !length_app, !py_slice_length, Hsl, Hpl.
      simpl length.
      now apply (RandomDeletion_pieces_length (delete_max self)).
    + simpl concat. rewrite app_nil_r.
      repeat (apply Forall_app; split); now apply py_slice_Forall.
Qed.

Lemma Forall_range_lt_le (low high : Z) (l : list Z) :
  Forall (fun v => low <= v < high + 1) l ->
  Forall (fun v => low <= v <= high) l.
Proof. apply Forall_impl. intros v. lia. Qed.

Lemma length_pos_nonempty {X} (l : list X) (n : nat) :
  length l = n -> (0 < n)%nat -> l <> [].
Proof. intros H H0 ->. simpl in H. lia. Qed.

Lemma RandomDeletion_draws_returns (self : RandomDeletion) (N A L : nat) :
  (0 < N)%nat -> (0 < A)%nat ->
  delete_min self <= delete_max self -> 0 < delete_max self ->
  delete_max self <= Z.of_nat L ->
  returns (RandomDeletion_draws self N A L) (RandomDeletion_draws_ok self N A L).
Proof.
  intros HN HA Hmm Hpos HL. unfold RandomDeletion_draws.
  eapply returns_bind.
  { apply returns_replicateM, random_dna_returns; assumption. }
  cbv beta. intros padding_list [Hpl Hpf].
  eapply returns_bind.
  { apply returns_lift with (v := padding_list)
                            (P := fun p => p = padding_list); [|reflexivity].
    apply stack_shape with (A := A) (L := Z.to_nat (delete_max self)).
    - now apply length_pos_nonempty with (n := N).
    - eapply Forall_impl; [|exact Hpf]. apply Encoded_shape2. }
  cbv beta. intros padding ->.
  eapply returns_bind.
  { apply torch_randint_returns. lia. }
  cbv beta. intros delete_lens [Hll Hlf].
  eapply returns_bind.
  { apply torch_randint_returns. lia. }
  cbv beta. intros delete_inds [Hil Hif].
  apply returns_ret. unfold RandomDeletion_draws_ok.
  repeat split; try assumption.
  - now apply Forall_range_lt_le.
  - eapply Forall_impl; [|exact Hif]. cbv beta. intros v. lia.
Qed.

(** The call returns, and keeps any property of examples that the
    per-example concatenation keeps. *)
Lemma RandomDeletion_call_gen (self : RandomDeletion) (N A L : nat)
    (P : matrix -> Prop) (x : batch) :
  (forall m, P m -> shape2 A L m) ->
  (forall seq pad delete_len delete_ind,
      P seq -> Encoded A (Z.to_nat (delete_max self)) pad ->
      0 <= delete_len <= delete_max self ->
      0 <= delete_ind <= Z.of_nat L - delete_max self ->
      exists m, cat_last (RandomDeletion_pieces self seq pad
                            delete_len delete_ind) = Ok m /\ P m) ->
  (0 < N)%nat -> (0 < A)%nat ->
  0 <= delete_min self <= delete_max self -> 0 < delete_max self ->
  delete_max self <= Z.of_nat L ->
  length x = N -> Forall P x ->
  returns (RandomDeletion_call self x) (fun y => length y = N /\ Forall P y).
Proof.
  intros HP Hbody HN HA Hmm Hpos HL Hx Fx. unfold RandomDeletion_call.
  assert (Hs : shape3 x = (N, A, L)).
  { apply shape3_has_shape; try assumption.
    split; [exact Hx | eapply Forall_impl; [apply HP | exact Fx]]. }
  rewrite Hs.
  eapply returns_bind.
  { apply RandomDeletion_draws_returns; try assumption. lia. }
  intros [[padding delete_lens] delete_inds] (Hpl & Hpf & Hll & Hlf & Hil & Hif).
  eapply returns_bind with (P := fun y => length y = N /\ Forall P y).
  - apply returns_lift_ex.
    destruct (zip4_Forall P (Encoded A (Z.to_nat (delete_max self)))
                (fun v => delete_min self <= v <= delete_max self)
                (fun v => 0 <= v <= Z.of_nat L - delete_max self)
                (fun t => exists b,
                     (let '(seq, pad, delete_len, delete_ind) := t in
                      cat_last (RandomDeletion_pieces self seq pad
                                  delete_len delete_ind)) = Ok b /\ P b)
                N x padding delete_lens delete_inds) as [Fz Lz];
      try assumption.
    { intros u v w t Pu Pv Pw Pt. apply Hbody; try assumption. lia. }
    destruct (mapR_ok _ P _ Fz) as (bs & E & Hlen & HQ).
    exists bs. split; [exact E|]. split; [lia | exact HQ].
  - intros x_aug [Hal Haf]. apply returns_lift_ex. exists x_aug. split.
    + apply stack_shape with (A := A) (L := L).
      * now apply length_pos_nonempty with (n := N).
      * eapply Forall_impl; [apply HP | exact Haf].
    + now split.
Qed.

Lemma RandomDeletion_call_shape (self : RandomDeletion) (N A L : nat) (x : batch) :
  (0 < N)%nat -> (0 < A)%nat ->
  0 <= delete_min self <= delete_max self -> 0 < delete_max self ->
  delete_max self <= Z.of_nat L -> has_shape N A L x ->
  returns (RandomDeletion_call self x) (has_shape N A L).
Proof.
  intros HN HA Hmm Hpos HL [Hx Fx].
  apply (RandomDeletion_call_gen self N A L (shape2 A L)); try assumption.
  - auto.
  - intros seq pad dl di Hs Hp. apply RandomDeletion_pieces_shape; try assumption.
    now apply Encoded_shape2.
Qed.

Lemma Forall_OneHot2_Encoded (A L : nat) (x : batch) :
  Forall (OneHot2 A L) x <-> Forall (Encoded A L) x.
Proof.
  split; apply Forall_impl; intros m.
  - apply OneHot2_Encoded.
  - apply Encoded_OneHot2.
Qed.

Lemma returns_OneHot3 (m : M batch) (N A L : nat) :
  returns m (fun y => length y = N /\ Forall (Encoded A L) y) ->
  returns m (OneHot3 N A L).
Proof.
  intros H. eapply returns_weaken; [exact H|]. intros y [Hl Hf].
  split; [exact Hl | now apply Forall_OneHot2_Encoded].
Qed.

Lemma RandomDeletion_call_onehot (self : RandomDeletion) (N A L : nat) (x : batch) :
  (0 < N)%nat -> (0 < A)%nat ->
  0 <= delete_min self <= delete_max self -> 0 < delete_max self ->
  delete_max self <= Z.of_nat L -> OneHot3 N A L x ->
  returns (RandomDeletion_call self x) (OneHot3 N A L).
Proof.
  intros HN HA Hmm Hpos HL [Hx Fx]. apply returns_OneHot3.
  apply (RandomDeletion_call_gen self N A L (Encoded A L)); try assumption.
  - apply Encoded_shape2.
  - intros seq pad dl di. apply RandomDeletion_pieces_encoded.
  - now apply Forall_OneHot2_Encoded.
Qed.

(** ** RandomInsertion: the call *)

(** The five pieces of one example add up to the input length plus
    [insert_max], whatever the realized insertion length. *)
Lemma RandomInsertion_pieces_length (self : RandomInsertion)
    (insert_len insert_ind : Z) (L : nat) :
  0 <= insert_len <= insert_max self -> 0 <= insert_ind <= Z.of_nat L ->
  let b := insert_beginning_len self insert_len in
  let F := Z.to_nat (insert_max self) in
  list_sum [ slice_len None (Some b) F;
             slice_len None (Some insert_ind) L;
             slice_len (Some b) (Some (b + insert_len)) F;
             slice_len (Some insert_ind) None L;
             slice_len (Some (b + insert_len)) (Some (insert_max self)) F ]
  = (L + Z.to_nat (insert_max self))%nat.
Proof.
  intros H1 H2. cbv zeta. simpl list_sum. unfold insert_beginning_len.
  half_of (insert_max self - insert_len). slice_arith.
Qed.

Lemma RandomInsertion_pieces_shape (self : RandomInsertion) (A L : nat)
    (seq insertion : matrix) (insert_len insert_ind : Z) :
  shape2 A L seq -> shape2 A (Z.to_nat (insert_max self)) insertion ->
  0 <= insert_len <= insert_max self -> 0 <= insert_ind <= Z.of_nat L ->
  exists m, cat_last (RandomInsertion_pieces self seq insertion
                        insert_len insert_ind) = Ok m /\
            shape2 A (L + Z.to_nat (insert_max self)) m.
Proof.
  intros Hs Hp Hl Hi.
  pose proof (RandomInsertion_pieces_length self insert_len insert_ind L Hl Hi)
    as Hsum. cbv zeta in Hsum.
  destruct (cat_last_shape A
              (RandomInsertion_pieces self seq insertion insert_len insert_ind)
              _ ltac:(discriminate)
              (Forall2_cons _ _ (shape2_slice_last _ _ _ _ _ Hp)
              (Forall2_cons _ _ (shape2_slice_last _ _ _ _ _ Hs)
              (Forall2_cons _ _ (shape2_slice_last _ _ _ _ _ Hp)
              (Forall2_cons _ _ (shape2_slice_last _ _ _ _ _ Hs)
              (Forall2_cons _ _ (shape2_slice_last _ _ _ _ _ Hp)
                 (Forall2_nil _)))))))
    as (m & E & S).
  exists m. split; [exact E|]. now rewrite Hsum in S.
Qed.

Lemma RandomInsertion_pieces_encoded (self : RandomInsertion) (A L : nat)
    (seq insertion : matrix) (insert_len insert_ind : Z) :
  Encoded A L seq -> Encoded A (Z.to_nat (insert_max self)) insertion ->
  0 <= insert_len <= insert_max self -> 0 <= insert_ind <= Z.of_nat L ->
  exists m, cat_last (RandomInsertion_pieces self seq insertion
                        insert_len insert_ind) = Ok m /\
            Encoded A (L + Z.to_nat (insert_max self)) m.
Proof.
  intros (si & Hsl & Hsb & ->) (pi & Hpl & Hpb & ->) Hl Hi.
  unfold RandomInsertion_pieces. cbv zeta. rewrite !slice_last_encode.
  eexists. split.
  - apply (cat_last_encode A [_; _; _; _; _]). discriminate.
  - eexists. split; [|split; [|reflexivity]].
    + simpl concat. rewrite !length_app, !py_slice_length, Hsl, Hpl.
      simpl length.
      now apply (RandomInsertion_pieces_length self).
    + simpl concat. rewrite app_nil_r.
      repeat (apply Forall_app; split); now apply py_slice_Forall.
Qed.

Lemma RandomInsertion_draws_returns (self : RandomInsertion) (N A L : nat) :
  (0 < N)%nat -> (0 < A)%nat -> (0 < L)%nat ->
  insert_min self <= insert_max self -> 0 < insert_max self ->
  returns (RandomInsertion_draws self N A L)
          (RandomInsertion_draws_ok self N A L).
Proof.
  intros HN HA HL Hmm Hpos. unfold RandomInsertion_draws.
  eapply returns_bind.
  { apply returns_replicateM, random_dna_returns; assumption. }
  cbv beta. intros insertion_list [Hpl Hpf].
  eapply returns_bind.
  { apply returns_lift with (v := insertion_list)
                            (P := fun p => p = insertion_list); [|reflexivity].
    apply stack_shape with (A := A) (L := Z.to_nat (insert_max self)).
    - now apply length_pos_nonempty with (n := N).
    - eapply Forall_impl; [|exact Hpf]. apply Encoded_shape2. }
  cbv beta. intros insertions ->.
  eapply returns_bind.
  { apply torch_randint_returns. lia. }
  cbv beta. intros insert_lens [Hll Hlf].
  eapply returns_bind.
  { apply torch_randint_returns. lia. }
  cbv beta. intros insert_inds [Hil Hif].
  apply returns_ret. unfold RandomInsertion_draws_ok.
  repeat split; try assumption.
  now apply Forall_range_lt_le.
Qed.

Lemma RandomInsertion_call_gen (self : RandomInsertion) (N A L : nat)
    (P : nat -> matrix -> Prop) (x : batch) :
  (forall L' m, P L' m -> shape2 A L' m) ->
  (forall seq insertion insert_len insert_ind,
      P L seq -> Encoded A (Z.to_nat (insert_max self)) insertion ->
      0 <= insert_len <= insert_max self ->
      0 <= insert_ind <= Z.of_nat L ->
      exists m, cat_last (RandomInsertion_pieces self seq insertion
                            insert_len insert_ind) = Ok m /\
                P (L + Z.to_nat (insert_max self))%nat m) ->
  (0 < N)%nat -> (0 < A)%nat -> (0 < L)%nat ->
  0 <= insert_min self <= insert_max self -> 0 < insert_max self ->
  length x = N -> Forall (P L) x ->
  returns (RandomInsertion_call self x)
          (fun y => length y = N /\
                    Forall (P (L + Z.to_nat (insert_max self))%nat) y).
Proof.
  intros HP Hbody HN HA HL Hmm Hpos Hx Fx. unfold RandomInsertion_call.
  assert (Hs : shape3 x = (N, A, L)).
  { apply shape3_has_shape; try assumption.
    split; [exact Hx | eapply Forall_impl; [apply HP | exact Fx]]. }
  rewrite Hs.
  eapply returns_bind.
  { apply RandomInsertion_draws_returns; try assumption. lia. }
  intros [[insertions insert_lens] insert_inds]
         (Hpl & Hpf & Hll & Hlf & Hil & Hif).
  eapply returns_bind with
    (P := fun y => length y = N /\
                   Forall (P (L + Z.to_nat (insert_max self))%nat) y).
  - apply returns_lift_ex.
    destruct (zip4_Forall (P L) (Encoded A (Z.to_nat (insert_max self)))
                (fun v => insert_min self <= v <= insert_max self)
                (fun v => 0 <= v < Z.of_nat L)
                (fun t => exists b,
                     (let '(seq, insertion, insert_len, insert_ind) := t in
                      cat_last (RandomInsertion_pieces self seq insertion
                                  insert_len insert_ind)) = Ok b /\
                     P (L + Z.to_nat (insert_max self))%nat b)
                N x insertions insert_lens insert_inds) as [Fz Lz];
      try assumption.
    { intros u v w t Pu Pv Pw Pt. apply Hbody; try assumption; lia. }
    destruct (mapR_ok _ (P (L + Z.to_nat (insert_max self))%nat) _ Fz)
      as (bs & E & Hlen & HQ).
    exists bs. split; [exact E|]. split; [lia | exact HQ].
  - intros x_aug [Hal Haf]. apply returns_lift_ex. exists x_aug. split.
    + apply stack_shape with (A := A) (L := (L + Z.to_nat (insert_max self))%nat).
      * now apply length_pos_nonempty with (n := N).
      * eapply Forall_impl; [apply HP | exact Haf].
    + now split.
Qed.

(** The output of an insertion is longer than its input by [insert_max]. *)
Lemma RandomInsertion_call_shape (self : RandomInsertion) (N A L : nat)
    (x : batch) :
  (0 < N)%nat -> (0 < A)%nat -> (0 < L)%nat ->
  0 <= insert_min self <= insert_max self -> 0 < insert_max self ->
  has_shape N A L x ->
  returns (RandomInsertion_call self x)
          (has_shape N A (L + Z.to_nat (insert_max self))).
Proof.
  intros HN HA HL Hmm Hpos [Hx Fx].
  apply (RandomInsertion_call_gen self N A L (shape2 A)); try assumption.
  - auto.
  - intros seq ins il ii Hs Hp. apply RandomInsertion_pieces_shape;
      try assumption.
    now apply Encoded_shape2.
Qed.

Lemma RandomInsertion_call_onehot (self : RandomInsertion) (N A L : nat)
    (x : batch) :
  (0 < N)%nat -> (0 < A)%nat -> (0 < L)%nat ->
  0 <= insert_min self <= insert_max self -> 0 < insert_max self ->
  OneHot3 N A L x ->
  returns (RandomInsertion_call self x)
          (OneHot3 N A (L + Z.to_nat (insert_max self))).
Proof.
  intros HN HA HL Hmm Hpos [Hx Fx]. apply returns_OneHot3.
  apply (RandomInsertion_call_gen self N A L (Encoded A)); try assumption.
  - apply Encoded_shape2.
  - intros seq ins il ii. apply RandomInsertion_pieces_encoded.
  - now apply Forall_OneHot2_Encoded.
Qed.

(** ** RandomTranslocation: the call *)

Lemma negate_where_length (ind_neg : list bool) (shifts : list Z) :
  length (negate_where ind_neg shifts) = length shifts.
Proof.
  revert shifts. induction ind_neg as [|b ind_neg IH]; intros [|s shifts];
    simpl; try reflexivity. now rewrite IH.
Qed.

Lemma RandomTranslocation_draws_returns (self : RandomTranslocation) (N : nat) :
  shift_min self <= shift_max self ->
  returns (RandomTranslocation_draws self N) (fun shifts => length shifts = N).
Proof.
  intros Hmm. unfold RandomTranslocation_draws.
  eapply returns_bind.
  { apply torch_randint_returns. lia. }
  cbv beta. intros shifts [Hl _].
  eapply returns_bind; [apply torch_rand_returns|].
  cbv beta. intros u _. apply returns_ret.
  now rewrite negate_where_length.
Qed.

Lemma shape2_roll_last (A L : nat) (shift : Z) (m : matrix) :
  shape2 A L m -> shape2 A L (roll_last shift m).
Proof.
  intros [HA HL]. unfold roll_last. split.
  - now rewrite length_map.
  - apply Forall_map. eapply Forall_impl; [|exact HL].
    cbv beta. intros r Hr. now rewrite roll_row_length.
Qed.

Lemma Encoded_roll_last (A L : nat) (shift : Z) (m : matrix) :
  Encoded A L m -> Encoded A L (roll_last shift m).
Proof.
  intros (idx & Hl & Hb & ->). exists (roll_row shift idx).
  split; [now rewrite roll_row_length|].
  split; [now apply roll_row_bound | apply roll_last_encode].
Qed.

Lemma RandomTranslocation_call_gen (self : RandomTranslocation) (N A L : nat)
    (P : matrix -> Prop) (x : batch) :
  (forall m, P m -> shape2 A L m) ->
  (forall shift m, P m -> P (roll_last shift m)) ->
  (0 < N)%nat -> shift_min self <= shift_max self ->
  length x = N -> Forall P x ->
  returns (RandomTranslocation_call self x)
          (fun y => length y = N /\ Forall P y).
Proof.
  intros HP Hroll HN Hmm Hx Fx. unfold RandomTranslocation_call.
  eapply returns_bind.
  { apply RandomTranslocation_draws_returns. exact Hmm. }
  cbv beta. intros shifts Hs. rewrite Hx in Hs.
  set (x_rolled := map _ (combine x shifts)).
  assert (Hl : length x_rolled = N).
  { unfold x_rolled. rewrite length_map, length_combine. lia. }
  assert (Hf : Forall P x_rolled).
  { unfold x_rolled. apply Forall_map.
    apply combine_Forall with (P1 := P) (P2 := fun _ => True).
    - exact Fx.
    - apply Forall_forall. auto.
    - intros u v Pu _. now apply Hroll. }
  apply returns_lift_ex. exists x_rolled. split; [|now split].
  apply stack_shape with (A := A) (L := L).
  - now apply length_pos_nonempty with (n := N).
  - eapply Forall_impl; [apply HP | exact Hf].
Qed.

Lemma RandomTranslocation_call_shape (self : RandomTranslocation) (N A L : nat)
    (x : batch) :
  (0 < N)%nat -> shift_min self <= shift_max self -> has_shape N A L x ->
  returns (RandomTranslocation_call self x) (has_shape N A L).
Proof.
  intros HN Hmm [Hx Fx].
  apply (RandomTranslocation_call_gen self N A L (shape2 A L)); auto.
  intros shift m. apply shape2_roll_last.
Qed.

Lemma RandomTranslocation_call_onehot (self : RandomTranslocation)
    (N A L : nat) (x : batch) :
  (0 < N)%nat -> shift_min self <= shift_max self -> OneHot3 N A L x ->
  returns (RandomTranslocation_call self x) (OneHot3 N A L).
Proof.
  intros HN Hmm [Hx Fx]. apply returns_OneHot3.
  apply (RandomTranslocation_call_gen self N A L (Encoded A L)); auto.
  - apply Encoded_shape2.
  - intros shift m. apply Encoded_roll_last.
  - now apply Forall_OneHot2_Encoded.
Qed.

(** ** RandomInversion: the call *)

Lemma shape2_flip01 (A L : nat) (m : matrix) :
  shape2 A L m -> shape2 A L (flip01 m).
Proof.
  intros [HA HL]. unfold flip01. split.
  - now rewrite length_rev, length_map.
  - apply Forall_rev, Forall_map. eapply Forall_impl; [|exact HL].
    cbv beta. intros r Hr. now rewrite length_rev.
Qed.

Lemma Encoded_flip01 (A L : nat) (m : matrix) :
  Encoded A L m -> Encoded A L (flip01 m).
Proof.
  intros (idx & Hl & Hb & ->).
  exists (map (fun i => (A - 1 - i)%nat) (rev idx)). split; [|split].
  - now rewrite length_map, length_rev.
  - apply Forall_map, Forall_rev. eapply Forall_impl; [|exact Hb].
    cbv beta. intros i Hi. lia.
  - now apply flip01_encode.
Qed.

Lemma Encoded_slice_last (A L : nat) (start stop : option Z) (m : matrix) :
  Encoded A L m -> Encoded A (slice_len start stop L) (slice_last start stop m).
Proof.
  intros (idx & Hl & Hb & ->). exists (py_slice start stop idx).
  split; [now rewrite py_slice_length, Hl|].
  split; [now apply py_slice_Forall | apply slice_last_encode].
Qed.

Lemma RandomInversion_pieces_length (imax inversion_len inversion_ind : Z)
    (L : nat) :
  0 <= inversion_len <= imax -> 0 <= inversion_ind <= Z.of_nat L - imax ->
  list_sum [ slice_len None (Some inversion_ind) L;
             slice_len (Some inversion_ind)
                       (Some (inversion_ind + inversion_len)) L;
             slice_len (Some (inversion_ind + inversion_len)) None L ] = L.
Proof. intros H1 H2. simpl list_sum. slice_arith. Qed.

Lemma RandomInversion_pieces_shape (imax : Z) (A L : nat) (seq : matrix)
    (inversion_len inversion_ind : Z) :
  shape2 A L seq ->
  0 <= inversion_len <= imax -> 0 <= inversion_ind <= Z.of_nat L - imax ->
  exists m, cat_last (RandomInversion_pieces seq inversion_len inversion_ind)
            = Ok m /\ shape2 A L m.
Proof.
  intros Hs Hl Hi.
  destruct (cat_last_shape A
              (RandomInversion_pieces seq inversion_len inversion_ind)
              _ ltac:(discriminate)
              (Forall2_cons _ _ (shape2_slice_last _ _ _ _ _ Hs)
              (Forall2_cons _ _
                 (shape2_flip01 _ _ _ (shape2_slice_last _ _ _ _ _ Hs))
              (Forall2_cons _ _ (shape2_slice_last _ _ _ _ _ Hs)
                 (Forall2_nil _)))))
    as (m & E & S).
  exists m. split; [exact E|].
  now rewrite (RandomInversion_pieces_length imax) in S.
Qed.

Lemma RandomInversion_pieces_encoded (imax : Z) (A L : nat) (seq : matrix)
    (inversion_len inversion_ind : Z) :
  Encoded A L seq ->
  0 <= inversion_len <= imax -> 0 <= inversion_ind <= Z.of_nat L - imax ->
  exists m, cat_last (RandomInversion_pieces seq inversion_len inversion_ind)
            = Ok m /\ Encoded A L m.
Proof.
  intros Hs Hl Hi. unfold RandomInversion_pieces.
  destruct (Encoded_slice_last A L None (Some inversion_ind) seq Hs)
    as (i1 & L1 & B1 & ->).
  destruct (Encoded_flip01 _ _ _
              (Encoded_slice_last A L (Some inversion_ind)
                 (Some (inversion_ind + inversion_len)) seq Hs))
    as (i2 & L2 & B2 & ->).
  destruct (Encoded_slice_last A L (Some (inversion_ind + inversion_len))
              None seq Hs) as (i3 & L3 & B3 & ->).
  eexists. split.
  - apply (cat_last_encode A [_; _; _]). discriminate.
  - eexists. split; [|split; [|reflexivity]].
    + simpl concat. rewrite !length_app, L1, L2, L3. simpl length.
      now apply (RandomInversion_pieces_length imax).
    + simpl concat. rewrite app_nil_r.
      repeat (apply Forall_app; split); assumption.
Qed.

Lemma RandomInversion_draws_returns (self : RandomInversion) (N L : nat) :
  invert_min self <= invert_max self -> invert_max self <= Z.of_nat L ->
  returns (RandomInversion_draws self N L) (RandomInversion_draws_ok self N L).
Proof.
  intros Hmm HL. unfold RandomInversion_draws.
  eapply returns_bind.
  { apply torch_randint_returns. lia. }
  cbv beta. intros inversion_lens [Hll Hlf].
  eapply returns_bind.
  { apply torch_randint_returns. lia. }
  cbv beta. intros inversion_inds [Hil Hif].
  apply returns_ret. unfold RandomInversion_draws_ok.
  repeat split; try assumption.
  - now apply Forall_range_lt_le.
  - eapply Forall_impl; [|exact Hif]. cbv beta. intros v. lia.
Qed.

Lemma RandomInversion_call_gen (self : RandomInversion) (N A L : nat)
    (P : matrix -> Prop) (x : batch) :
  (forall m, P m -> shape2 A L m) ->
  (forall seq inversion_len inversion_ind,
      P seq -> 0 <= inversion_len <= invert_max self ->
      0 <= inversion_ind <= Z.of_nat L - invert_max self ->
      exists m, cat_last (RandomInversion_pieces seq inversion_len
                            inversion_ind) = Ok m /\ P m) ->
  (0 < N)%nat -> (0 < A)%nat ->
  0 <= invert_min self <= invert_max self -> invert_max self <= Z.of_nat L ->
  length x = N -> Forall P x ->
  returns (RandomInversion_call self x) (fun y => length y = N /\ Forall P y).
Proof.
  intros HP Hbody HN HA Hmm HL Hx Fx. unfold RandomInversion_call.
  assert (Hs : shape3 x = (N, A, L)).
  { apply shape3_has_shape; try assumption.
    split; [exact Hx | eapply Forall_impl; [apply HP | exact Fx]]. }
  rewrite Hs.
  eapply returns_bind.
  { apply RandomInversion_draws_returns; try assumption. lia. }
  intros [inversion_lens inversion_inds] (Hll & Hlf & Hil & Hif).
  eapply returns_bind with (P := fun y => length y = N /\ Forall P y).
  - apply returns_lift_ex.
    destruct (zip3_Forall P
                (fun v => invert_min self <= v <= invert_max self)
                (fun v => 0 <= v <= Z.of_nat L - invert_max self)
                (fun t => exists b,
                     (let '(seq, inversion_len, inversion_ind) := t in
                      cat_last (RandomInversion_pieces seq inversion_len
                                  inversion_ind)) = Ok b /\ P b)
                N x inversion_lens inversion_inds) as [Fz Lz];
      try assumption.
    { intros u v w Pu Pv Pw. apply Hbody; try assumption. lia. }
    destruct (mapR_ok _ P _ Fz) as (bs & E & Hlen & HQ).
    exists bs. split; [exact E|]. split; [lia | exact HQ].
  - intros x_aug [Hal Haf]. apply returns_lift_ex. exists x_aug. split.
    + apply stack_shape with (A := A) (L := L).
      * now apply length_pos_nonempty with (n := N).
      * eapply Forall_impl; [apply HP | exact Haf].
    + now split.
Qed.

Lemma RandomInversion_call_shape (self : RandomInversion) (N A L : nat)
    (x : batch) :
  (0 < N)%nat -> (0 < A)%nat ->
  0 <= invert_min self <= invert_max self -> invert_max self <= Z.of_nat L ->
  has_shape N A L x ->
  returns (RandomInversion_call self x) (has_shape N A L).
Proof.
  intros HN HA Hmm HL [Hx Fx].
  apply (RandomInversion_call_gen self N A L (shape2 A L)); try assumption.
  - auto.
  - intros seq il ii Hs. now apply RandomInversion_pieces_shape.
Qed.

Lemma RandomInversion_call_onehot (self : RandomInversion) (N A L : nat)
    (x : batch) :
  (0 < N)%nat -> (0 < A)%nat ->
  0 <= invert_min self <= invert_max self -> invert_max self <= Z.of_nat L ->
  OneHot3 N A L x ->
  returns (RandomInversion_call self x) (OneHot3 N A L).
Proof.
  intros HN HA Hmm HL [Hx Fx]. apply returns_OneHot3.
  apply (RandomInversion_call_gen self N A L (Encoded A L)); try assumption.
  - apply Encoded_shape2.
  - intros seq il ii Hs. now apply RandomInversion_pieces_encoded.
  - now apply Forall_OneHot2_Encoded.
Qed.

(** ** RandomMutation: sampling positions without replacement *)

Lemma insert_key_perm (k : Q) (i : nat) (l : list (Q * nat)) :
  Permutation (insert_key k i l) ((k, i) :: l).
Proof.
  induction l as [|[k' i'] l IH]; simpl; [reflexivity|].
  destruct (Qle_bool k k'); [reflexivity|].
  rewrite IH. apply perm_swap.
Qed.

Lemma sort_keys_perm (kis : list (Q * nat)) :
  Permutation
    (fold_right (fun ki acc => insert_key (fst ki) (snd ki) acc) [] kis) kis.
Proof.
  induction kis as [|[k i] kis IH]; simpl; [reflexivity|].
  rewrite insert_key_perm. now constructor.
Qed.

Lemma map_snd_combine {X Y} (a : list X) (b : list Y) :
  length a = length b -> map snd (combine a b) = b.
Proof.
  revert b. induction a as [|u a IH]; intros [|v b] H; simpl in *;
    try reflexivity; try discriminate.
  f_equal. apply IH. lia.
Qed.

(** [argsort] returns a permutation of the positions. *)
Lemma argsort_perm (keys : list Q) :
  Permutation (argsort keys) (seq 0 (length keys)).
Proof.
  unfold argsort. rewrite sort_keys_perm.
  rewrite map_snd_combine; [reflexivity | now rewrite length_seq].
Qed.

Lemma NoDup_firstn {X} (n : nat) (l : list X) : NoDup l -> NoDup (firstn n l).
Proof.
  intros H. rewrite <- (firstn_skipn n l) in H.
  now apply NoDup_app_remove_r in H.
Qed.

Lemma argsort_prefix (keys : list Q) (k : Z) :
  0 <= k <= Z.of_nat (length keys) ->
  let inds := py_slice None (Some k) (argsort keys) in
  length inds = Z.to_nat k /\ NoDup inds /\
  Forall (fun i => (i < length keys)%nat) inds.
Proof.
  intros Hk. cbv zeta.
  pose proof (argsort_perm keys) as Hp.
  assert (Hlen : length (argsort keys) = length keys).
  { rewrite (Permutation_length Hp). apply length_seq. }
  rewrite py_slice_to by lia. split; [|split].
  - rewrite length_firstn. lia.
  - apply NoDup_firstn.
    apply (Permutation_NoDup (Permutation_sym Hp)), seq_NoDup.
  - apply Forall_firstn_skipn. apply Forall_forall. intros i Hi.
    apply (Permutation_in _ Hp) in Hi. apply in_seq in Hi. lia.
Qed.

Lemma RandomMutation_inds_returns (N L : nat) (k : Z) :
  0 <= k <= Z.of_nat L ->
  returns (RandomMutation_inds N L k)
          (fun mutation_inds =>
             length mutation_inds = N /\
             Forall (fun inds => length inds = Z.to_nat k /\ NoDup inds /\
                                 Forall (fun i => (i < L)%nat) inds)
                    mutation_inds).
Proof.
  intros Hk. unfold RandomMutation_inds.
  eapply returns_bind.
  { apply returns_replicateM, torch_rand_returns. }
  cbv beta. intros keys [Hl Hf]. apply returns_ret. split.
  - now rewrite length_map.
  - apply Forall_map. eapply Forall_impl; [|exact Hf].
    cbv beta. intros ks Hks. rewrite <- Hks. apply argsort_prefix. lia.
Qed.

Lemma RandomMutation_draws_returns (self : RandomMutation) (N L : nat) (k : Z) :
  num_mutations (mutate_frac self) L = Ok k -> 0 <= k <= Z.of_nat L ->
  returns (RandomMutation_draws self N L)
          (fun d =>
             fst d = k /\ length (snd d) = N /\
             Forall (fun inds => length inds = Z.to_nat k /\ NoDup inds /\
                                 Forall (fun i => (i < L)%nat) inds)
                    (snd d)).
Proof.
  intros Hk Hr. unfold RandomMutation_draws. rewrite Hk.
  eapply returns_bind.
  { apply returns_lift with (v := k) (P := fun v => v = k); reflexivity. }
  cbv beta. intros k' ->.
  eapply returns_bind; [now apply RandomMutation_inds_returns|].
  cbv beta. intros mutation_inds [Hl Hf]. apply returns_ret. now repeat split.
Qed.

(** ** RandomMutation: the call *)

Lemma set_nth_length {X} (i : nat) (v : X) (l : list X) :
  length (set_nth i v l) = length l.
Proof.
  revert i. induction l as [|u l IH]; intros [|i]; simpl; auto.
Qed.

Lemma set_nth_map {X Y} (f : X -> Y) (i : nat) (v : X) (l : list X) :
  set_nth i (f v) (map f l) = map f (set_nth i v l).
Proof.
  revert i. induction l as [|u l IH]; intros [|i]; simpl; auto.
  now rewrite IH.
Qed.

Lemma set_nth_Forall {X} (P : X -> Prop) (i : nat) (v : X) (l : list X) :
  P v -> Forall P l -> Forall P (set_nth i v l).
Proof.
  intros Pv F. revert i. induction F as [|u l Pu F IH]; intros [|i]; simpl;
    constructor; auto.
Qed.

Lemma scatter_row_length {X} (r : list X) (inds : list nat) (vals : list X) :
  length (scatter_row r inds vals) = length r.
Proof.
  revert r vals. induction inds as [|i inds IH]; intros r [|v vals]; simpl;
    try reflexivity.
  now rewrite IH, set_nth_length.
Qed.

Lemma scatter_row_map {X Y} (f : X -> Y) (r : list X) (inds : list nat)
    (vals : list X) :
  scatter_row (map f r) inds (map f vals) = map f (scatter_row r inds vals).
Proof.
  revert r vals. induction inds as [|i inds IH]; intros r [|v vals]; simpl;
    try reflexivity.
  now rewrite set_nth_map, IH.
Qed.

Lemma scatter_row_Forall {X} (P : X -> Prop) (r : list X) (inds : list nat)
    (vals : list X) :
  Forall P r -> Forall P vals -> Forall P (scatter_row r inds vals).
Proof.
  revert r vals. induction inds as [|i inds IH]; intros r vals Fr Fv;
    destruct Fv as [|v vals Pv Fv]; simpl; try assumption.
  apply IH; [now apply set_nth_Forall | assumption].
Qed.

Lemma index_in_range (A L : nat) (m : matrix) (inds : list nat) :
  shape2 A L m -> Forall (fun i => (i < L)%nat) inds ->
  forallb (fun r => forallb (fun i => (i <? length r)%nat) inds) m = true.
Proof.
  intros [_ HL] Hi. apply forallb_forall. intros r Hr.
  rewrite Forall_forall in HL. rewrite (HL r Hr).
  apply forallb_forall. intros i Hin. rewrite Forall_forall in Hi.
  apply Nat.ltb_lt. now apply Hi.
Qed.

Lemma index_put_last_shape (A L : nat) (m : matrix) (inds : list nat)
    (vals : matrix) :
  shape2 A L m -> Forall (fun i => (i < L)%nat) inds ->
  shape2 A (length inds) vals ->
  exists m', index_put_last m inds vals = Ok m' /\ shape2 A L m'.
Proof.
  intros Hm Hi Hv. unfold index_put_last.
  rewrite (index_in_range A L m inds Hm Hi). simpl negb. cbv iota.
  rewrite (shape2_dims _ _ _ Hv). destruct Hm as [HA HL], Hv as [HvA _].
  rewrite HA.
  destruct (list_eq_dec Nat.eq_dec _ _) as [_|Hne]; [|congruence].
  eexists. split; [reflexivity|]. split.
  - rewrite length_map, length_combine. lia.
  - apply Forall_map.
    apply combine_Forall with (P1 := fun r => length r = L)
                              (P2 := fun _ => True).
    + exact HL.
    + apply Forall_forall. auto.
    + intros u v Hu _. simpl. now rewrite scatter_row_length.
Qed.

Lemma combine_map_same {X Y W} (f : X -> Y) (g : X -> W) (l : list X) :
  combine (map f l) (map g l) = map (fun a => (f a, g a)) l.
Proof. induction l as [|a l IH]; simpl; [reflexivity | now rewrite IH]. Qed.

Lemma index_put_last_encoded (A L : nat) (m : matrix) (inds : list nat)
    (vals : matrix) :
  Encoded A L m -> Forall (fun i => (i < L)%nat) inds ->
  Encoded A (length inds) vals ->
  exists m', index_put_last m inds vals = Ok m' /\ Encoded A L m'.
Proof.
  intros Hm Hi Hv.
  destruct (index_put_last_shape A L m inds vals
              (Encoded_shape2 _ _ _ Hm) Hi (Encoded_shape2 _ _ _ Hv))
    as (m' & E & _).
  exists m'. split; [exact E|].
  destruct Hm as (idx & Hl & Hb & ->), Hv as (mut & Hml & Hmb & ->).
  unfold index_put_last in E.
  destruct (negb _); [discriminate|].
  destruct (list_eq_dec Nat.eq_dec _ _); [|discriminate].
  injection E as <-.
  exists (scatter_row idx inds mut). split; [|split].
  - now rewrite scatter_row_length.
  - now apply scatter_row_Forall.
  - unfold encode. rewrite combine_map_same, map_map. apply map_ext.
    intros a. simpl. apply scatter_row_map.
Qed.

Lemma RandomMutation_call_gen (self : RandomMutation) (N A L : nat) (k : Z)
    (P : matrix -> Prop) (x : batch) :
  (forall m, P m -> shape2 A L m) ->
  (forall m inds vals,
      P m -> Forall (fun i => (i < L)%nat) inds ->
      Encoded A (length inds) vals ->
      exists m', index_put_last m inds vals = Ok m' /\ P m') ->
  (0 < N)%nat -> (0 < A)%nat ->
  num_mutations (mutate_frac self) L = Ok k -> 0 < k <= Z.of_nat L ->
  length x = N -> Forall P x ->
  returns (RandomMutation_call self x) (fun y => length y = N /\ Forall P y).
Proof.
  intros HP Hbody HN HA Hk Hkr Hx Fx. unfold RandomMutation_call.
  assert (Hs : shape3 x = (N, A, L)).
  { apply shape3_has_shape; try assumption.
    split; [exact Hx | eapply Forall_impl; [apply HP | exact Fx]]. }
  rewrite Hs.
  eapply returns_bind.
  { apply RandomMutation_draws_returns; [exact Hk | lia]. }
  intros [k' mutation_inds] (Hk' & Hil & Hif). simpl in Hk', Hil, Hif.
  subst k'.
  eapply returns_bind.
  { apply returns_replicateM, random_dna_returns; [lia | assumption]. }
  cbv beta. intros mutation_list [Hml Hmf].
  eapply returns_bind.
  { apply returns_lift with (v := mutation_list)
                            (P := fun p => p = mutation_list); [|reflexivity].
    apply stack_shape with (A := A) (L := Z.to_nat k).
    - now apply length_pos_nonempty with (n := N).
    - eapply Forall_impl; [|exact Hmf]. apply Encoded_shape2. }
  cbv beta. intros mutations ->.
  apply returns_lift_ex.
  destruct (zip3_Forall P
              (fun inds => length inds = Z.to_nat k /\ NoDup inds /\
                           Forall (fun i => (i < L)%nat) inds)
              (Encoded A (Z.to_nat k))
              (fun t => exists b,
                   (let '(xi, inds, mut) := t in index_put_last xi inds mut)
                   = Ok b /\ P b)
              N x mutation_inds mutation_list) as [Fz Lz];
    try assumption.
  { intros u v w Pu (Hvl & _ & Hvb) Pw. apply Hbody; try assumption.
    now rewrite Hvl. }
  destruct (mapR_ok _ P _ Fz) as (bs & E & Hlen & HQ).
  exists bs. split; [exact E|]. split; [lia | exact HQ].
Qed.

Lemma RandomMutation_call_shape (self : RandomMutation) (N A L : nat) (k : Z)
    (x : batch) :
  (0 < N)%nat -> (0 < A)%nat ->
  num_mutations (mutate_frac self) L = Ok k -> 0 < k <= Z.of_nat L ->
  has_shape N A L x ->
  returns (RandomMutation_call self x) (has_shape N A L).
Proof.
  intros HN HA Hk Hkr [Hx Fx].
  apply (RandomMutation_call_gen self N A L k (shape2 A L)); try assumption.
  - auto.
  - intros m inds vals Hm Hi Hv. apply index_put_last_shape; try assumption.
    now apply Encoded_shape2.
Qed.

Lemma RandomMutation_call_onehot (self : RandomMutation) (N A L : nat) (k : Z)
    (x : batch) :
  (0 < N)%nat -> (0 < A)%nat ->
  num_mutations (mutate_frac self) L = Ok k -> 0 < k <= Z.of_nat L ->
  OneHot3 N A L x ->
  returns (RandomMutation_call self x) (OneHot3 N A L).
Proof.
  intros HN HA Hk Hkr [Hx Fx]. apply returns_OneHot3.
  apply (RandomMutation_call_gen self N A L k (Encoded A L)); try assumption.
  - apply Encoded_shape2.
  - apply index_put_last_encoded.
  - now apply Forall_OneHot2_Encoded.
Qed.

(** ** RandomRC: the call *)

Lemma mask_put_select {X} (f : X -> X) (P : X -> Prop) (mask : list bool)
    (x : list X) :
  (forall u, P u -> P (f u)) -> Forall P x ->
  Forall P (mask_put mask x (map f (mask_select mask x))) /\
  length (mask_put mask x (map f (mask_select mask x))) = length x.
Proof.
  intros Hf F. revert mask.
  induction F as [|u x Pu F IH]; intros [|[|] mask]; simpl;
    try (split; [constructor; auto | reflexivity]).
  - destruct (IH mask) as [F' E]. split; [constructor; auto | now rewrite E].
  - destruct (IH mask) as [F' E]. split; [constructor; auto | now rewrite E].
Qed.

Lemma RandomRC_call_gen (self : RandomRC) (P : matrix -> Prop) (x : batch) :
  (forall m, P m -> P (flip01 m)) -> Forall P x ->
  returns (RandomRC_call self x) (fun y => length y = length x /\ Forall P y).
Proof.
  intros Hf Fx. unfold RandomRC_call, RandomRC_draws.
  eapply returns_bind.
  { eapply returns_bind; [apply torch_rand_returns|].
    intros u _. apply returns_ret with (P := fun _ => True). exact I. }
  cbv beta. intros ind_rc _. apply returns_ret. unfold flip12.
  destruct (mask_put_select flip01 P ind_rc x Hf Fx) as [F E]. now split.
Qed.

Lemma RandomRC_call_shape (self : RandomRC) (N A L : nat) (x : batch) :
  has_shape N A L x -> returns (RandomRC_call self x) (has_shape N A L).
Proof.
  intros [Hx Fx]. eapply returns_weaken.
  - apply (RandomRC_call_gen self (shape2 A L)); [apply shape2_flip01 | exact Fx].
  - intros y [Hl Hf]. split; [lia | exact Hf].
Qed.

Lemma RandomRC_call_onehot (self : RandomRC) (N A L : nat) (x : batch) :
  OneHot3 N A L x -> returns (RandomRC_call self x) (OneHot3 N A L).
Proof.
  intros [Hx Fx]. apply returns_OneHot3. eapply returns_weaken.
  - apply (RandomRC_call_gen self (Encoded A L)); [apply Encoded_flip01|].
    now apply Forall_OneHot2_Encoded.
  - intros y [Hl Hf]. split; [lia | exact Hf].
Qed.

Lemma rand_one_below_1 :
  returns rand_one (fun u => Qlt_bool u 1 = true).
Proof.
  intros g. eexists _, _. split; [reflexivity|]. cbv beta.
  pose proof (Z.mod_pos_bound (ints g 0%nat) 16777216 ltac:(lia)) as H.
  unfold Qlt_bool, Qle_bool. simpl Qnum. simpl Qden.
  apply negb_true_iff, Z.leb_gt. lia.
Qed.

(** With [rc_prob = 1] every example is selected. *)
Lemma RandomRC_draws_forced (N : nat) :
  returns (RandomRC_draws {| rc_prob := 1 |} N) (fun mask => mask = repeat true N).
Proof.
  unfold RandomRC_draws, torch_rand.
  eapply returns_bind.
  { apply returns_replicateM, rand_one_below_1. }
  cbv beta. intros u [Hl Hf]. apply returns_ret. subst N. simpl rc_prob.
  induction Hf as [|v u Hv Hf IH]; simpl; [reflexivity|].
  now rewrite Hv, IH.
Qed.

Lemma mask_all_true {X} (f : X -> X) (x : list X) :
  mask_put (repeat true (length x)) x
           (map f (mask_select (repeat true (length x)) x)) = map f x.
Proof. induction x as [|u x IH]; simpl; [reflexivity | now rewrite IH]. Qed.

Lemma RandomRC_call_forced (x : batch) :
  returns (RandomRC_call {| rc_prob := 1 |} x) (fun y => y = flip12 x).
Proof.
  unfold RandomRC_call.
  eapply returns_bind; [apply RandomRC_draws_forced|].
  cbv beta. intros mask ->. apply returns_ret. apply mask_all_true.
Qed.

Lemma flip01_involutive (m : matrix) : flip01 (flip01 m) = m.
Proof.
  unfold flip01. rewrite map_rev, rev_involutive, map_map.
  rewrite <- (map_id m) at 2. apply map_ext. intros r. apply rev_involutive.
Qed.

Lemma flip12_involutive (x : batch) : flip12 (flip12 x) = x.
Proof.
  unfold flip12. rewrite map_map. rewrite <- (map_id x) at 2.
  apply map_ext. intros m. apply flip01_involutive.
Qed.

(** ** RandomNoise: the call *)

Lemma map2_Forall {X Y W} (f : X -> Y -> W) (P1 : X -> Prop) (P2 : Y -> Prop)
    (R : W -> Prop) (a : list X) (b : list Y) :
  length a = length b -> Forall P1 a -> Forall P2 b ->
  (forall u v, P1 u -> P2 v -> R (f u v)) ->
  Forall R (map2 f a b) /\ length (map2 f a b) = length a.
Proof.
  intros Hl F1. revert b Hl.
  induction F1 as [|u a Pu F1 IH]; intros b Hl F2 HR.
  - split; [constructor | reflexivity].
  - destruct F2 as [|v b Pv F2]; [discriminate|]. simpl in Hl.
    destruct (IH b) as [F E]; [lia | assumption | assumption |].
    simpl. split; [constructor; auto | now rewrite E].
Qed.

Lemma tensor_add_shape (N A L : nat) (x y : batch) :
  has_shape N A L x -> has_shape N A L y -> has_shape N A L (tensor_add x y).
Proof.
  intros [Hx Fx] [Hy Fy]. unfold tensor_add.
  destruct (map2_Forall (map2 (map2 Qplus)) (shape2 A L) (shape2 A L)
              (shape2 A L) x y) as [F E]; try assumption; [lia| |].
  - intros m1 m2 [H1 F1] [H2 F2].
    destruct (map2_Forall (map2 Qplus) (fun r => length r = L)
                (fun r => length r = L) (fun r => length r = L) m1 m2)
      as [F' E']; try assumption; [lia| |].
    + intros r1 r2 Hr1 Hr2.
      destruct (map2_Forall Qplus (fun _ => True) (fun _ => True)
                  (fun _ => True) r1 r2) as [_ E''];
        try (apply Forall_forall; auto); [lia | auto | lia].
    + split; [lia | exact F'].
  - split; [lia | exact F].
Qed.

Lemma shape2_empty (L L' : nat) (m : matrix) : shape2 0 L m -> shape2 0 L' m.
Proof.
  intros [H _]. destruct m; [|discriminate]. split; [reflexivity | constructor].
Qed.

(** What [x.shape] reads from a nested list is a shape of [x], and any
    batch of that shape has every shape [x] has. *)
Lemma shape3_reading (N A L : nat) (x : batch) :
  has_shape N A L x ->
  exists A' L', shape3 x = (N, A', L') /\ has_shape N A' L' x /\
                forall y, has_shape N A' L' y -> has_shape N A L y.
Proof.
  intros [HN F]. unfold shape3. rewrite HN.
  destruct F as [|m x [HA HL] F].
  - exists 0%nat, 0%nat. simpl in HN. subst N. split; [reflexivity|].
    split; [split; [reflexivity | constructor]|].
    intros y [Hy _]. destruct y; [|discriminate].
    split; [reflexivity | constructor].
  - simpl hd. destruct HL as [|r m Hr HL].
    + simpl in HA. subst A. exists 0%nat, 0%nat. split; [reflexivity|].
      split.
      * split; [exact HN|]. constructor.
        -- split; [reflexivity | constructor].
        -- eapply Forall_impl; [|exact F]. intros m'. apply shape2_empty.
      * intros y [Hy Fy]. split; [exact Hy|].
        eapply Forall_impl; [|exact Fy]. intros m'. apply shape2_empty.
    + simpl hd. exists A, L. rewrite HA, Hr. split; [reflexivity|].
      split; [|auto]. split; [exact HN|]. constructor; [|exact F].
      split; [exact HA | now constructor].
Qed.

Lemma torch_normal_returns (mean std : Q) (N A L : nat) :
  Qlt_bool std 0 = false ->
  returns (torch_normal mean std (N, A, L)) (has_shape N A L).
Proof.
  intros Hstd. unfold torch_normal. rewrite Hstd.
  eapply returns_weaken.
  - apply returns_replicateM, returns_replicateM, returns_replicateM.
    intros g. eexists _, _. split; [reflexivity|].
    exact (I : (fun _ : Q => True) _).
  - cbv beta. intros y [Hy Fy]. split; [exact Hy|].
    eapply Forall_impl; [|exact Fy]. cbv beta. intros m [Hm Fm].
    split; [exact Hm|]. eapply Forall_impl; [|exact Fm]. cbv beta.
    now intros r [Hr _].
Qed.

Lemma RandomNoise_call_shape (self : RandomNoise) (N A L : nat) (x : batch) :
  Qlt_bool (noise_std self) 0 = false -> has_shape N A L x ->
  returns (RandomNoise_call self x) (has_shape N A L).
Proof.
  intros Hstd Hx. unfold RandomNoise_call.
  destruct (shape3_reading N A L x Hx) as (A' & L' & -> & Hx' & Hback).
  eapply returns_bind; [now apply torch_normal_returns|].
  cbv beta. intros noise Hn. apply returns_ret.
  apply Hback. now apply tensor_add_shape.
Qed.

Lemma replicateM_head {X} (m : M X) (P : X -> Prop) (n : nat) (g g1 : rng)
    (v : X) :
  returns m P -> m g = Ok (v, g1) ->
  exists l g2, replicateM (S n) m g = Ok (v :: l, g2).
Proof.
  intros Hm E.
  destruct (returns_replicateM m P n Hm g1) as (l & g2 & El & _).
  exists l, g2. simpl. unfold bind at 1. rewrite E.
  unfold bind at 1. rewrite El. reflexivity.
Qed.

(** The first entry of the output is the first entry of the input plus
    the first noise value. *)
Lemma RandomNoise_call_entry000 (self : RandomNoise) (N A L : nat) (x y : batch)
    (g g' : rng) :
  (0 < N)%nat -> (0 < A)%nat -> (0 < L)%nat -> has_shape N A L x ->
  RandomNoise_call self x g = Ok (y, g') ->
  entry000 y = (entry000 x + first_noise self g)%Q.
Proof.
  intros HN HA HL Hx E. unfold RandomNoise_call in E.
  rewrite (shape3_has_shape N A L x Hx HN HA) in E.
  unfold torch_normal in E.
  destruct (Qlt_bool (noise_std self) 0).
  { unfold bind, raise in E. discriminate. }
  destruct N as [|N]; [lia|]. destruct A as [|A]; [lia|].
  destruct L as [|L]; [lia|].
  set (one_draw := normal_one (noise_mean self) (noise_std self)) in E.
  assert (T1 : returns one_draw (fun _ => True)).
  { intros g0. eexists _, _. split; [reflexivity | exact I]. }
  destruct (replicateM_head one_draw (fun _ => True) L g _ _ T1 eq_refl)
    as (r & g2 & E2).
  pose proof (returns_replicateM one_draw _ (S L) T1) as T2.
  destruct (replicateM_head _ _ A g g2 _ T2 E2) as (m & g3 & E3).
  pose proof (returns_replicateM _ _ (S A) T2) as T3.
  destruct (replicateM_head _ _ N g g3 _ T3 E3) as (b & g4 & E4).
  unfold bind in E at 1. rewrite E4 in E. unfold ret in E.
  injection E as <- _.
  destruct Hx as [Hlen Fx].
  destruct Fx as [|m0 x0 [Hm Fm] _]; [discriminate|].
  destruct Fm as [|r0 m0' Hr _]; [discriminate|].
  destruct r0 as [|e0 r0]; [discriminate|]. reflexivity.
Qed.

Lemma OneHot3_entry000 (N A L : nat) (y : batch) :
  (0 < N)%nat -> (0 < A)%nat -> (0 < L)%nat -> OneHot3 N A L y ->
  entry000 y = zero \/ entry000 y = one.
Proof.
  intros HN HA HL [Hy Fy]. destruct Fy as [|m y [[Hm Fm] Hc] _];
    [simpl in Hy; lia|].
  destruct (Hc 0%nat HL) as (a & Ha & Hab).
  assert (Hcl : length (column 0 m) = A)
    by (unfold column; now rewrite length_map).
  rewrite Hcl in Ha, Hab. specialize (Hab 0%nat HA).
  unfold column in Hab. rewrite nth_map_default with (d' := []) in Hab by lia.
  unfold entry000. simpl nth at 3. rewrite Hab.
  destruct (0 =? a)%nat; [now right | now left].
Qed.

(** ** Partial correctness and raising *)

Lemma ensures_ret {X} (v : X) (P : X -> Prop) : P v -> ensures (ret v) P.
Proof. intros H g w g' E. injection E as <- _. exact H. Qed.

Lemma ensures_bind {X Y} (m : M X) (k : X -> M Y) (P : X -> Prop)
    (Q : Y -> Prop) :
  ensures m P -> (forall v, P v -> ensures (k v) Q) -> ensures (bind m k) Q.
Proof.
  intros Hm Hk g w g' E. unfold bind in E.
  destruct (m g) as [[v g1]|e] eqn:Em; [|discriminate].
  exact (Hk v (Hm g v g1 Em) g1 w g' E).
Qed.

Lemma ensures_any {X} (m : M X) : ensures m (fun _ => True).
Proof. intros g v g' _. exact I. Qed.

Lemma torch_randint_ensures (low high : Z) (size : nat) :
  ensures (torch_randint low high size)
          (fun l => length l = size /\ Forall (fun v => low <= v < high) l).
Proof.
  destruct (Z.lt_ge_cases low high) as [H|H].
  - now apply returns_ensures, torch_randint_returns.
  - intros g v g' E. destruct (torch_randint_raises low high size H g) as (e & E').
    rewrite E in E'. discriminate.
Qed.

Lemma raises_replicateM {X} (m : M X) (n : nat) :
  raises m -> raises (replicateM (S n) m).
Proof. intros H. simpl. now apply raises_bind_l. Qed.

Lemma replicateM_fixed {X} (m : M X) (n : nat) (g : rng) (v : X) :
  m g = Ok (v, g) -> replicateM n m g = Ok (repeat v n, g).
Proof.
  intros E. induction n as [|n IH]; [reflexivity|].
  simpl. unfold bind at 1. rewrite E. unfold bind at 1. rewrite IH.
  reflexivity.
Qed.

(** On a constant generator every draw of [torch.randint] is the same. *)
Lemma torch_randint_const (low high c : Z) (size : nat) :
  low < high ->
  torch_randint low high size (const_rng c)
  = Ok (repeat (low + c mod (high - low)) size, const_rng c).
Proof.
  intros H. unfold torch_randint. destruct (Z.ltb_spec low high); [|lia].
  now apply replicateM_fixed.
Qed.

Lemma random_dna_const (A : nat) (n c : Z) :
  0 < n -> (0 < A)%nat ->
  exists pad, random_dna A n (const_rng c) = Ok (pad, const_rng c) /\
              Encoded A (Z.to_nat n) pad.
Proof.
  intros Hn HA. unfold random_dna, multinomial.
  destruct (Z.leb_spec n 0); [lia|]. rewrite repeat_length.
  destruct (Nat.eqb_spec A 0); [lia|].
  eexists. split.
  - unfold bind at 1. erewrite replicateM_fixed by reflexivity. reflexivity.
  - eexists. split; [|split; [|apply transpose_index_rows_eye]].
    + apply repeat_length.
    + apply Forall_forall. intros i Hi. apply repeat_spec in Hi. subst i.
      cbn [ints const_rng].
      pose proof (Z.mod_pos_bound c (Z.of_nat A)). lia.
    + apply Forall_forall. intros i Hi. apply repeat_spec in Hi. subst i.
      cbn [ints const_rng].
      pose proof (Z.mod_pos_bound c (Z.of_nat A)). lia.
Qed.

Lemma example_batch_onehot : OneHot3 2 4 6 example_batch.
Proof.
  split; [reflexivity|]. unfold example_batch.
  apply Forall_cons; [|apply Forall_cons; [|apply Forall_nil]];
    apply Encoded_OneHot2; eexists;
    (split; [|split; [|reflexivity]]); try reflexivity;
    repeat (apply Forall_cons; [lia|]); apply Forall_nil.
Qed.

Lemma OneHot3_has_shape (N A L : nat) (x : batch) :
  OneHot3 N A L x -> has_shape N A L x.
Proof.
  intros [H F]. split; [exact H|]. eapply Forall_impl; [|exact F].
  now intros m [S _].
Qed.

Lemma example_batch_shape : has_shape 2 4 6 example_batch.
Proof. apply OneHot3_has_shape, example_batch_onehot. Qed.

(** ** Sample runs

    The calls evaluated on [example_batch], whose two examples encode
    0 1 2 3 0 1 and 3 3 2 2 1 0, from [example_rng]. *)

Example RandomDeletion_run :
  run (RandomDeletion_draws {| delete_min := 0; delete_max := 3 |} 2 4 6)
      example_rng
  = Ok ([encode 4 [3; 2; 1]%nat; encode 4 [0; 3; 2]%nat], [1; 0], [3; 2]) /\
  run (RandomDeletion_call {| delete_min := 0; delete_max := 3 |}
         example_batch) example_rng
  = Ok [ encode 4 ([] ++ [0; 1; 2] ++ [0; 1] ++ [1])%nat;
         encode 4 ([] ++ [3; 3] ++ [2; 2; 1; 0] ++ [])%nat ].
Proof. split; vm_compute; reflexivity. Qed.

Example RandomInsertion_run :
  run (RandomInsertion_draws {| insert_min := 0; insert_max := 3 |} 2 4 6)
      example_rng
  = Ok ([encode 4 [3; 2; 1]%nat; encode 4 [0; 3; 2]%nat], [1; 0], [5; 0]) /\
  run (RandomInsertion_call {| insert_min := 0; insert_max := 3 |}
         example_batch) example_rng
  = Ok [ encode 4 ([3] ++ [0; 1; 2; 3; 0] ++ [2] ++ [1] ++ [1])%nat;
         encode 4 ([0] ++ [] ++ [] ++ [3; 3; 2; 2; 1; 0] ++ [3; 2])%nat ].
Proof. split; vm_compute; reflexivity. Qed.

Example RandomTranslocation_run :
  run (RandomTranslocation_draws {| shift_min := 0; shift_max := 3 |} 2)
      example_rng = Ok [-3; -2] /\
  run (RandomTranslocation_call {| shift_min := 0; shift_max := 3 |}
         example_batch) example_rng
  = Ok [ encode 4 [3; 0; 1; 0; 1; 2]%nat; encode 4 [2; 2; 1; 0; 3; 3]%nat ].
Proof. split; vm_compute; reflexivity. Qed.

Example RandomInversion_run :
  run (RandomInversion_draws {| invert_min := 0; invert_max := 3 |} 2 6)
      example_rng = Ok ([3; 2], [1; 0]) /\
  run (RandomInversion_call {| invert_min := 0; invert_max := 3 |}
         example_batch) example_rng
  = Ok [ encode 4 ([0] ++ [0; 1; 2] ++ [0; 1])%nat;
         encode 4 ([] ++ [0; 0] ++ [2; 2; 1; 0])%nat ].
Proof. split; vm_compute; reflexivity. Qed.

Example RandomMutation_run :
  run (RandomMutation_draws {| mutate_frac := 0.5 |} 2 6) example_rng
  = Ok (4, [[0; 1; 2; 3]%nat; [0; 1; 2; 3]%nat]) /\
  run (RandomMutation_call {| mutate_frac := 0.5 |} example_batch) example_rng
  = Ok [ encode 4 [3; 2; 1; 0; 0; 1]%nat; encode 4 [3; 2; 1; 0; 1; 0]%nat ].
Proof. split; vm_compute; reflexivity. Qed.

Example RandomRC_run :
  run (RandomRC_call {| rc_prob := 1 |} example_batch) example_rng
  = Ok [ encode 4 [2; 3; 0; 1; 2; 3]%nat; encode 4 [3; 2; 1; 1; 0; 0]%nat ] /\
  run (RandomRC_call {| rc_prob := 0 |} example_batch) example_rng
  = Ok example_batch.
Proof. split; vm_compute; reflexivity. Qed.

Example RandomNoise_run :
  run (RandomNoise_call {| noise_mean := 0; noise_std := 1 # 5 |}
         [[[1; 0]; [0; 1]]]%Q) example_rng
  = Ok [[[1 + (0 + (1 # 5) * (1 # 2)); 0 + (0 + (1 # 5) * (1 # 2))];
         [0 + (0 + (1 # 5) * (1 # 2)); 1 + (0 + (1 # 5) * (1 # 2))]]]%Q.
Proof. reflexivity. Qed.

Example py_round_ties_to_even :
  py_round 0.5 = Ok 0 /\ py_round 1.5 = Ok 2 /\ py_round 2.5 = Ok 2 /\
  py_round (-2.5) = Ok (-2) /\ py_round 26.666666666666668 = Ok 27.
Proof. repeat split; vm_compute; reflexivity. Qed.

Example argsort_run :
  argsort [3 # 4; 1 # 4; 1 # 2; 1 # 4]%Q = [1; 3; 2; 0]%nat.
Proof. reflexivity. Qed.

Example roll_row_run :
  roll_row 1 [1; 2; 3; 4; 5] = [5; 1; 2; 3; 4] /\
  roll_row (-1) [1; 2; 3; 4; 5] = [2; 3; 4; 5; 1].
Proof. split; reflexivity. Qed.

Example py_slice_run :
  py_slice (Some 1) (Some 3) [10; 20; 30; 40] = [20; 30] /\
  py_slice (Some (-1)) None [10; 20; 30; 40] = [40] /\
  py_slice None (Some (-3)) [10; 20; 30; 40] = [10] /\
  py_slice (Some 3) (Some 1) [10; 20; 30; 40] = [] /\
  py_slice (Some 2) (Some 9) [10; 20; 30; 40] = [30; 40].
Proof. repeat split; reflexivity. Qed.

(** * The claims *)

(** ** Shapes *)

Lemma has_shape_length_unique (N A L L' : nat) (y : batch) :
  (0 < N)%nat -> (0 < A)%nat ->
  has_shape N A L y -> has_shape N A L' y -> L = L'.
Proof.
  intros HN HA H H'.
  pose proof (shape3_has_shape N A L y H HN HA) as E.
  rewrite (shape3_has_shape N A L' y H' HN HA) in E. congruence.
Qed.

(** C1, as stated, fails: on a batch of shape (2, 4, 6),
    [RandomInsertion] with [insert_max = 3] returns a batch of shape
    (2, 4, 9), which is not the shape of its input. *)
Lemma shape_invariance_counterexample :
  has_shape 2 4 6 example_batch /\
  exists y,
    run (RandomInsertion_call {| insert_min := 0; insert_max := 3 |}
           example_batch) example_rng = Ok y /\
    y = [ encode 4 [3; 0; 1; 2; 3; 0; 2; 1; 1]%nat;
          encode 4 [0; 3; 3; 2; 2; 1; 0; 3; 2]%nat ] /\
    has_shape 2 4 9 y /\ ~ has_shape 2 4 6 y.
Proof.
  split; [exact example_batch_shape|].
  eexists. split; [vm_compute; reflexivity|]. split; [reflexivity|].
  assert (S : has_shape 2 4 9
                [ encode 4 [3; 0; 1; 2; 3; 0; 2; 1; 1]%nat;
                  encode 4 [0; 3; 3; 2; 2; 1; 0; 3; 2]%nat ]).
  { split; [reflexivity|].
    repeat (apply Forall_cons; [apply (encode_shape 4)|]). apply Forall_nil. }
  split; [exact S|]. intros S'.
  assert (H : 9%nat = 6%nat)
    by (apply (has_shape_length_unique 2 4 9 6 _ ltac:(lia) ltac:(lia) S S')).
  discriminate.
Qed.

(** C1 (amended): Deletion, Translocation, Inversion, Mutation,
    Reverse-Complement and Noise return, on every input batch of shape
    (N, A, L) valid for their bounds, a batch of the same shape (N, A, L);
    Insertion returns a batch of shape (N, A, L + insert_max). *)
Theorem shape_invariance (N A L : nat) (x : batch) :
  has_shape N A L x ->
  (forall self : RandomDeletion,
      (0 < N)%nat -> (0 < A)%nat ->
      0 <= delete_min self <= delete_max self -> 0 < delete_max self ->
      delete_max self <= Z.of_nat L ->
      returns (RandomDeletion_call self x) (has_shape N A L)) /\
  (forall self : RandomInsertion,
      (0 < N)%nat -> (0 < A)%nat -> (0 < L)%nat ->
      0 <= insert_min self <= insert_max self -> 0 < insert_max self ->
      returns (RandomInsertion_call self x)
              (has_shape N A (L + Z.to_nat (insert_max self)))) /\
  (forall self : RandomTranslocation,
      (0 < N)%nat -> shift_min self <= shift_max self ->
      returns (RandomTranslocation_call self x) (has_shape N A L)) /\
  (forall self : RandomInversion,
      (0 < N)%nat -> (0 < A)%nat ->
      0 <= invert_min self <= invert_max self ->
      invert_max self <= Z.of_nat L ->
      returns (RandomInversion_call self x) (has_shape N A L)) /\
  (forall (self : RandomMutation) (k : Z),
      (0 < N)%nat -> (0 < A)%nat ->
      num_mutations (mutate_frac self) L = Ok k -> 0 < k <= Z.of_nat L ->
      returns (RandomMutation_call self x) (has_shape N A L)) /\
  (forall self : RandomRC,
      returns (RandomRC_call self x) (has_shape N A L)) /\
  (forall self : RandomNoise,
      Qlt_bool (noise_std self) 0 = false ->
      returns (RandomNoise_call self x) (has_shape N A L)).
Proof.
  intros Hx. repeat split.
  - intros self HN HA Hmm Hpos HL. now apply RandomDeletion_call_shape.
  - intros self HN HA HL Hmm Hpos. now apply RandomInsertion_call_shape.
  - intros self HN Hmm. now apply RandomTranslocation_call_shape.
  - intros self HN HA Hmm HL. now apply RandomInversion_call_shape.
  - intros self k HN HA Hk Hkr. now apply RandomMutation_call_shape with (k := k).
  - intros self. now apply RandomRC_call_shape.
  - intros self Hstd. now apply RandomNoise_call_shape.
Qed.

Lemma shape_invariance_witness :
  has_shape 2 4 6 example_batch /\
  returns (RandomDeletion_call {| delete_min := 0; delete_max := 3 |}
             example_batch) (has_shape 2 4 6) /\
  returns (RandomInsertion_call {| insert_min := 0; insert_max := 3 |}
             example_batch) (has_shape 2 4 9) /\
  returns (RandomTranslocation_call {| shift_min := 0; shift_max := 3 |}
             example_batch) (has_shape 2 4 6) /\
  returns (RandomInversion_call {| invert_min := 0; invert_max := 3 |}
             example_batch) (has_shape 2 4 6) /\
  returns (RandomMutation_call {| mutate_frac := 0.5 |} example_batch)
          (has_shape 2 4 6) /\
  returns (RandomRC_call {| rc_prob := 1 # 2 |} example_batch)
          (has_shape 2 4 6) /\
  returns (RandomNoise_call {| noise_mean := 0; noise_std := 1 # 5 |}
             example_batch) (has_shape 2 4 6).
Proof.
  pose proof (shape_invariance 2 4 6 example_batch example_batch_shape)
    as (Hd & Hi & Ht & Hv & Hm & Hr & Hn).
  split; [exact example_batch_shape|].
  split; [apply Hd; simpl; lia|].
  split; [apply (Hi {| insert_min := 0; insert_max := 3 |}); simpl; lia|].
  split; [apply Ht; simpl; lia|].
  split; [apply Hv; simpl; lia|].
  split; [apply (Hm _ 4); [lia | lia | vm_compute; reflexivity | lia]|].
  split; [apply Hr | apply Hn; reflexivity].
Defined.

(** C2: on every batch of shape (N, A, L) and for every insert_max the
    generator of random DNA accepts, [RandomInsertion.__call__] returns a
    batch of shape (N, A, L + insert_max): the stacked examples all have
    the same length, whatever their realized insertion lengths. *)
Theorem RandomInsertion_output_shape (self : RandomInsertion) (N A L : nat)
    (x : batch) :
  (0 < N)%nat -> (0 < A)%nat -> (0 < L)%nat ->
  0 <= insert_min self <= insert_max self -> 0 < insert_max self ->
  has_shape N A L x ->
  returns (RandomInsertion_call self x)
          (has_shape N A (L + Z.to_nat (insert_max self))) /\
  forall seq insertion insert_len insert_ind,
    shape2 A L seq -> shape2 A (Z.to_nat (insert_max self)) insertion ->
    0 <= insert_len <= insert_max self -> 0 <= insert_ind < Z.of_nat L ->
    exists m, cat_last (RandomInsertion_pieces self seq insertion
                          insert_len insert_ind) = Ok m /\
              shape2 A (L + Z.to_nat (insert_max self)) m.
Proof.
  intros HN HA HL Hmm Hpos Hx. split.
  - now apply RandomInsertion_call_shape.
  - intros seq insertion il ii Hs Hp Hl Hi.
    apply RandomInsertion_pieces_shape; try assumption. lia.
Qed.

Lemma RandomInsertion_output_shape_witness :
  returns (RandomInsertion_call {| insert_min := 0; insert_max := 3 |}
             example_batch) (has_shape 2 4 9).
Proof.
  apply (RandomInsertion_output_shape {| insert_min := 0; insert_max := 3 |}
           2 4 6 example_batch); try (simpl; lia).
  exact example_batch_shape.
Defined.

(** ** Sampled positions and lengths *)

(** C3, as stated, fails: for sequences of length 6 no state of the
    generator makes [RandomInsertion] draw the insertion index 6. *)
Lemma insertion_index_counterexample :
  ~ exists g d g',
      RandomInsertion_draws {| insert_min := 0; insert_max := 3 |} 2 4 6 g
      = Ok (d, g') /\ In 6 (snd d).
Proof.
  intros (g & [[insertions insert_lens] insert_inds] & g' & E & Hin).
  pose proof (returns_ensures _ _
                (RandomInsertion_draws_returns
                   {| insert_min := 0; insert_max := 3 |} 2 4 6
                   ltac:(lia) ltac:(lia) ltac:(lia)
                   ltac:(simpl; lia) ltac:(simpl; lia)) g _ g' E) as H.
  destruct H as (_ & _ & _ & _ & _ & Hf).
  rewrite Forall_forall in Hf. specialize (Hf 6 Hin). simpl in Hf. lia.
Qed.

Lemma RandomInsertion_draws_const (self : RandomInsertion) (N A L : nat)
    (c : Z) :
  (0 < N)%nat -> (0 < A)%nat -> (0 < L)%nat ->
  insert_min self <= insert_max self -> 0 < insert_max self ->
  exists insertions,
    RandomInsertion_draws self N A L (const_rng c)
    = Ok ((insertions,
           repeat (insert_min self
                   + c mod (insert_max self + 1 - insert_min self)) N,
           repeat (0 + c mod (Z.of_nat L - 0)) N), const_rng c).
Proof.
  intros HN HA HL Hmm Hpos.
  destruct (random_dna_const A (insert_max self) c Hpos HA) as (pad & Ep & Hp).
  exists (repeat pad N). unfold RandomInsertion_draws.
  unfold bind at 1. rewrite (replicateM_fixed _ N _ pad Ep).
  unfold bind at 1. rewrite (stack_shape A (Z.to_nat (insert_max self))).
  - simpl lift. unfold bind at 1.
    rewrite torch_randint_const by lia.
    unfold bind at 1. rewrite torch_randint_const by lia. reflexivity.
  - apply length_pos_nonempty with (n := N); [apply repeat_length | exact HN].
  - apply Forall_forall. intros m Hm. apply repeat_spec in Hm. subst m.
    now apply Encoded_shape2.
Qed.

(** C3 (amended): the per-example insertion index is drawn from the range
    [0, L - 1]: index L is never drawn, and every index of [0, L - 1],
    both ends included, is drawn for some state of the generator. *)
Theorem RandomInsertion_index_range (self : RandomInsertion) (N A L : nat) :
  (0 < N)%nat -> (0 < A)%nat -> (0 < L)%nat ->
  insert_min self <= insert_max self -> 0 < insert_max self ->
  returns (RandomInsertion_draws self N A L)
          (fun d => length (snd d) = N /\
                    Forall (fun v => 0 <= v <= Z.of_nat L - 1) (snd d)) /\
  forall i, 0 <= i <= Z.of_nat L - 1 ->
    exists d g', RandomInsertion_draws self N A L (const_rng i) = Ok (d, g') /\
                 snd d = repeat i N.
Proof.
  intros HN HA HL Hmm Hpos. split.
  - eapply returns_weaken.
    + now apply RandomInsertion_draws_returns.
    + intros [[insertions insert_lens] insert_inds] (_ & _ & _ & _ & Hl & Hf).
      split; [exact Hl|]. eapply Forall_impl; [|exact Hf].
      cbv beta. intros v. lia.
  - intros i Hi.
    destruct (RandomInsertion_draws_const self N A L i HN HA HL Hmm Hpos)
      as (insertions & E).
    eexists _, _. split; [exact E|]. simpl snd.
    rewrite Z.sub_0_r, Z.mod_small by lia. reflexivity.
Qed.

Lemma RandomInsertion_index_range_witness :
  returns (RandomInsertion_draws {| insert_min := 0; insert_max := 3 |} 2 4 6)
          (fun d => length (snd d) = 2%nat /\
                    Forall (fun v => 0 <= v <= 5) (snd d)) /\
  exists d g',
    RandomInsertion_draws {| insert_min := 0; insert_max := 3 |} 2 4 6
                          (const_rng 5) = Ok (d, g') /\
    snd d = [5; 5].
Proof.
  destruct (RandomInsertion_index_range
              {| insert_min := 0; insert_max := 3 |} 2 4 6)
    as [Hr Hc]; try (simpl; lia).
  split; [exact Hr | apply (Hc 5); simpl; lia].
Defined.

Lemma sampled_in_bounds_intro (L vmin vmax : Z) (lens inds : list Z) :
  Forall (fun v => vmin <= v < vmax + 1) lens ->
  Forall (fun v => 0 <= v < L - vmax + 1) inds ->
  sampled_in_bounds L vmin vmax lens inds.
Proof.
  intros Fl Fi len ind Hl Hi. rewrite Forall_forall in Fl, Fi.
  specialize (Fl len Hl). specialize (Fi ind Hi). cbv beta in Fl, Fi.
  split; [lia|]. split; [lia|]. split.
  - intros i Hr. lia.
  - intros Hlen. split; apply clamp_index_id; lia.
Qed.

Lemma RandomDeletion_draws_in_bounds (self : RandomDeletion) (N A L : nat) :
  ensures (RandomDeletion_draws self N A L)
          (fun d => sampled_in_bounds (Z.of_nat L) (delete_min self)
                      (delete_max self) (snd (fst d)) (snd d)).
Proof.
  unfold RandomDeletion_draws.
  eapply ensures_bind; [apply ensures_any|]. intros padding_list _.
  eapply ensures_bind; [apply ensures_any|]. intros padding _.
  eapply ensures_bind; [apply torch_randint_ensures|].
  cbv beta. intros delete_lens [_ Fl].
  eapply ensures_bind; [apply torch_randint_ensures|].
  cbv beta. intros delete_inds [_ Fi].
  apply ensures_ret. simpl. now apply sampled_in_bounds_intro.
Qed.

Lemma RandomInversion_draws_in_bounds (self : RandomInversion) (N L : nat) :
  ensures (RandomInversion_draws self N L)
          (fun d => sampled_in_bounds (Z.of_nat L) (invert_min self)
                      (invert_max self) (fst d) (snd d)).
Proof.
  unfold RandomInversion_draws.
  eapply ensures_bind; [apply torch_randint_ensures|].
  cbv beta. intros inversion_lens [_ Fl].
  eapply ensures_bind; [apply torch_randint_ensures|].
  cbv beta. intros inversion_inds [_ Fi].
  apply ensures_ret. simpl. now apply sampled_in_bounds_intro.
Qed.

Lemma RandomDeletion_draws_const (self : RandomDeletion) (N A L : nat)
    (c : Z) :
  (0 < N)%nat -> (0 < A)%nat ->
  delete_min self <= delete_max self -> 0 < delete_max self ->
  delete_max self <= Z.of_nat L ->
  exists padding,
    RandomDeletion_draws self N A L (const_rng c)
    = Ok ((padding,
           repeat (delete_min self
                   + c mod (delete_max self + 1 - delete_min self)) N,
           repeat (0 + c mod (Z.of_nat L - delete_max self + 1 - 0)) N),
          const_rng c).
Proof.
  intros HN HA Hmm Hpos HL.
  destruct (random_dna_const A (delete_max self) c Hpos HA) as (pad & Ep & Hp).
  exists (repeat pad N). unfold RandomDeletion_draws.
  unfold bind at 1. rewrite (replicateM_fixed _ N _ pad Ep).
  unfold bind at 1. rewrite (stack_shape A (Z.to_nat (delete_max self))).
  - simpl lift. unfold bind at 1.
    rewrite torch_randint_const by lia.
    unfold bind at 1. rewrite torch_randint_const by lia. reflexivity.
  - apply length_pos_nonempty with (n := N); [apply repeat_length | exact HN].
  - apply Forall_forall. intros m Hm. apply repeat_spec in Hm. subst m.
    now apply Encoded_shape2.
Qed.

Lemma RandomInversion_draws_const (self : RandomInversion) (N L : nat) (c : Z) :
  invert_min self <= invert_max self -> invert_max self <= Z.of_nat L ->
  RandomInversion_draws self N L (const_rng c)
  = Ok ((repeat (invert_min self
                 + c mod (invert_max self + 1 - invert_min self)) N,
         repeat (0 + c mod (Z.of_nat L - invert_max self + 1 - 0)) N),
        const_rng c).
Proof.
  intros Hmm HL. unfold RandomInversion_draws.
  unfold bind at 1. rewrite torch_randint_const by lia.
  unfold bind at 1. rewrite torch_randint_const by lia. reflexivity.
Qed.

(** C4: under [delete_max <= L] (resp. [invert_max <= L]) every start the
    draws of RandomDeletion (resp. RandomInversion) can return lies in
    [0, L - max] and every length in [min, max], so that
    [start, start + len) lies within [0, L) and no slice bound of the loop
    is clamped; the draws succeed for every valid configuration, and every
    length of [min, max], the two extremes included, is drawn for some
    state of the generator. *)
Theorem sampled_intervals_in_bounds (N A L : nat) :
  (forall self : RandomDeletion,
      delete_max self <= Z.of_nat L ->
      ensures (RandomDeletion_draws self N A L)
              (fun d => sampled_in_bounds (Z.of_nat L) (delete_min self)
                          (delete_max self) (snd (fst d)) (snd d)) /\
      ((0 < N)%nat -> (0 < A)%nat ->
       delete_min self <= delete_max self -> 0 < delete_max self ->
       returns (RandomDeletion_draws self N A L)
               (fun d => length (snd (fst d)) = N /\ length (snd d) = N) /\
       forall len, delete_min self <= len <= delete_max self ->
         exists d g',
           RandomDeletion_draws self N A L (const_rng (len - delete_min self))
           = Ok (d, g') /\ snd (fst d) = repeat len N)) /\
  (forall self : RandomInversion,
      invert_max self <= Z.of_nat L ->
      ensures (RandomInversion_draws self N L)
              (fun d => sampled_in_bounds (Z.of_nat L) (invert_min self)
                          (invert_max self) (fst d) (snd d)) /\
      (invert_min self <= invert_max self ->
       returns (RandomInversion_draws self N L)
               (fun d => length (fst d) = N /\ length (snd d) = N) /\
       forall len, invert_min self <= len <= invert_max self ->
         exists d g',
           RandomInversion_draws self N L (const_rng (len - invert_min self))
           = Ok (d, g') /\ fst d = repeat len N)).
Proof.
  split; intros self HL; split.
  - apply RandomDeletion_draws_in_bounds.
  - intros HN HA Hmm Hpos. split.
    + eapply returns_weaken.
      * now apply RandomDeletion_draws_returns.
      * intros [[padding lens] inds] (_ & _ & Hl & _ & Hi & _). now split.
    + intros len Hlen.
      destruct (RandomDeletion_draws_const self N A L (len - delete_min self)
                  HN HA Hmm Hpos HL) as (padding & E).
      eexists _, _. split; [exact E|]. simpl.
      rewrite Z.mod_small by lia. f_equal. lia.
  - apply RandomInversion_draws_in_bounds.
  - intros Hmm. split.
    + eapply returns_weaken.
      * now apply RandomInversion_draws_returns.
      * intros [lens inds] (Hl & _ & Hi & _). now split.
    + intros len Hlen. eexists _, _. split.
      * now apply RandomInversion_draws_const.
      * simpl. rewrite Z.mod_small by lia. f_equal. lia.
Qed.

Lemma sampled_intervals_in_bounds_witness :
  (exists d g',
      RandomDeletion_draws {| delete_min := 0; delete_max := 3 |} 2 4 6
                           (const_rng 3) = Ok (d, g') /\
      snd (fst d) = [3; 3] /\
      sampled_in_bounds 6 0 3 (snd (fst d)) (snd d)) /\
  (exists d g',
      RandomInversion_draws {| invert_min := 0; invert_max := 3 |} 2 6
                            (const_rng 3) = Ok (d, g') /\
      fst d = [3; 3] /\
      sampled_in_bounds 6 0 3 (fst d) (snd d)).
Proof.
  destruct (sampled_intervals_in_bounds 2 4 6) as [Hd Hi].
  destruct (Hd {| delete_min := 0; delete_max := 3 |}) as [Ed Rd];
    [simpl; lia|].
  destruct (Hi {| invert_min := 0; invert_max := 3 |}) as [Ei Ri];
    [simpl; lia|].
  split.
  - destruct Rd as [_ Cd]; try (simpl; lia).
    destruct (Cd 3) as (d & g' & E & Hl); [simpl; lia|].
    exists d, g'. split; [exact E|]. split; [exact Hl | exact (Ed _ _ _ E)].
  - destruct Ri as [_ Ci]; try (simpl; lia).
    destruct (Ci 3) as (d & g' & E & Hl); [simpl; lia|].
    exists d, g'. split; [exact E|]. split; [exact Hl | exact (Ei _ _ _ E)].
Defined.

(** ** Mutation count *)



(** ** Reverse-complement *)

(** C6: with [rc_prob = 1] the call flips the alphabet axis and the
    length axis of every example, and a second call on its output returns
    the original batch exactly. *)
Theorem RandomRC_involution (x : batch) (g : rng) :
  exists y g1 g2,
    RandomRC_call {| rc_prob := 1 |} x g = Ok (y, g1) /\
    y = flip12 x /\
    RandomRC_call {| rc_prob := 1 |} y g1 = Ok (x, g2).
Proof.
  destruct (RandomRC_call_forced x g) as (y & g1 & E1 & Hy).
  destruct (RandomRC_call_forced y g1) as (z & g2 & E2 & Hz).
  exists y, g1, g2. split; [exact E1|]. split; [exact Hy|].
  rewrite E2, Hz, Hy, flip12_involutive. reflexivity.
Qed.

(** ** Deletion with zero bounds *)

Lemma py_slice_nil {X} (start stop : option Z) :
  py_slice start stop (@nil X) = [].
Proof. unfold py_slice. now rewrite skipn_nil, firstn_nil. Qed.

Lemma slice_last_empty_rows (start stop : option Z) (A : nat) (pad : matrix) :
  shape2 A 0 pad -> slice_last start stop pad = repeat [] A.
Proof.
  intros [HA HL]. subst A. unfold slice_last.
  induction HL as [|r pad Hr HL IH]; simpl; [reflexivity|].
  destruct r; [|discriminate]. now rewrite py_slice_nil, IH.
Qed.

Lemma zip_app_empty_l (m : matrix) : zip_app (repeat [] (length m)) m = m.
Proof. induction m as [|r m IH]; simpl; [reflexivity | now rewrite IH]. Qed.

Lemma zip_app_empty_r (m : matrix) : zip_app m (repeat [] (length m)) = m.
Proof.
  induction m as [|r m IH]; simpl; [reflexivity|].
  now rewrite IH, app_nil_r.
Qed.

Lemma zip_app_split (L : nat) (i : Z) (seq : matrix) :
  Forall (fun r => length r = L) seq -> 0 <= i <= Z.of_nat L ->
  zip_app (slice_last None (Some i) seq) (slice_last (Some i) None seq) = seq.
Proof.
  intros F Hi. induction F as [|r seq Hr F IH]; simpl; [reflexivity|].
  rewrite py_slice_to, py_slice_from by lia.
  now rewrite firstn_skipn, IH.
Qed.

(** Once a padding of width [delete_max = 0] exists, the loop body of
    RandomDeletion returns the example unchanged. *)
Lemma RandomDeletion_pieces_zero (A L : nat) (seq pad : matrix)
    (delete_ind : Z) :
  shape2 A L seq -> shape2 A 0 pad -> 0 <= delete_ind <= Z.of_nat L ->
  cat_last (RandomDeletion_pieces {| delete_min := 0; delete_max := 0 |}
              seq pad 0 delete_ind) = Ok seq.
Proof.
  intros [HA HL] Hp Hi. unfold RandomDeletion_pieces.
  rewrite !(slice_last_empty_rows _ _ A pad Hp). rewrite Z.add_0_r.
  set (E := repeat [] A).
  set (S1 := slice_last None (Some delete_ind) seq).
  set (S2 := slice_last (Some delete_ind) None seq).
  assert (HE : length E = A) by apply repeat_length.
  assert (H1 : length S1 = A) by (unfold S1, slice_last; now rewrite length_map).
  assert (H2 : length S2 = A) by (unfold S2, slice_last; now rewrite length_map).
  assert (C1 : cat2 S2 E = Ok S2).
  { unfold cat2. rewrite H2, HE, Nat.eqb_refl. f_equal.
    unfold E. rewrite <- H2. apply zip_app_empty_r. }
  assert (C2 : cat2 S1 S2 = Ok seq).
  { unfold cat2. rewrite H1, H2, Nat.eqb_refl. f_equal.
    now apply (zip_app_split L). }
  assert (C3 : cat2 E seq = Ok seq).
  { unfold cat2. rewrite HE, HA, Nat.eqb_refl. f_equal.
    unfold E. rewrite <- HA. apply zip_app_empty_l. }
  change (cat_last [E; S1; S2; E])
    with (rbind (rbind (cat2 S2 E) (cat2 S1)) (cat2 E)).
  rewrite C1. simpl rbind. rewrite C2. exact C3.
Qed.

(** C7 fails on the code: with [delete_min = delete_max = 0] the call
    raises while it generates the padding, whatever the batch and the
    generator, so that no output is produced. *)
Theorem RandomDeletion_zero_bounds_raises :
  RandomDeletion_call {| delete_min := 0; delete_max := 0 |}
                      example_batch example_rng
  = Raise (RuntimeError "cannot sample n_sample <= 0 samples") /\
  forall x : batch,
    raises (RandomDeletion_call {| delete_min := 0; delete_max := 0 |} x).
Proof.
  split; [reflexivity|].
  intros x. unfold RandomDeletion_call.
  destruct (shape3 x) as [[N A] L].
  apply raises_bind_l. unfold RandomDeletion_draws.
  destruct N as [|N].
  - apply raises_bind_r with (P := fun l => l = []).
    + now apply returns_ret.
    + intros l ->. apply raises_bind_l. simpl stack. apply raises_lift.
  - apply raises_bind_l, raises_replicateM, random_dna_raises.
    simpl. lia.
Qed.

(** ** Padding split of a deletion *)

(** C8, as stated, fails: with [delete_min = delete_max = 3] every
    deletion has length 3; the front padding then has width 1 and the back
    padding width 2, so the extra position of an odd total goes to the
    back, not to the front.  In the first example the padding drawn is
    3 2 1 and the start index 3: the output is 3 | 0 1 2 | 2 1. *)
Lemma padding_split_counterexample :
  pad_begin_index 3 = 1 /\ pad_end_index 3 = 2 /\
  ~ pad_end_index 3 <= pad_begin_index 3 /\
  run (RandomDeletion_draws {| delete_min := 3; delete_max := 3 |} 2 4 6)
      example_rng
  = Ok ([encode 4 [3; 2; 1]%nat; encode 4 [0; 3; 2]%nat], [3; 3], [3; 2]) /\
  run (RandomDeletion_call {| delete_min := 3; delete_max := 3 |}
         example_batch) example_rng
  = Ok [ encode 4 ([3] ++ [0; 1; 2] ++ [] ++ [2; 1])%nat;
         encode 4 ([0] ++ [3; 3] ++ [0] ++ [3; 2])%nat ].
Proof.
  split; [reflexivity|]. split; [reflexivity|].
  split; [vm_compute; intros H; apply H; reflexivity|].
  split; vm_compute; reflexivity.
Qed.

(** C8 (amended): the padding that restores length L, as long as the
    deleted interval, is split as evenly as possible between the front and
    the back of the sequence: the front gets floor(len / 2) positions and
    the back the rest, so an odd total gives its extra position to the
    back. *)
Theorem padding_split (self : RandomDeletion) (A L : nat) (seq pad : matrix)
    (delete_len delete_ind : Z) :
  shape2 A L seq -> shape2 A (Z.to_nat (delete_max self)) pad ->
  0 <= delete_len <= delete_max self ->
  0 <= delete_ind <= Z.of_nat L - delete_max self ->
  exists front left right back,
    RandomDeletion_pieces self seq pad delete_len delete_ind
    = [front; left; right; back] /\
    shape2 A (Z.to_nat (pad_begin_index delete_len)) front /\
    shape2 A (Z.to_nat delete_ind) left /\
    shape2 A (L - Z.to_nat (delete_ind + delete_len)) right /\
    shape2 A (Z.to_nat (pad_end_index delete_len)) back /\
    pad_begin_index delete_len + pad_end_index delete_len = delete_len /\
    pad_begin_index delete_len <= pad_end_index delete_len
                               <= pad_begin_index delete_len + 1 /\
    (Z.odd delete_len = true ->
     pad_end_index delete_len = pad_begin_index delete_len + 1).
Proof.
  intros Hs Hp Hl Hi. eexists _, _, _, _. split; [reflexivity|].
  pose proof (Zmod_odd delete_len) as Hodd.
  unfold pad_end_index, pad_begin_index in *. half_of delete_len.
  split.
  { replace (Z.to_nat q) with
      (slice_len None (Some q) (Z.to_nat (delete_max self)))
      by slice_arith.
    now apply shape2_slice_last. }
  split.
  { replace (Z.to_nat delete_ind) with (slice_len None (Some delete_ind) L)
      by slice_arith.
    now apply shape2_slice_last. }
  split.
  { replace (L - Z.to_nat (delete_ind + delete_len))%nat with
      (slice_len (Some (delete_ind + delete_len)) None L) by slice_arith.
    now apply shape2_slice_last. }
  split.
  { replace (Z.to_nat (delete_len - q)) with
      (slice_len (Some (delete_max self - (delete_len - q))) None
         (Z.to_nat (delete_max self))) by slice_arith.
    now apply shape2_slice_last. }
  split; [lia|]. split; [lia|].
  intros Ho. rewrite Ho in Hodd. lia.
Qed.

Lemma padding_split_witness :
  exists front left right back,
    RandomDeletion_pieces {| delete_min := 3; delete_max := 3 |}
      (encode 4 [0; 1; 2; 3; 0; 1]%nat) (encode 4 [1; 1; 1]%nat) 3 2
    = [front; left; right; back] /\
    shape2 4 1 front /\ shape2 4 2 left /\ shape2 4 1 right /\
    shape2 4 2 back.
Proof.
  destruct (padding_split {| delete_min := 3; delete_max := 3 |} 4 6
              (encode 4 [0; 1; 2; 3; 0; 1]%nat) (encode 4 [1; 1; 1]%nat) 3 2)
    as (front & left & right & back & E & Hf & Hle & Hr & Hb & _);
    try (simpl; lia);
    try (apply (encode_shape 4 [0; 1; 2; 3; 0; 1]%nat));
    try (apply (encode_shape 4 [1; 1; 1]%nat)).
  exists front, left, right, back.
  exact (conj E (conj Hf (conj Hle (conj Hr Hb)))).
Defined.

(** ** Validation of the bounds *)

(** C9, as stated, fails: construction accepts [min > max] and negative
    bounds without raising. *)
Lemma construction_counterexample :
  RandomDeletion_init 5 3 = Ok {| delete_min := 5; delete_max := 3 |} /\
  RandomInsertion_init (-2) (-1) = Ok {| insert_min := -2; insert_max := -1 |}.
Proof. split; reflexivity. Qed.

Lemma RandomDeletion_call_raises (self : RandomDeletion) (x : batch) :
  delete_max self < delete_min self -> raises (RandomDeletion_call self x).
Proof.
  intros H. unfold RandomDeletion_call. destruct (shape3 x) as [[N A] L].
  apply raises_bind_l. unfold RandomDeletion_draws.
  apply raises_bind_any. intros padding_list.
  apply raises_bind_any. intros padding.
  apply raises_bind_l, torch_randint_raises. lia.
Qed.

Lemma RandomInsertion_call_raises (self : RandomInsertion) (x : batch) :
  insert_max self < insert_min self -> raises (RandomInsertion_call self x).
Proof.
  intros H. unfold RandomInsertion_call. destruct (shape3 x) as [[N A] L].
  apply raises_bind_l. unfold RandomInsertion_draws.
  apply raises_bind_any. intros insertion_list.
  apply raises_bind_any. intros insertions.
  apply raises_bind_l, torch_randint_raises. lia.
Qed.

Lemma RandomTranslocation_call_raises (self : RandomTranslocation) (x : batch) :
  shift_max self < shift_min self -> raises (RandomTranslocation_call self x).
Proof.
  intros H. unfold RandomTranslocation_call, RandomTranslocation_draws.
  apply raises_bind_l, raises_bind_l, torch_randint_raises. lia.
Qed.

Lemma RandomInversion_call_raises (self : RandomInversion) (x : batch) :
  invert_max self < invert_min self -> raises (RandomInversion_call self x).
Proof.
  intros H. unfold RandomInversion_call. destruct (shape3 x) as [[N A] L].
  apply raises_bind_l. unfold RandomInversion_draws.
  apply raises_bind_l, torch_randint_raises. lia.
Qed.

(** C9 (amended): constructing a primitive never raises, whatever its
    bounds; a primitive built with [min > max] raises at every call,
    when its length sampler rejects the empty range (Deletion, Insertion,
    Translocation, Inversion). *)
Theorem bounds_checked_at_call :
  (forall vmin vmax : Z,
      RandomDeletion_init vmin vmax
      = Ok {| delete_min := vmin; delete_max := vmax |} /\
      RandomInsertion_init vmin vmax
      = Ok {| insert_min := vmin; insert_max := vmax |} /\
      RandomTranslocation_init vmin vmax
      = Ok {| shift_min := vmin; shift_max := vmax |} /\
      RandomInversion_init vmin vmax
      = Ok {| invert_min := vmin; invert_max := vmax |}) /\
  (forall (self : RandomDeletion) (x : batch),
      delete_min self > delete_max self ->
      raises (RandomDeletion_call self x)) /\
  (forall (self : RandomInsertion) (x : batch),
      insert_min self > insert_max self ->
      raises (RandomInsertion_call self x)) /\
  (forall (self : RandomTranslocation) (x : batch),
      shift_min self > shift_max self ->
      raises (RandomTranslocation_call self x)) /\
  (forall (self : RandomInversion) (x : batch),
      invert_min self > invert_max self ->
      raises (RandomInversion_call self x)).
Proof.
  split; [intros vmin vmax; repeat split|].
  split; [intros self x H; apply RandomDeletion_call_raises; lia|].
  split; [intros self x H; apply RandomInsertion_call_raises; lia|].
  split; [intros self x H; apply RandomTranslocation_call_raises; lia|].
  intros self x H; apply RandomInversion_call_raises; lia.
Qed.

Lemma bounds_checked_at_call_witness :
  raises (RandomDeletion_call {| delete_min := 5; delete_max := 3 |}
            example_batch) /\
  raises (RandomInsertion_call {| insert_min := 5; insert_max := 3 |}
            example_batch) /\
  raises (RandomTranslocation_call {| shift_min := 5; shift_max := 3 |}
            example_batch) /\
  raises (RandomInversion_call {| invert_min := 5; invert_max := 3 |}
            example_batch).
Proof.
  destruct bounds_checked_at_call as (_ & Hd & Hi & Ht & Hv).
  split; [apply Hd; simpl; lia|].
  split; [apply Hi; simpl; lia|].
  split; [apply Ht; simpl; lia | apply Hv; simpl; lia].
Defined.

(** ** One-hot batches *)

Lemma RandomNoise_breaks_onehot (self : RandomNoise) (N A L : nat)
    (x y : batch) (g g' : rng) :
  (0 < N)%nat -> (0 < A)%nat -> (0 < L)%nat -> OneHot3 N A L x ->
  RandomNoise_call self x g = Ok (y, g') ->
  ~ (first_noise self g == 0)%Q -> ~ (first_noise self g == 1)%Q ->
  ~ (first_noise self g == -1)%Q ->
  ~ OneHot3 N A L y.
Proof.
  intros HN HA HL Hx E H0 H1 Hm1 Hy.
  pose proof (RandomNoise_call_entry000 self N A L x y g g' HN HA HL
                (OneHot3_has_shape N A L x Hx) E) as He.
  destruct (OneHot3_entry000 N A L x HN HA HL Hx) as [Ex|Ex];
    destruct (OneHot3_entry000 N A L y HN HA HL Hy) as [Ey|Ey];
    rewrite Ex, Ey in He; unfold zero, one in He;
    assert (Hq := Qeq_refl (first_noise self g));
    [ apply H0 | apply Hm1 | apply H1 | apply H0 ];
    match type of He with
    | ?a = (?b + _)%Q =>
        assert (Hs : (a == b + first_noise self g)%Q)
          by (rewrite <- He; apply Qeq_refl)
    end; lra.
Qed.

(** C10: on a batch that is exactly one-hot at every position, the
    outputs of Deletion, Insertion, Translocation, Inversion, Mutation
    and Reverse-Complement are exactly one-hot at every position; the
    output of Noise is not, as soon as its first noise value is none of
    -1, 0 and 1. *)
Theorem onehot_preserved (N A L : nat) (x : batch) :
  OneHot3 N A L x ->
  (forall self : RandomDeletion,
      (0 < N)%nat -> (0 < A)%nat ->
      0 <= delete_min self <= delete_max self -> 0 < delete_max self ->
      delete_max self <= Z.of_nat L ->
      returns (RandomDeletion_call self x) (OneHot3 N A L)) /\
  (forall self : RandomInsertion,
      (0 < N)%nat -> (0 < A)%nat -> (0 < L)%nat ->
      0 <= insert_min self <= insert_max self -> 0 < insert_max self ->
      returns (RandomInsertion_call self x)
              (OneHot3 N A (L + Z.to_nat (insert_max self)))) /\
  (forall self : RandomTranslocation,
      (0 < N)%nat -> shift_min self <= shift_max self ->
      returns (RandomTranslocation_call self x) (OneHot3 N A L)) /\
  (forall self : RandomInversion,
      (0 < N)%nat -> (0 < A)%nat ->
      0 <= invert_min self <= invert_max self ->
      invert_max self <= Z.of_nat L ->
      returns (RandomInversion_call self x) (OneHot3 N A L)) /\
  (forall (self : RandomMutation) (k : Z),
      (0 < N)%nat -> (0 < A)%nat ->
      num_mutations (mutate_frac self) L = Ok k -> 0 < k <= Z.of_nat L ->
      returns (RandomMutation_call self x) (OneHot3 N A L)) /\
  (forall self : RandomRC,
      returns (RandomRC_call self x) (OneHot3 N A L)) /\
  (forall (self : RandomNoise) (g g' : rng) (y : batch),
      (0 < N)%nat -> (0 < A)%nat -> (0 < L)%nat ->
      RandomNoise_call self x g = Ok (y, g') ->
      ~ (first_noise self g == 0)%Q -> ~ (first_noise self g == 1)%Q ->
      ~ (first_noise self g == -1)%Q ->
      ~ OneHot3 N A L y).
Proof.
  intros Hx.
  split; [intros self HN HA Hmm Hpos HL;
          now apply RandomDeletion_call_onehot|].
  split; [intros self HN HA HL Hmm Hpos;
          now apply RandomInsertion_call_onehot|].
  split; [intros self HN Hmm; now apply RandomTranslocation_call_onehot|].
  split; [intros self HN HA Hmm HL; now apply RandomInversion_call_onehot|].
  split; [intros self k HN HA Hk Hkr;
          now apply RandomMutation_call_onehot with (k := k)|].
  split; [intros self; now apply RandomRC_call_onehot|].
  intros self g g' y HN HA HL E H0 H1 Hm1.
  now apply (RandomNoise_breaks_onehot self N A L x y g g').
Qed.

Lemma onehot_preserved_witness :
  OneHot3 2 4 6 example_batch /\
  returns (RandomDeletion_call {| delete_min := 0; delete_max := 3 |}
             example_batch) (OneHot3 2 4 6) /\
  returns (RandomInsertion_call {| insert_min := 0; insert_max := 3 |}
             example_batch) (OneHot3 2 4 9) /\
  returns (RandomTranslocation_call {| shift_min := 0; shift_max := 3 |}
             example_batch) (OneHot3 2 4 6) /\
  returns (RandomInversion_call {| invert_min := 0; invert_max := 3 |}
             example_batch) (OneHot3 2 4 6) /\
  returns (RandomMutation_call {| mutate_frac := 0.5 |} example_batch)
          (OneHot3 2 4 6) /\
  returns (RandomRC_call {| rc_prob := 1 # 2 |} example_batch)
          (OneHot3 2 4 6) /\
  exists y g',
    RandomNoise_call {| noise_mean := 0; noise_std := 1 # 5 |}
                     example_batch example_rng = Ok (y, g') /\
    ~ OneHot3 2 4 6 y.
Proof.
  pose proof (onehot_preserved 2 4 6 example_batch example_batch_onehot)
    as (Hd & Hi & Ht & Hv & Hm & Hr & Hn).
  split; [exact example_batch_onehot|].
  split; [apply Hd; simpl; lia|].
  split; [apply (Hi {| insert_min := 0; insert_max := 3 |}); simpl; lia|].
  split; [apply Ht; simpl; lia|].
  split; [apply Hv; simpl; lia|].
  split; [apply (Hm _ 4); [lia | lia | vm_compute; reflexivity | lia]|].
  split; [apply Hr|].
  destruct (RandomNoise_call_shape {| noise_mean := 0; noise_std := 1 # 5 |}
              2 4 6 example_batch eq_refl example_batch_shape example_rng)
    as (y & g' & E & _).
  exists y, g'. split; [exact E|].
  apply (Hn {| noise_mean := 0; noise_std := 1 # 5 |} example_rng g' y);
    try lia; try exact E;
    unfold first_noise; simpl; intros H; discriminate H.
Defined.

(** * Further properties of the primitives *)

(** ** Rows of a concatenation *)

Lemma nth_zip_app (a : nat) (m1 m2 : matrix) :
  length m1 = length m2 ->
  nth a (zip_app m1 m2) [] = nth a m1 [] ++ nth a m2 [].
Proof.
  revert a m2. induction m1 as [|r1 m1 IH]; intros a [|r2 m2] H;
    simpl in H; try discriminate.
  - now destruct a.
  - destruct a as [|a]; simpl; [reflexivity|]. apply IH. lia.
Qed.

Lemma zip_app_length (m1 m2 : matrix) :
  length m1 = length m2 -> length (zip_app m1 m2) = length m1.
Proof.
  revert m2. induction m1 as [|r1 m1 IH]; intros [|r2 m2] H; simpl in *;
    try discriminate; try reflexivity.
  rewrite IH; lia.
Qed.

(** Row [a] of [torch.cat(ms, -1)] is the concatenation of the rows [a]
    of the pieces. *)
Lemma cat_last_rows (A : nat) (ms : list matrix) :
  ms <> [] -> Forall (fun p => length p = A) ms ->
  exists m, cat_last ms = Ok m /\ length m = A /\
            forall a, nth a m [] = concat (map (fun p => nth a p []) ms).
Proof.
  intros Hne F. induction F as [|p ms Hp F IH]; [congruence|].
  destruct ms as [|q rest].
  - exists p. split; [reflexivity|]. split; [exact Hp|].
    intros a. simpl. now rewrite app_nil_r.
  - destruct IH as (r & Er & Hr & Rows); [congruence|].
    exists (zip_app p r). split; [|split].
    + change (cat_last (p :: q :: rest)) with
        (rbind (cat_last (q :: rest)) (cat2 p)).
      rewrite Er. simpl rbind. unfold cat2. rewrite Hp, Hr.
      now rewrite Nat.eqb_refl.
    + rewrite zip_app_length; lia.
    + intros a. rewrite nth_zip_app by lia. rewrite Rows. reflexivity.
Qed.

Lemma nth_slice_last (a : nat) (start stop : option Z) (m : matrix) :
  nth a (slice_last start stop m) [] = py_slice start stop (nth a m []).
Proof.
  unfold slice_last. revert a. induction m as [|r m IH]; intros [|a]; simpl;
    try (now rewrite py_slice_nil); auto.
Qed.

Lemma shape2_row_length (A L : nat) (m : matrix) (a : nat) :
  shape2 A L m -> (a < A)%nat -> length (nth a m []) = L.
Proof.
  intros [HA HL] Ha. rewrite Forall_forall in HL. apply HL, nth_In. lia.
Qed.

Lemma nth_firstn_lt {X} (n i : nat) (l : list X) (d : X) :
  (i < n)%nat -> nth i (firstn n l) d = nth i l d.
Proof.
  intros H. rewrite nth_firstn. destruct (Nat.ltb_spec i n); [reflexivity|lia].
Qed.

(** ** RandomDeletion: what is kept *)

(** Each row of the output of the loop body is the front padding, the
    row before the deleted interval, the row after it, the back padding. *)
Lemma RandomDeletion_pieces_row (self : RandomDeletion) (A L : nat)
    (seq pad : matrix) (delete_len delete_ind : Z) :
  shape2 A L seq -> shape2 A (Z.to_nat (delete_max self)) pad ->
  0 <= delete_len <= delete_max self ->
  0 <= delete_ind <= Z.of_nat L - delete_max self ->
  exists m,
    cat_last (RandomDeletion_pieces self seq pad delete_len delete_ind) = Ok m /\
    shape2 A L m /\
    forall a, (a < A)%nat ->
      nth a m [] =
      firstn (Z.to_nat (pad_begin_index delete_len)) (nth a pad []) ++
      firstn (Z.to_nat delete_ind) (nth a seq []) ++
      skipn (Z.to_nat (delete_ind + delete_len)) (nth a seq []) ++
      skipn (Z.to_nat (delete_max self - pad_end_index delete_len))
            (nth a pad []).
Proof.
  intros Hs Hp Hl Hi.
  destruct (RandomDeletion_pieces_shape self A L seq pad delete_len delete_ind
              Hs Hp Hl Hi) as (m & E & Sm).
  exists m. split; [exact E|]. split; [exact Sm|]. intros a Ha.
  destruct (cat_last_rows A
              (RandomDeletion_pieces self seq pad delete_len delete_ind))
    as (m' & E' & _ & Rows).
  - discriminate.
  - destruct Hs as [HsA _], Hp as [HpA _]. unfold RandomDeletion_pieces.
    repeat (apply Forall_cons;
            [unfold slice_last; rewrite length_map; assumption|]).
    apply Forall_nil.
  - rewrite E in E'. injection E' as <-. rewrite Rows.
    unfold RandomDeletion_pieces. simpl map. simpl concat.
    rewrite !nth_slice_last, app_nil_r.
    pose proof (shape2_row_length A L seq a Hs Ha) as Ls.
    pose proof (shape2_row_length A _ pad a Hp Ha) as Lp.
    assert (Hb : 0 <= pad_begin_index delete_len <= delete_len
                 /\ 0 <= pad_end_index delete_len <= delete_len).
    { unfold pad_end_index, pad_begin_index. half_of delete_len. lia. }
    rewrite !py_slice_to, !py_slice_from by lia. reflexivity.
Qed.

Lemma RandomDeletion_pieces_entries (self : RandomDeletion) (A L : nat)
    (seq pad : matrix) (delete_len delete_ind : Z) :
  shape2 A L seq -> shape2 A (Z.to_nat (delete_max self)) pad ->
  0 <= delete_len <= delete_max self ->
  0 <= delete_ind <= Z.of_nat L - delete_max self ->
  exists m,
    cat_last (RandomDeletion_pieces self seq pad delete_len delete_ind) = Ok m /\
    shape2 A L m /\
    deletion_of self A L pad delete_len delete_ind seq m.
Proof.
  intros Hs Hp Hl Hi.
  destruct (RandomDeletion_pieces_row self A L seq pad delete_len delete_ind
              Hs Hp Hl Hi) as (m & E & Sm & Rows).
  exists m. split; [exact E|]. split; [exact Sm|].
  intros a j Ha. unfold entry.
  rewrite (Rows a Ha).
  pose proof (shape2_row_length A L seq a Hs Ha) as Ls.
  pose proof (shape2_row_length A _ pad a Hp Ha) as Lp.
  set (rs := nth a seq []) in *. set (rp := nth a pad []) in *.
  assert (Hb : 0 <= pad_begin_index delete_len
               /\ pad_begin_index delete_len + pad_end_index delete_len
                  = delete_len /\ 0 <= pad_end_index delete_len).
  { unfold pad_end_index, pad_begin_index. half_of delete_len. lia. }
  set (b := pad_begin_index delete_len) in *.
  set (e := pad_end_index delete_len) in *.
  assert (L1 : length (firstn (Z.to_nat b) rp) = Z.to_nat b)
    by (rewrite length_firstn; lia).
  assert (L2 : length (firstn (Z.to_nat delete_ind) rs) = Z.to_nat delete_ind)
    by (rewrite length_firstn; lia).
  assert (L3 : length (skipn (Z.to_nat (delete_ind + delete_len)) rs)
               = (L - Z.to_nat (delete_ind + delete_len))%nat)
    by (rewrite length_skipn; lia).
  repeat split.
  - intros Hj. rewrite app_nth2 by lia. rewrite L1.
    replace (Z.to_nat b + j - Z.to_nat b)%nat with j by lia.
    rewrite app_nth1 by lia. apply nth_firstn_lt. lia.
  - intros Hj. rewrite app_nth2 by lia. rewrite L1.
    rewrite app_nth2 by lia. rewrite L2.
    rewrite app_nth1 by lia. rewrite nth_skipn. f_equal. lia.
  - intros Hj. rewrite app_nth1 by lia. apply nth_firstn_lt. lia.
  - intros Hj. rewrite app_nth2 by lia. rewrite L1.
    rewrite app_nth2 by lia. rewrite L2.
    rewrite app_nth2 by lia. rewrite L3.
    rewrite nth_skipn. f_equal. lia.
Qed.

(** ** Output examples against input examples *)

Lemma mapR_zip4_rel {X Y W V U} (f : X * Y * W * V -> result U)
    (P1 : X -> Prop) (P2 : Y -> Prop) (P3 : W -> Prop) (P4 : V -> Prop)
    (R : X -> U -> Prop) (n : nat)
    (a : list X) (b : list Y) (c : list W) (d : list V) :
  length a = n -> length b = n -> length c = n -> length d = n ->
  Forall P1 a -> Forall P2 b -> Forall P3 c -> Forall P4 d ->
  (forall u v w t, P1 u -> P2 v -> P3 w -> P4 t ->
                   exists r, f (u, v, w, t) = Ok r /\ R u r) ->
  exists bs, mapR f (zip4 a b c d) = Ok bs /\ Forall2 R a bs.
Proof.
  intros Ha Hb Hc Hd F1 F2 F3 F4 HR.
  revert n b c d Ha Hb Hc Hd F2 F3 F4.
  induction F1 as [|u a Pu F1 IH]; intros n b c d Ha Hb Hc Hd F2 F3 F4.
  - exists []. split; [reflexivity | constructor].
  - destruct F2 as [|v b Pv F2]; [simpl in *; lia|].
    destruct F3 as [|w c Pw F3]; [simpl in *; lia|].
    destruct F4 as [|t d Pt F4]; [simpl in *; lia|].
    simpl in Ha, Hb, Hc, Hd. destruct n as [|n]; [lia|].
    destruct (IH n b c d) as (bs & E & F); try lia; try assumption.
    destruct (HR u v w t Pu Pv Pw Pt) as (r & Er & Rr).
    exists (r :: bs). simpl. rewrite Er. simpl. rewrite E. simpl.
    split; [reflexivity | now constructor].
Qed.

Lemma mapR_zip3_rel {X Y W U} (f : X * Y * W -> result U)
    (P1 : X -> Prop) (P2 : Y -> Prop) (P3 : W -> Prop)
    (R : X -> U -> Prop) (n : nat)
    (a : list X) (b : list Y) (c : list W) :
  length a = n -> length b = n -> length c = n ->
  Forall P1 a -> Forall P2 b -> Forall P3 c ->
  (forall u v w, P1 u -> P2 v -> P3 w ->
                 exists r, f (u, v, w) = Ok r /\ R u r) ->
  exists bs, mapR f (zip3 a b c) = Ok bs /\ Forall2 R a bs.
Proof.
  intros Ha Hb Hc F1 F2 F3 HR.
  revert n b c Ha Hb Hc F2 F3.
  induction F1 as [|u a Pu F1 IH]; intros n b c Ha Hb Hc F2 F3.
  - exists []. split; [reflexivity | constructor].
  - destruct F2 as [|v b Pv F2]; [simpl in *; lia|].
    destruct F3 as [|w c Pw F3]; [simpl in *; lia|].
    simpl in Ha, Hb, Hc. destruct n as [|n]; [lia|].
    destruct (IH n b c) as (bs & E & F); try lia; try assumption.
    destruct (HR u v w Pu Pv Pw) as (r & Er & Rr).
    exists (r :: bs). simpl. rewrite Er. simpl. rewrite E. simpl.
    split; [reflexivity | now constructor].
Qed.

Lemma Forall2_and_r {X Y} (P : Y -> Prop) (R : X -> Y -> Prop)
    (a : list X) (b : list Y) :
  Forall2 (fun u v => P v /\ R u v) a b ->
  length b = length a /\ Forall P b /\ Forall2 R a b.
Proof.
  induction 1 as [|u v a b [Pv Ruv] F (Hl & Hp & Hr)].
  - split; [reflexivity|]. split; constructor.
  - split; [simpl; lia|]. split; constructor; assumption.
Qed.

Lemma RandomDeletion_call_rel (self : RandomDeletion) (N A L : nat)
    (R : matrix -> matrix -> Prop) (x : batch) :
  (forall seq pad delete_len delete_ind,
      shape2 A L seq -> Encoded A (Z.to_nat (delete_max self)) pad ->
      delete_min self <= delete_len <= delete_max self ->
      0 <= delete_ind <= Z.of_nat L - delete_max self ->
      exists m, cat_last (RandomDeletion_pieces self seq pad
                            delete_len delete_ind) = Ok m /\
                shape2 A L m /\ R seq m) ->
  (0 < N)%nat -> (0 < A)%nat ->
  delete_min self <= delete_max self -> 0 < delete_max self ->
  delete_max self <= Z.of_nat L -> has_shape N A L x ->
  returns (RandomDeletion_call self x)
          (fun y => has_shape N A L y /\ Forall2 R x y).
Proof.
  intros Hbody HN HA Hmm Hpos HL [Hx Fx]. unfold RandomDeletion_call.
  rewrite (shape3_has_shape N A L x (conj Hx Fx) HN HA).
  eapply returns_bind.
  { now apply RandomDeletion_draws_returns. }
  intros [[padding delete_lens] delete_inds] (Hpl & Hpf & Hll & Hlf & Hil & Hif).
  destruct (mapR_zip4_rel
              (fun t => let '(seq, pad, delete_len, delete_ind) := t in
                        cat_last (RandomDeletion_pieces self seq pad
                                    delete_len delete_ind))
              (shape2 A L) (Encoded A (Z.to_nat (delete_max self)))
              (fun v => delete_min self <= v <= delete_max self)
              (fun v => 0 <= v <= Z.of_nat L - delete_max self)
              (fun seq m => shape2 A L m /\ R seq m)
              N x padding delete_lens delete_inds) as (bs & E & F2);
    try assumption.
  destruct (Forall2_and_r _ _ _ _ F2) as (Hlen & Fs & Fr).
  eapply returns_bind with (P := fun y => y = bs).
  - now apply returns_lift with (v := bs).
  - intros x_aug ->. apply returns_lift_ex. exists bs. split.
    + apply stack_shape with (A := A) (L := L); [|exact Fs].
      apply length_pos_nonempty with (n := N); lia.
    + split; [split; [lia | exact Fs] | exact Fr].
Qed.

(** X1: on every valid batch RandomDeletion returns, and each output
    example is its input example with one interval of columns removed:
    the interval has a length in [delete_min, delete_max] and lies inside
    the sequence, every column outside it is kept in order, and the two
    paddings are the first floor(len / 2) and the last columns of one
    one-hot random fragment. *)
Theorem RandomDeletion_keeps_content (self : RandomDeletion) (N A L : nat)
    (x : batch) :
  (0 < N)%nat -> (0 < A)%nat ->
  0 <= delete_min self <= delete_max self -> 0 < delete_max self ->
  delete_max self <= Z.of_nat L -> has_shape N A L x ->
  returns (RandomDeletion_call self x)
    (fun y =>
       has_shape N A L y /\
       Forall2 (fun seq out =>
                  exists pad delete_len delete_ind,
                    OneHot2 A (Z.to_nat (delete_max self)) pad /\
                    delete_min self <= delete_len <= delete_max self /\
                    0 <= delete_ind /\
                    delete_ind + delete_len <= Z.of_nat L /\
                    deletion_of self A L pad delete_len delete_ind seq out)
               x y).
Proof.
  intros HN HA Hmm Hpos HL Hx.
  apply RandomDeletion_call_rel; try assumption; try lia.
  intros seq pad dl di Hs Hp Hl Hi.
  destruct (RandomDeletion_pieces_entries self A L seq pad dl di Hs
              (Encoded_shape2 _ _ _ Hp) ltac:(lia) Hi) as (m & E & Sm & D).
  exists m. split; [exact E|]. split; [exact Sm|].
  exists pad, dl, di. split; [now apply Encoded_OneHot2|].
  split; [lia|]. split; [lia|]. split; [lia | exact D].
Qed.

Lemma RandomDeletion_keeps_content_witness :
  returns (RandomDeletion_call {| delete_min := 0; delete_max := 3 |}
             example_batch)
    (fun y =>
       has_shape 2 4 6 y /\
       Forall2 (fun seq out =>
                  exists pad delete_len delete_ind,
                    OneHot2 4 3 pad /\ 0 <= delete_len <= 3 /\
                    0 <= delete_ind /\ delete_ind + delete_len <= 6 /\
                    deletion_of {| delete_min := 0; delete_max := 3 |} 4 6
                                pad delete_len delete_ind seq out)
               example_batch y).
Proof.
  apply (RandomDeletion_keeps_content {| delete_min := 0; delete_max := 3 |}
           2 4 6 example_batch); try (simpl; lia).
  exact example_batch_shape.
Defined.

(** ** RandomInsertion: what is kept *)

Lemma RandomInsertion_pieces_row (self : RandomInsertion) (A L : nat)
    (seq insertion : matrix) (insert_len insert_ind : Z) :
  shape2 A L seq -> shape2 A (Z.to_nat (insert_max self)) insertion ->
  0 <= insert_len <= insert_max self -> 0 <= insert_ind <= Z.of_nat L ->
  let b := insert_beginning_len self insert_len in
  exists m,
    cat_last (RandomInsertion_pieces self seq insertion insert_len insert_ind)
    = Ok m /\
    shape2 A (L + Z.to_nat (insert_max self)) m /\
    forall a, (a < A)%nat ->
      nth a m [] =
      firstn (Z.to_nat b) (nth a insertion []) ++
      firstn (Z.to_nat insert_ind) (nth a seq []) ++
      firstn (Z.to_nat insert_len) (skipn (Z.to_nat b) (nth a insertion [])) ++
      skipn (Z.to_nat insert_ind) (nth a seq []) ++
      skipn (Z.to_nat (b + insert_len)) (nth a insertion []).
Proof.
  intros Hs Hp Hl Hi b.
  destruct (RandomInsertion_pieces_shape self A L seq insertion insert_len
              insert_ind Hs Hp Hl Hi) as (m & E & Sm).
  exists m. split; [exact E|]. split; [exact Sm|]. intros a Ha.
  destruct (cat_last_rows A
              (RandomInsertion_pieces self seq insertion insert_len insert_ind))
    as (m' & E' & _ & Rows).
  - discriminate.
  - destruct Hs as [HsA _], Hp as [HpA _]. unfold RandomInsertion_pieces.
    cbv zeta.
    repeat (apply Forall_cons;
            [unfold slice_last; rewrite length_map; assumption|]).
    apply Forall_nil.
  - rewrite E in E'. injection E' as <-. rewrite Rows.
    unfold RandomInsertion_pieces. cbv zeta. simpl map. simpl concat.
    rewrite !nth_slice_last, app_nil_r. fold b.
    pose proof (shape2_row_length A L seq a Hs Ha) as Ls.
    pose proof (shape2_row_length A _ insertion a Hp Ha) as Lp.
    assert (Hb : 0 <= b /\ b + insert_len <= insert_max self).
    { unfold b, insert_beginning_len.
      half_of (insert_max self - insert_len). lia. }
    assert (P3 : py_slice (Some b) (Some (b + insert_len))
                          (nth a insertion [])
                 = firstn (Z.to_nat insert_len)
                          (skipn (Z.to_nat b) (nth a insertion []))).
    { rewrite py_slice_mid by lia.
      now replace (b + insert_len - b) with insert_len by lia. }
    assert (P5 : py_slice (Some (b + insert_len)) (Some (insert_max self))
                          (nth a insertion [])
                 = skipn (Z.to_nat (b + insert_len)) (nth a insertion [])).
    { rewrite py_slice_mid by lia. apply firstn_all2.
      rewrite length_skipn. lia. }
    rewrite P3, P5, !py_slice_to, !py_slice_from by lia. reflexivity.
Qed.

Lemma nth_firstn_skipn {X} (n k i : nat) (l : list X) (d : X) :
  (i < n)%nat -> nth i (firstn n (skipn k l)) d = nth (k + i) l d.
Proof. intros H. rewrite nth_firstn_lt by exact H. apply nth_skipn. Qed.

Lemma RandomInsertion_pieces_entries (self : RandomInsertion) (A L : nat)
    (seq insertion : matrix) (insert_len insert_ind : Z) :
  shape2 A L seq -> shape2 A (Z.to_nat (insert_max self)) insertion ->
  0 <= insert_len <= insert_max self -> 0 <= insert_ind <= Z.of_nat L ->
  exists m,
    cat_last (RandomInsertion_pieces self seq insertion insert_len insert_ind)
    = Ok m /\
    shape2 A (L + Z.to_nat (insert_max self)) m /\
    insertion_of self A L insertion insert_len insert_ind seq m.
Proof.
  intros Hs Hp Hl Hi.
  destruct (RandomInsertion_pieces_row self A L seq insertion insert_len
              insert_ind Hs Hp Hl Hi) as (m & E & Sm & Rows).
  exists m. split; [exact E|]. split; [exact Sm|].
  unfold insertion_of. cbv zeta. intros a j Ha. unfold entry.
  rewrite (Rows a Ha).
  pose proof (shape2_row_length A L seq a Hs Ha) as Ls.
  pose proof (shape2_row_length A _ insertion a Hp Ha) as Lp.
  set (rs := nth a seq []) in *. set (ri := nth a insertion []) in *.
  assert (Hb : 0 <= insert_beginning_len self insert_len /\
               insert_beginning_len self insert_len + insert_len
               <= insert_max self).
  { unfold insert_beginning_len.
    half_of (insert_max self - insert_len). lia. }
  set (b := insert_beginning_len self insert_len) in *.
  assert (L1 : length (firstn (Z.to_nat b) ri) = Z.to_nat b)
    by (rewrite length_firstn; lia).
  assert (L2 : length (firstn (Z.to_nat insert_ind) rs) = Z.to_nat insert_ind)
    by (rewrite length_firstn; lia).
  assert (L3 : length (firstn (Z.to_nat insert_len) (skipn (Z.to_nat b) ri))
               = Z.to_nat insert_len)
    by (rewrite length_firstn, length_skipn; lia).
  assert (L4 : length (skipn (Z.to_nat insert_ind) rs)
               = (L - Z.to_nat insert_ind)%nat)
    by (rewrite length_skipn; lia).
  repeat split.
  - intros Hj. rewrite app_nth2 by lia. rewrite L1.
    rewrite app_nth1 by lia. rewrite nth_firstn_lt by lia. f_equal. lia.
  - intros Hj. rewrite app_nth2 by lia. rewrite L1.
    rewrite app_nth2 by lia. rewrite L2.
    rewrite app_nth2 by lia. rewrite L3.
    rewrite app_nth1 by lia. rewrite nth_skipn. f_equal. lia.
  - intros Hj. rewrite app_nth1 by lia. apply nth_firstn_lt. lia.
  - intros Hj. rewrite app_nth2 by lia. rewrite L1.
    rewrite app_nth2 by lia. rewrite L2.
    rewrite app_nth1 by lia. rewrite nth_firstn_skipn by lia. f_equal. lia.
  - intros Hj. rewrite app_nth2 by lia. rewrite L1.
    rewrite app_nth2 by lia. rewrite L2.
    rewrite app_nth2 by lia. rewrite L3.
    rewrite app_nth2 by lia. rewrite L4.
    rewrite nth_skipn. f_equal. lia.
Qed.

Lemma RandomInsertion_call_rel (self : RandomInsertion) (N A L : nat)
    (R : matrix -> matrix -> Prop) (x : batch) :
  (forall seq insertion insert_len insert_ind,
      shape2 A L seq -> Encoded A (Z.to_nat (insert_max self)) insertion ->
      insert_min self <= insert_len <= insert_max self ->
      0 <= insert_ind < Z.of_nat L ->
      exists m, cat_last (RandomInsertion_pieces self seq insertion
                            insert_len insert_ind) = Ok m /\
                shape2 A (L + Z.to_nat (insert_max self)) m /\ R seq m) ->
  (0 < N)%nat -> (0 < A)%nat -> (0 < L)%nat ->
  insert_min self <= insert_max self -> 0 < insert_max self ->
  has_shape N A L x ->
  returns (RandomInsertion_call self x)
          (fun y => has_shape N A (L + Z.to_nat (insert_max self)) y /\
                    Forall2 R x y).
Proof.
  intros Hbody HN HA HL Hmm Hpos [Hx Fx]. unfold RandomInsertion_call.
  rewrite (shape3_has_shape N A L x (conj Hx Fx) HN HA).
  eapply returns_bind.
  { now apply RandomInsertion_draws_returns. }
  intros [[insertions insert_lens] insert_inds]
         (Hpl & Hpf & Hll & Hlf & Hil & Hif).
  destruct (mapR_zip4_rel
              (fun t => let '(seq, insertion, insert_len, insert_ind) := t in
                        cat_last (RandomInsertion_pieces self seq insertion
                                    insert_len insert_ind))
              (shape2 A L) (Encoded A (Z.to_nat (insert_max self)))
              (fun v => insert_min self <= v <= insert_max self)
              (fun v => 0 <= v < Z.of_nat L)
              (fun seq m => shape2 A (L + Z.to_nat (insert_max self)) m /\
                            R seq m)
              N x insertions insert_lens insert_inds) as (bs & E & F2);
    try assumption.
  destruct (Forall2_and_r _ _ _ _ F2) as (Hlen & Fs & Fr).
  eapply returns_bind with (P := fun y => y = bs).
  - now apply returns_lift with (v := bs).
  - intros x_aug ->. apply returns_lift_ex. exists bs. split.
    + apply stack_shape with (A := A)
                             (L := (L + Z.to_nat (insert_max self))%nat);
        [|exact Fs].
      apply length_pos_nonempty with (n := N); lia.
    + split; [split; [lia | exact Fs] | exact Fr].
Qed.

(** X2: on every valid batch RandomInsertion returns, and each output
    example holds every column of its input example, in order, split at an
    index of [0, L - 1], together with every column of one one-hot random
    fragment of width insert_max, each once: [insert_len] of them, with
    [insert_len] in [insert_min, insert_max], at the split and the others
    as front and back padding. *)
Theorem RandomInsertion_keeps_content (self : RandomInsertion) (N A L : nat)
    (x : batch) :
  (0 < N)%nat -> (0 < A)%nat -> (0 < L)%nat ->
  0 <= insert_min self <= insert_max self -> 0 < insert_max self ->
  has_shape N A L x ->
  returns (RandomInsertion_call self x)
    (fun y =>
       has_shape N A (L + Z.to_nat (insert_max self)) y /\
       Forall2 (fun seq out =>
                  exists insertion insert_len insert_ind,
                    OneHot2 A (Z.to_nat (insert_max self)) insertion /\
                    insert_min self <= insert_len <= insert_max self /\
                    0 <= insert_ind < Z.of_nat L /\
                    insertion_of self A L insertion insert_len insert_ind
                                 seq out)
               x y).
Proof.
  intros HN HA HL Hmm Hpos Hx.
  apply RandomInsertion_call_rel; try assumption; try lia.
  intros seq ins il ii Hs Hp Hl Hi.
  destruct (RandomInsertion_pieces_entries self A L seq ins il ii Hs
              (Encoded_shape2 _ _ _ Hp) ltac:(lia) ltac:(lia))
    as (m & E & Sm & D).
  exists m. split; [exact E|]. split; [exact Sm|].
  exists ins, il, ii. split; [now apply Encoded_OneHot2|].
  split; [lia|]. split; [lia | exact D].
Qed.

Lemma RandomInsertion_keeps_content_witness :
  returns (RandomInsertion_call {| insert_min := 0; insert_max := 3 |}
             example_batch)
    (fun y =>
       has_shape 2 4 9 y /\
       Forall2 (fun seq out =>
                  exists insertion insert_len insert_ind,
                    OneHot2 4 3 insertion /\ 0 <= insert_len <= 3 /\
                    0 <= insert_ind < 6 /\
                    insertion_of {| insert_min := 0; insert_max := 3 |} 4 6
                                 insertion insert_len insert_ind seq out)
               example_batch y).
Proof.
  apply (RandomInsertion_keeps_content {| insert_min := 0; insert_max := 3 |}
           2 4 6 example_batch); try (simpl; lia).
  exact example_batch_shape.
Defined.

(** ** RandomInversion: entries of the output *)

Lemma nth_flip01 (A : nat) (m : matrix) (a : nat) :
  length m = A -> (a < A)%nat ->
  nth a (flip01 m) [] = rev (nth (A - 1 - a) m []).
Proof.
  intros Hm Ha. unfold flip01.
  rewrite rev_nth by (rewrite length_map; lia). rewrite length_map, Hm.
  replace (A - S a)%nat with (A - 1 - a)%nat by lia.
  apply nth_map_default. lia.
Qed.

Lemma RandomInversion_pieces_row (imax : Z) (A L : nat) (seq : matrix)
    (inversion_len inversion_ind : Z) :
  shape2 A L seq ->
  0 <= inversion_len <= imax -> 0 <= inversion_ind <= Z.of_nat L - imax ->
  exists m,
    cat_last (RandomInversion_pieces seq inversion_len inversion_ind) = Ok m /\
    shape2 A L m /\
    forall a, (a < A)%nat ->
      nth a m [] =
      firstn (Z.to_nat inversion_ind) (nth a seq []) ++
      rev (firstn (Z.to_nat inversion_len)
                  (skipn (Z.to_nat inversion_ind) (nth (A - 1 - a) seq []))) ++
      skipn (Z.to_nat (inversion_ind + inversion_len)) (nth a seq []).
Proof.
  intros Hs Hl Hi.
  destruct (RandomInversion_pieces_shape imax A L seq inversion_len
              inversion_ind Hs Hl Hi) as (m & E & Sm).
  exists m. split; [exact E|]. split; [exact Sm|]. intros a Ha.
  assert (HsA : length seq = A) by apply Hs.
  destruct (cat_last_rows A
              (RandomInversion_pieces seq inversion_len inversion_ind))
    as (m' & E' & _ & Rows).
  - discriminate.
  - unfold RandomInversion_pieces.
    apply Forall_cons; [unfold slice_last; now rewrite length_map|].
    apply Forall_cons;
      [unfold flip01, slice_last; now rewrite length_rev, !length_map|].
    apply Forall_cons; [unfold slice_last; now rewrite length_map|].
    apply Forall_nil.
  - rewrite E in E'. injection E' as <-. rewrite Rows.
    unfold RandomInversion_pieces. simpl map. simpl concat.
    rewrite (nth_flip01 A) by
      (try lia; unfold slice_last; now rewrite length_map).
    rewrite !nth_slice_last, app_nil_r.
    pose proof (shape2_row_length A L seq a Hs Ha) as Ls.
    pose proof (shape2_row_length A L seq (A - 1 - a) Hs ltac:(lia)) as Ls'.
    rewrite py_slice_to, py_slice_from, py_slice_mid by lia.
    now replace (inversion_ind + inversion_len - inversion_ind)
      with inversion_len by lia.
Qed.

Lemma RandomInversion_pieces_entries (imax : Z) (A L : nat) (seq : matrix)
    (inversion_len inversion_ind : Z) :
  shape2 A L seq ->
  0 <= inversion_len <= imax -> 0 <= inversion_ind <= Z.of_nat L - imax ->
  exists m,
    cat_last (RandomInversion_pieces seq inversion_len inversion_ind) = Ok m /\
    shape2 A L m /\ inversion_of A L inversion_len inversion_ind seq m.
Proof.
  intros Hs Hl Hi.
  destruct (RandomInversion_pieces_row imax A L seq inversion_len
              inversion_ind Hs Hl Hi) as (m & E & Sm & Rows).
  exists m. split; [exact E|]. split; [exact Sm|].
  intros a j Ha Hj. unfold entry. rewrite (Rows a Ha).
  pose proof (shape2_row_length A L seq a Hs Ha) as Ls.
  pose proof (shape2_row_length A L seq (A - 1 - a) Hs ltac:(lia)) as Ls'.
  set (rs := nth a seq []) in *. set (rs' := nth (A - 1 - a) seq []) in *.
  assert (L1 : length (firstn (Z.to_nat inversion_ind) rs)
               = Z.to_nat inversion_ind)
    by (rewrite length_firstn; lia).
  assert (L2 : length (firstn (Z.to_nat inversion_len)
                              (skipn (Z.to_nat inversion_ind) rs'))
               = Z.to_nat inversion_len)
    by (rewrite length_firstn, length_skipn; lia).
  split.
  - intros [Hlt|Hge].
    + rewrite app_nth1 by lia. apply nth_firstn_lt. lia.
    + rewrite app_nth2 by lia. rewrite L1.
      rewrite app_nth2 by (rewrite length_rev; lia).
      rewrite length_rev, L2. rewrite nth_skipn. f_equal. lia.
  - intros Hin. rewrite app_nth2 by lia. rewrite L1.
    rewrite app_nth1 by (rewrite length_rev; lia).
    rewrite rev_nth by lia. rewrite L2.
    rewrite nth_firstn_skipn by lia. f_equal. lia.
Qed.

Lemma RandomInversion_call_rel (self : RandomInversion) (N A L : nat)
    (R : matrix -> matrix -> Prop) (x : batch) :
  (forall seq inversion_len inversion_ind,
      shape2 A L seq ->
      invert_min self <= inversion_len <= invert_max self ->
      0 <= inversion_ind <= Z.of_nat L - invert_max self ->
      exists m, cat_last (RandomInversion_pieces seq inversion_len
                            inversion_ind) = Ok m /\
                shape2 A L m /\ R seq m) ->
  (0 < N)%nat -> (0 < A)%nat ->
  invert_min self <= invert_max self -> invert_max self <= Z.of_nat L ->
  has_shape N A L x ->
  returns (RandomInversion_call self x)
          (fun y => has_shape N A L y /\ Forall2 R x y).
Proof.
  intros Hbody HN HA Hmm HL [Hx Fx]. unfold RandomInversion_call.
  rewrite (shape3_has_shape N A L x (conj Hx Fx) HN HA).
  eapply returns_bind.
  { now apply RandomInversion_draws_returns. }
  intros [inversion_lens inversion_inds] (Hll & Hlf & Hil & Hif).
  destruct (mapR_zip3_rel
              (fun t => let '(seq, inversion_len, inversion_ind) := t in
                        cat_last (RandomInversion_pieces seq inversion_len
                                    inversion_ind))
              (shape2 A L)
              (fun v => invert_min self <= v <= invert_max self)
              (fun v => 0 <= v <= Z.of_nat L - invert_max self)
              (fun seq m => shape2 A L m /\ R seq m)
              N x inversion_lens inversion_inds) as (bs & E & F2);
    try assumption.
  destruct (Forall2_and_r _ _ _ _ F2) as (Hlen & Fs & Fr).
  eapply returns_bind with (P := fun y => y = bs).
  - now apply returns_lift with (v := bs).
  - intros x_aug ->. apply returns_lift_ex. exists bs. split.
    + apply stack_shape with (A := A) (L := L); [|exact Fs].
      apply length_pos_nonempty with (n := N); lia.
    + split; [split; [lia | exact Fs] | exact Fr].
Qed.

(** X3: on every valid batch RandomInversion returns, and each output
    example is its input example with one interval flipped on both axes:
    the interval has a length in [invert_min, invert_max] and lies inside
    the sequence, no entry outside it changes, and inside it the entry at
    row a, column j is the input entry at row A - 1 - a and at the
    mirrored column of the interval. *)
Theorem RandomInversion_entries (self : RandomInversion) (N A L : nat)
    (x : batch) :
  (0 < N)%nat -> (0 < A)%nat ->
  0 <= invert_min self <= invert_max self -> invert_max self <= Z.of_nat L ->
  has_shape N A L x ->
  returns (RandomInversion_call self x)
    (fun y =>
       has_shape N A L y /\
       Forall2 (fun seq out =>
                  exists inversion_len inversion_ind,
                    invert_min self <= inversion_len <= invert_max self /\
                    0 <= inversion_ind /\
                    inversion_ind + inversion_len <= Z.of_nat L /\
                    inversion_of A L inversion_len inversion_ind seq out)
               x y).
Proof.
  intros HN HA Hmm HL Hx.
  apply RandomInversion_call_rel; try assumption; try lia.
  intros seq il ii Hs Hl Hi.
  destruct (RandomInversion_pieces_entries (invert_max self) A L seq il ii Hs
              ltac:(lia) Hi) as (m & E & Sm & D).
  exists m. split; [exact E|]. split; [exact Sm|].
  exists il, ii. split; [lia|]. split; [lia|]. split; [lia | exact D].
Qed.

Lemma RandomInversion_entries_witness :
  returns (RandomInversion_call {| invert_min := 0; invert_max := 3 |}
             example_batch)
    (fun y =>
       has_shape 2 4 6 y /\
       Forall2 (fun seq out =>
                  exists inversion_len inversion_ind,
                    0 <= inversion_len <= 3 /\ 0 <= inversion_ind /\
                    inversion_ind + inversion_len <= 6 /\
                    inversion_of 4 6 inversion_len inversion_ind seq out)
               example_batch y).
Proof.
  apply (RandomInversion_entries {| invert_min := 0; invert_max := 3 |}
           2 4 6 example_batch); try (simpl; lia).
  exact example_batch_shape.
Defined.

Lemma entries_ext (A L : nat) (m1 m2 : matrix) :
  shape2 A L m1 -> shape2 A L m2 ->
  (forall a j, (a < A)%nat -> (j < L)%nat -> entry m1 a j = entry m2 a j) ->
  m1 = m2.
Proof.
  intros S1 S2 H. apply nth_ext with (d := []) (d' := []).
  - destruct S1 as [-> _], S2 as [E _]. now rewrite E.
  - intros a Ha. assert (Ha' : (a < A)%nat) by (destruct S1 as [<- _]; lia).
    apply nth_ext with (d := zero) (d' := zero).
    + now rewrite (shape2_row_length A L m1 a S1 Ha'),
        (shape2_row_length A L m2 a S2 Ha').
    + intros j Hj. rewrite (shape2_row_length A L m1 a S1 Ha') in Hj.
      now apply H.
Qed.

Lemma Forall2_map_eq {X Y} (f : X -> Y) (a : list X) (b : list Y) :
  Forall2 (fun u v => v = f u) a b -> b = map f a.
Proof. induction 1 as [|u v a b -> F IH]; simpl; [reflexivity | now rewrite IH]. Qed.

Lemma entry_flip01 (A L : nat) (m : matrix) (a j : nat) :
  shape2 A L m -> (a < A)%nat -> (j < L)%nat ->
  entry (flip01 m) a j = entry m (A - 1 - a) (L - 1 - j).
Proof.
  intros Sm Ha Hj. unfold entry.
  rewrite (nth_flip01 A) by (try lia; apply Sm).
  pose proof (shape2_row_length A L m (A - 1 - a) Sm ltac:(lia)) as Lr.
  rewrite rev_nth by lia. rewrite Lr. f_equal. lia.
Qed.

(** X4: with [invert_min = invert_max = 0] RandomInversion returns its
    input batch unchanged, on every non-empty batch and from every state
    of the generator. *)
Theorem RandomInversion_zero_is_identity (self : RandomInversion)
    (N A L : nat) (x : batch) :
  invert_min self = 0 -> invert_max self = 0 ->
  (0 < N)%nat -> (0 < A)%nat -> has_shape N A L x ->
  returns (RandomInversion_call self x) (fun y => y = x).
Proof.
  intros Hmin Hmax HN HA Hx. eapply returns_weaken.
  - apply (RandomInversion_call_rel self N A L (fun seq m => m = seq));
      try assumption; try lia.
    intros seq il ii Hs Hl Hi.
    destruct (RandomInversion_pieces_entries (invert_max self) A L seq il ii
                Hs ltac:(lia) Hi) as (m & E & Sm & D).
    exists m. split; [exact E|]. split; [exact Sm|].
    apply (entries_ext A L); try assumption.
    intros a j Ha Hj. destruct (D a j Ha Hj) as [Hout _]. apply Hout. lia.
  - cbv beta. intros y [_ F]. apply Forall2_map_eq in F.
    now rewrite map_id in F.
Qed.

Lemma RandomInversion_zero_is_identity_witness :
  returns (RandomInversion_call {| invert_min := 0; invert_max := 0 |}
             example_batch) (fun y => y = example_batch).
Proof.
  apply (RandomInversion_zero_is_identity
           {| invert_min := 0; invert_max := 0 |} 2 4 6 example_batch);
    try reflexivity; try lia.
  exact example_batch_shape.
Defined.

(** X5: with [invert_min = invert_max = L] RandomInversion inverts each
    whole sequence: it returns the batch flipped on the alphabet axis and
    the length axis, which is what RandomRC returns with [rc_prob = 1]. *)
Theorem RandomInversion_full_is_RC (self : RandomInversion) (N A L : nat)
    (x : batch) :
  invert_min self = Z.of_nat L -> invert_max self = Z.of_nat L ->
  (0 < N)%nat -> (0 < A)%nat -> has_shape N A L x ->
  returns (RandomInversion_call self x) (fun y => y = flip12 x) /\
  returns (RandomRC_call {| rc_prob := 1 |} x) (fun y => y = flip12 x).
Proof.
  intros Hmin Hmax HN HA Hx. split; [|apply RandomRC_call_forced].
  eapply returns_weaken.
  - apply (RandomInversion_call_rel self N A L (fun seq m => m = flip01 seq));
      try assumption; try lia.
    intros seq il ii Hs Hl Hi.
    destruct (RandomInversion_pieces_entries (invert_max self) A L seq il ii
                Hs ltac:(lia) Hi) as (m & E & Sm & D).
    exists m. split; [exact E|]. split; [exact Sm|].
    apply (entries_ext A L); try assumption; [now apply shape2_flip01|].
    intros a j Ha Hj. destruct (D a j Ha Hj) as [_ Hin].
    rewrite Hin by lia. rewrite (entry_flip01 A L) by assumption.
    f_equal. lia.
  - cbv beta. intros y [_ F]. now apply Forall2_map_eq in F.
Qed.

Lemma RandomInversion_full_is_RC_witness :
  returns (RandomInversion_call {| invert_min := 6; invert_max := 6 |}
             example_batch) (fun y => y = flip12 example_batch).
Proof.
  apply (RandomInversion_full_is_RC {| invert_min := 6; invert_max := 6 |}
           2 4 6 example_batch); try reflexivity; try lia.
  exact example_batch_shape.
Defined.

(** X6: inverting the same interval of an example twice gives the example
    back: the loop body of RandomInversion is an involution for every
    interval inside the sequence. *)
Theorem RandomInversion_pieces_involution (A L : nat) (seq : matrix)
    (inversion_len inversion_ind : Z) :
  shape2 A L seq -> 0 <= inversion_len -> 0 <= inversion_ind ->
  inversion_ind + inversion_len <= Z.of_nat L ->
  exists m,
    cat_last (RandomInversion_pieces seq inversion_len inversion_ind) = Ok m /\
    cat_last (RandomInversion_pieces m inversion_len inversion_ind) = Ok seq.
Proof.
  intros Hs Hl Hi Hle.
  destruct (RandomInversion_pieces_entries inversion_len A L seq
              inversion_len inversion_ind Hs ltac:(lia) ltac:(lia))
    as (m & E & Sm & D).
  destruct (RandomInversion_pieces_entries inversion_len A L m
              inversion_len inversion_ind Sm ltac:(lia) ltac:(lia))
    as (m2 & E2 & Sm2 & D2).
  exists m. split; [exact E|]. rewrite E2. f_equal.
  apply (entries_ext A L); try assumption.
  intros a j Ha Hj. destruct (D2 a j Ha Hj) as [Hout Hin].
  destruct (Z_lt_ge_dec (Z.of_nat j) inversion_ind) as [H1|H1].
  { rewrite Hout by lia. destruct (D a j Ha Hj) as [Hout' _].
    apply Hout'. lia. }
  destruct (Z_lt_ge_dec (Z.of_nat j) (inversion_ind + inversion_len))
    as [H2|H2].
  - rewrite Hin by lia.
    set (j' := (Z.to_nat (2 * inversion_ind + inversion_len - 1) - j)%nat).
    destruct (D (A - 1 - a)%nat j' ltac:(lia) ltac:(unfold j'; lia))
      as [_ Hin'].
    rewrite Hin' by (unfold j'; lia). unfold j'. f_equal; lia.
  - rewrite Hout by lia. destruct (D a j Ha Hj) as [Hout' _].
    apply Hout'. lia.
Qed.

Lemma RandomInversion_pieces_involution_witness :
  exists m,
    cat_last (RandomInversion_pieces (encode 4 [0; 1; 2; 3; 0; 1]%nat) 3 1)
    = Ok m /\
    cat_last (RandomInversion_pieces m 3 1)
    = Ok (encode 4 [0; 1; 2; 3; 0; 1]%nat).
Proof.
  apply (RandomInversion_pieces_involution 4 6); try (simpl; lia).
  apply (encode_shape 4 [0; 1; 2; 3; 0; 1]%nat).
Defined.

(** ** RandomMutation: which entries change *)

Lemma nth_set_nth_other {X} (i j : nat) (v d : X) (l : list X) :
  j <> i -> nth j (set_nth i v l) d = nth j l d.
Proof.
  revert i j. induction l as [|u l IH]; intros [|i] [|j] H; simpl;
    try reflexivity; try congruence.
  apply IH. congruence.
Qed.

Lemma nth_set_nth_same {X} (i : nat) (v d : X) (l : list X) :
  (i < length l)%nat -> nth i (set_nth i v l) d = v.
Proof.
  revert i. induction l as [|u l IH]; intros [|i] H; simpl in *;
    try lia; try reflexivity.
  apply IH. lia.
Qed.

Lemma scatter_row_other {X} (r : list X) (inds : list nat) (vals : list X)
    (j : nat) (d : X) :
  ~ In j inds -> nth j (scatter_row r inds vals) d = nth j r d.
Proof.
  revert r vals. induction inds as [|i inds IH]; intros r [|v vals] H; simpl;
    try reflexivity.
  rewrite IH by (intros Hin; apply H; now right).
  apply nth_set_nth_other. intros ->. apply H. now left.
Qed.

Lemma scatter_row_same {X} (r : list X) (inds : list nat) (vals : list X)
    (t : nat) (d : X) :
  NoDup inds -> length vals = length inds ->
  Forall (fun i => (i < length r)%nat) inds -> (t < length inds)%nat ->
  nth (nth t inds 0%nat) (scatter_row r inds vals) d = nth t vals d.
Proof.
  intros Hnd. revert r vals t.
  induction Hnd as [|i inds Hni Hnd IH]; intros r [|v vals] t Hl Hb Ht;
    simpl in *; try lia.
  inversion Hb as [|? ? Hi Hb']; subst. destruct t as [|t].
  - rewrite scatter_row_other by exact Hni. now apply nth_set_nth_same.
  - apply IH; try lia.
    eapply Forall_impl; [|exact Hb']. cbv beta. intros j Hj.
    now rewrite set_nth_length.
Qed.

Lemma index_put_last_entries (A L : nat) (m : matrix) (inds : list nat)
    (vals : matrix) :
  shape2 A L m -> NoDup inds -> Forall (fun i => (i < L)%nat) inds ->
  shape2 A (length inds) vals ->
  exists m', index_put_last m inds vals = Ok m' /\ shape2 A L m' /\
             mutation_of A inds vals m m'.
Proof.
  intros Hm Hnd Hi Hv.
  destruct (index_put_last_shape A L m inds vals Hm Hi Hv) as (m' & E & Sm').
  exists m'. split; [exact E|]. split; [exact Sm'|].
  unfold index_put_last in E. destruct (negb _); [discriminate|].
  destruct (list_eq_dec Nat.eq_dec _ _); [|discriminate].
  injection E as <-. intros a Ha.
  assert (HmA : length m = A) by apply Hm.
  assert (HvA : length vals = A) by apply Hv.
  assert (Row : nth a (map (fun rv => scatter_row (fst rv) inds (snd rv))
                           (combine m vals)) []
                = scatter_row (nth a m []) inds (nth a vals [])).
  { rewrite nth_map_default with (d' := ([], []))
      by (rewrite length_combine; lia).
    rewrite combine_nth by lia. reflexivity. }
  unfold entry. rewrite Row.
  pose proof (shape2_row_length A L m a Hm Ha) as Lr.
  pose proof (shape2_row_length A _ vals a Hv Ha) as Lv.
  split.
  - intros j Hj. now apply scatter_row_other.
  - intros t Ht. apply scatter_row_same; try assumption.
    now rewrite Lr.
Qed.

Lemma RandomMutation_call_rel (self : RandomMutation) (N A L : nat) (k : Z)
    (R : matrix -> matrix -> Prop) (x : batch) :
  (forall seq inds mut,
      shape2 A L seq -> length inds = Z.to_nat k -> NoDup inds ->
      Forall (fun i => (i < L)%nat) inds -> Encoded A (Z.to_nat k) mut ->
      exists m, index_put_last seq inds mut = Ok m /\ shape2 A L m /\
                R seq m) ->
  (0 < N)%nat -> (0 < A)%nat ->
  num_mutations (mutate_frac self) L = Ok k -> 0 < k <= Z.of_nat L ->
  has_shape N A L x ->
  returns (RandomMutation_call self x)
          (fun y => has_shape N A L y /\ Forall2 R x y).
Proof.
  intros Hbody HN HA Hk Hkr [Hx Fx]. unfold RandomMutation_call.
  rewrite (shape3_has_shape N A L x (conj Hx Fx) HN HA).
  eapply returns_bind.
  { apply RandomMutation_draws_returns; [exact Hk | lia]. }
  intros [k' mutation_inds] (Hk' & Hil & Hif). simpl in Hk', Hil, Hif.
  subst k'.
  eapply returns_bind.
  { apply returns_replicateM, random_dna_returns; [lia | assumption]. }
  cbv beta. intros mutation_list [Hml Hmf].
  eapply returns_bind.
  { apply returns_lift with (v := mutation_list)
                            (P := fun p => p = mutation_list); [|reflexivity].
    apply stack_shape with (A := A) (L := Z.to_nat k).
    - now apply length_pos_nonempty with (n := N).
    - eapply Forall_impl; [|exact Hmf]. apply Encoded_shape2. }
  cbv beta. intros mutations ->.
  destruct (mapR_zip3_rel
              (fun t => let '(xi, inds, mut) := t in
                        index_put_last xi inds mut)
              (shape2 A L)
              (fun inds => length inds = Z.to_nat k /\ NoDup inds /\
                           Forall (fun i => (i < L)%nat) inds)
              (Encoded A (Z.to_nat k))
              (fun seq m => shape2 A L m /\ R seq m)
              N x mutation_inds mutation_list) as (bs & E & F2);
    try assumption.
  { intros u v w Pu (Hvl & Hvn & Hvb) Pw. now apply Hbody. }
  destruct (Forall2_and_r _ _ _ _ F2) as (Hlen & Fs & Fr).
  apply returns_lift_ex. exists bs. split; [exact E|].
  split; [split; [lia | exact Fs] | exact Fr].
Qed.

(** X7: on every valid batch RandomMutation returns, and each output
    example differs from its input example only at [num_mutations]
    pairwise distinct columns, which it overwrites with the columns of a
    one-hot random fragment; every other entry is unchanged. *)
Theorem RandomMutation_changes_selected (self : RandomMutation) (N A L : nat)
    (k : Z) (x : batch) :
  (0 < N)%nat -> (0 < A)%nat ->
  num_mutations (mutate_frac self) L = Ok k -> 0 < k <= Z.of_nat L ->
  has_shape N A L x ->
  returns (RandomMutation_call self x)
    (fun y =>
       has_shape N A L y /\
       Forall2 (fun seq out =>
                  exists inds mut,
                    Z.of_nat (length inds) = k /\ NoDup inds /\
                    Forall (fun i => (i < L)%nat) inds /\
                    OneHot2 A (length inds) mut /\
                    mutation_of A inds mut seq out)
               x y).
Proof.
  intros HN HA Hk Hkr Hx.
  apply (RandomMutation_call_rel self N A L k); try assumption.
  intros seq inds mut Hs Hl Hnd Hb Hmut. rewrite <- Hl in Hmut.
  destruct (index_put_last_entries A L seq inds mut Hs Hnd Hb
              (Encoded_shape2 _ _ _ Hmut)) as (m & E & Sm & D).
  exists m. split; [exact E|]. split; [exact Sm|].
  exists inds, mut. split; [lia|]. split; [exact Hnd|]. split; [exact Hb|].
  split; [now apply Encoded_OneHot2 | exact D].
Qed.

Lemma RandomMutation_changes_selected_witness :
  returns (RandomMutation_call {| mutate_frac := 0.5 |} example_batch)
    (fun y =>
       has_shape 2 4 6 y /\
       Forall2 (fun seq out =>
                  exists inds mut,
                    Z.of_nat (length inds) = 4 /\ NoDup inds /\
                    Forall (fun i => (i < 6)%nat) inds /\
                    OneHot2 4 (length inds) mut /\
                    mutation_of 4 inds mut seq out)
               example_batch y).
Proof.
  apply (RandomMutation_changes_selected {| mutate_frac := 0.5 |} 2 4 6 4);
    try lia.
  - vm_compute. reflexivity.
  - exact example_batch_shape.
Defined.

(** ** Calls that raise *)

Lemma raises_bind_ensures {X Y} (m : M X) (k : X -> M Y) (P : X -> Prop) :
  ensures m P -> (forall v, P v -> raises (k v)) -> raises (bind m k).
Proof.
  intros Hm Hk g. unfold bind. destruct (m g) as [[v g1]|e] eqn:E.
  - apply Hk. exact (Hm g v g1 E).
  - now exists e.
Qed.

(** Generating no column of random DNA raises, whatever the batch size. *)
Lemma random_dna_stack_raises {X} (N A : nat) (n : Z) (rest : batch -> M X) :
  n <= 0 ->
  raises (l <- replicateM N (random_dna A n) ;;
          p <- lift (stack l) ;; rest p).
Proof.
  intros Hn. destruct N as [|N].
  - apply raises_bind_r with (P := fun l => l = []).
    + now apply returns_ret.
    + intros l ->. apply raises_bind_l. simpl stack. apply raises_lift.
  - now apply raises_bind_l, raises_replicateM, random_dna_raises.
Qed.

Lemma RandomMutation_draws_count (self : RandomMutation) (N L : nat) (k : Z) :
  num_mutations (mutate_frac self) L = Ok k ->
  ensures (RandomMutation_draws self N L) (fun d => fst d = k).
Proof.
  intros Hk. unfold RandomMutation_draws. rewrite Hk.
  eapply ensures_bind with (P := fun v => v = k).
  - intros g v g' E. now injection E as <- _.
  - intros v ->. eapply ensures_bind; [apply ensures_any|].
    intros inds _. now apply ensures_ret.
Qed.

(** X8: a primitive that has to generate no random column raises on
    every batch: RandomInsertion with [insert_max <= 0], and
    RandomMutation when [round(mutate_frac / 0.75 * L)] is 0 or less, as
    with [mutate_frac = 0]. *)
Theorem no_random_column_raises :
  (forall (self : RandomInsertion) (x : batch),
      insert_max self <= 0 -> raises (RandomInsertion_call self x)) /\
  (forall (self : RandomMutation) (N A L : nat) (k : Z) (x : batch),
      (0 < N)%nat -> (0 < A)%nat -> has_shape N A L x ->
      num_mutations (mutate_frac self) L = Ok k -> k <= 0 ->
      raises (RandomMutation_call self x)).
Proof.
  split.
  - intros self x H. unfold RandomInsertion_call.
    destruct (shape3 x) as [[N A] L].
    apply raises_bind_l. unfold RandomInsertion_draws.
    now apply random_dna_stack_raises.
  - intros self N A L k x HN HA Hx Hk Hle. unfold RandomMutation_call.
    rewrite (shape3_has_shape N A L x Hx HN HA).
    apply raises_bind_ensures with (P := fun d => fst d = k).
    + now apply RandomMutation_draws_count.
    + intros [k' inds] Hd. simpl in Hd. subst k'.
      now apply random_dna_stack_raises.
Qed.

Lemma no_random_column_raises_witness :
  raises (RandomInsertion_call {| insert_min := 0; insert_max := 0 |}
            example_batch) /\
  raises (RandomMutation_call {| mutate_frac := 0 |} example_batch).
Proof.
  destruct no_random_column_raises as [Hi Hm]. split.
  - apply Hi. simpl. lia.
  - apply (Hm {| mutate_frac := 0 |} 2%nat 4%nat 6%nat 0); try lia.
    + exact example_batch_shape.
    + vm_compute. reflexivity.
Defined.

Lemma py_slice_to_all {X} (k : Z) (l : list X) :
  Z.of_nat (length l) <= k -> py_slice None (Some k) l = l.
Proof.
  intros H. unfold py_slice. simpl slice_start. simpl slice_stop.
  unfold clamp_index. destruct (Z.ltb_spec k 0); [lia|].
  rewrite Z.min_r by lia. rewrite Z.sub_0_r. simpl skipn.
  apply firstn_all2. lia.
Qed.

Lemma RandomMutation_inds_returns_all (N L : nat) (k : Z) :
  Z.of_nat L <= k ->
  returns (RandomMutation_inds N L k)
          (fun mutation_inds =>
             length mutation_inds = N /\
             Forall (fun inds => length inds = L /\
                                 Forall (fun i => (i < L)%nat) inds)
                    mutation_inds).
Proof.
  intros Hk. unfold RandomMutation_inds.
  eapply returns_bind.
  { apply returns_replicateM, torch_rand_returns. }
  cbv beta. intros keys [Hl Hf]. apply returns_ret. split.
  - now rewrite length_map.
  - apply Forall_map. eapply Forall_impl; [|exact Hf].
    cbv beta. intros ks Hks.
    pose proof (argsort_perm ks) as Hp.
    assert (Hlen : length (argsort ks) = L).
    { rewrite (Permutation_length Hp), length_seq. exact Hks. }
    rewrite py_slice_to_all by lia. split; [exact Hlen|].
    apply Forall_forall. intros i Hi.
    apply (Permutation_in _ Hp) in Hi. apply in_seq in Hi. lia.
Qed.

Lemma index_put_last_mismatch (A L k : nat) (m : matrix) (inds : list nat)
    (vals : matrix) :
  (0 < A)%nat -> shape2 A L m -> length inds = L ->
  Forall (fun i => (i < L)%nat) inds -> shape2 A k vals -> k <> L ->
  exists e, index_put_last m inds vals = Raise e.
Proof.
  intros HA Hm Hl Hi Hv Hne. unfold index_put_last.
  rewrite (index_in_range A L m inds Hm Hi). simpl negb. cbv iota.
  rewrite (shape2_dims _ _ _ Hv). destruct Hm as [HmA _]. rewrite HmA, Hl.
  destruct (list_eq_dec Nat.eq_dec _ _) as [E|_]; [|eexists; reflexivity].
  destruct A as [|A]; [lia|]. simpl in E. congruence.
Qed.

(** X9: when [round(mutate_frac / 0.75 * L)] exceeds the sequence
    length, as with [mutate_frac = 1], RandomMutation raises on every
    non-empty batch: the L sampled positions cannot take the larger block
    of random columns. *)
Theorem RandomMutation_too_many_raises (self : RandomMutation) (N A L : nat)
    (k : Z) (x : batch) :
  (0 < N)%nat -> (0 < A)%nat -> has_shape N A L x ->
  num_mutations (mutate_frac self) L = Ok k -> Z.of_nat L < k ->
  raises (RandomMutation_call self x).
Proof.
  intros HN HA Hx Hk Hlt. unfold RandomMutation_call.
  rewrite (shape3_has_shape N A L x Hx HN HA).
  apply raises_bind_r with
    (P := fun d => fst d = k /\ length (snd d) = N /\
                   Forall (fun inds => length inds = L /\
                                       Forall (fun i => (i < L)%nat) inds)
                          (snd d)).
  { unfold RandomMutation_draws. rewrite Hk.
    eapply returns_bind.
    { apply returns_lift with (v := k) (P := fun v => v = k); reflexivity. }
    cbv beta. intros k' ->.
    eapply returns_bind; [apply RandomMutation_inds_returns_all; lia|].
    cbv beta. intros inds [Hl Hf]. apply returns_ret. now repeat split. }
  intros [k' mutation_inds] (Hk' & Hil & Hif). simpl in Hk', Hil, Hif.
  subst k'.
  apply raises_bind_r with
    (P := fun l => length l = N /\ Forall (Encoded A (Z.to_nat k)) l).
  { apply returns_replicateM, random_dna_returns; [lia | assumption]. }
  intros mutation_list [Hml Hmf].
  apply raises_bind_r with (P := fun p => p = mutation_list).
  { apply returns_lift with (v := mutation_list); [|reflexivity].
    apply stack_shape with (A := A) (L := Z.to_nat k).
    - now apply length_pos_nonempty with (n := N).
    - eapply Forall_impl; [|exact Hmf]. apply Encoded_shape2. }
  intros mutations ->. cbv zeta.
  destruct Hx as [Hxl Fx].
  destruct Fx as [|x0 x' Hx0 _]; [simpl in Hxl; lia|].
  destruct Hif as [|i0 inds' [Hi0l Hi0b] _]; [simpl in Hil; lia|].
  destruct Hmf as [|m0 muts' Hm0 _]; [simpl in Hml; lia|].
  destruct (index_put_last_mismatch A L (Z.to_nat k) x0 i0 m0 HA Hx0 Hi0l
              Hi0b (Encoded_shape2 _ _ _ Hm0) ltac:(lia)) as (e & E).
  simpl zip3. simpl mapR. rewrite E. simpl rbind. apply raises_lift.
Qed.

Lemma RandomMutation_too_many_raises_witness :
  raises (RandomMutation_call {| mutate_frac := 1 |} example_batch).
Proof.
  apply (RandomMutation_too_many_raises {| mutate_frac := 1 |} 2 4 6 8);
    try lia.
  - exact example_batch_shape.
  - vm_compute. reflexivity.
Defined.

(** X10: a bound larger than the sequence raises at call time:
    RandomDeletion with [delete_max > L] and RandomInversion with
    [invert_max > L] raise on every non-empty batch of sequences of
    length L, when they sample the start index, and RandomInsertion
    raises on sequences of length 0. *)
Theorem bound_beyond_length_raises (N A L : nat) (x : batch) :
  (0 < N)%nat -> (0 < A)%nat -> has_shape N A L x ->
  (forall self : RandomDeletion,
      Z.of_nat L < delete_max self -> raises (RandomDeletion_call self x)) /\
  (forall self : RandomInversion,
      Z.of_nat L < invert_max self -> raises (RandomInversion_call self x)) /\
  (forall self : RandomInsertion,
      L = 0%nat -> raises (RandomInsertion_call self x)).
Proof.
  intros HN HA Hx. split; [|split].
  - intros self H. unfold RandomDeletion_call.
    rewrite (shape3_has_shape N A L x Hx HN HA).
    apply raises_bind_l. unfold RandomDeletion_draws.
    apply raises_bind_any. intros padding_list.
    apply raises_bind_any. intros padding.
    apply raises_bind_any. intros delete_lens.
    apply raises_bind_l, torch_randint_raises. lia.
  - intros self H. unfold RandomInversion_call.
    rewrite (shape3_has_shape N A L x Hx HN HA).
    apply raises_bind_l. unfold RandomInversion_draws.
    apply raises_bind_any. intros inversion_lens.
    apply raises_bind_l, torch_randint_raises. lia.
  - intros self H. unfold RandomInsertion_call.
    rewrite (shape3_has_shape N A L x Hx HN HA).
    apply raises_bind_l. unfold RandomInsertion_draws.
    apply raises_bind_any. intros insertion_list.
    apply raises_bind_any. intros insertions.
    apply raises_bind_any. intros insert_lens.
    apply raises_bind_l, torch_randint_raises. lia.
Qed.

Lemma bound_beyond_length_raises_witness :
  raises (RandomDeletion_call {| delete_min := 0; delete_max := 7 |}
            example_batch) /\
  raises (RandomInversion_call {| invert_min := 0; invert_max := 7 |}
            example_batch) /\
  raises (RandomInsertion_call {| insert_min := 0; insert_max := 3 |}
            [[[]; []]]).
Proof.
  destruct (bound_beyond_length_raises 2 4 6 example_batch)
    as (Hd & Hv & _); try lia; [exact example_batch_shape|].
  destruct (bound_beyond_length_raises 1 2 0 [[[]; []]])
    as (_ & _ & Hi); try lia.
  { split; [reflexivity|]. repeat constructor. }
  split; [apply Hd; simpl; lia|]. split; [apply Hv; simpl; lia|].
  now apply Hi.
Defined.

(** X11: on the empty batch RandomDeletion, RandomInsertion,
    RandomTranslocation, RandomInversion and RandomMutation raise,
    whatever their configuration, since they stack an empty list of
    examples; RandomRC and RandomNoise return the empty batch. *)
Theorem empty_batch :
  (forall self, raises (RandomDeletion_call self [])) /\
  (forall self, raises (RandomInsertion_call self [])) /\
  (forall self, raises (RandomTranslocation_call self [])) /\
  (forall self, raises (RandomInversion_call self [])) /\
  (forall self, raises (RandomMutation_call self [])) /\
  (forall self, returns (RandomRC_call self []) (fun y => y = [])) /\
  (forall self, Qlt_bool (noise_std self) 0 = false ->
                returns (RandomNoise_call self []) (fun y => y = [])).
Proof.
  repeat split.
  - intros self. unfold RandomDeletion_call. simpl shape3. cbv iota beta.
    apply raises_bind_l. unfold RandomDeletion_draws.
    apply raises_bind_r with (P := fun l => l = []).
    + now apply returns_ret.
    + intros l ->. apply raises_bind_l. apply raises_lift.
  - intros self. unfold RandomInsertion_call. simpl shape3. cbv iota beta.
    apply raises_bind_l. unfold RandomInsertion_draws.
    apply raises_bind_r with (P := fun l => l = []).
    + now apply returns_ret.
    + intros l ->. apply raises_bind_l. apply raises_lift.
  - intros self. unfold RandomTranslocation_call.
    apply raises_bind_any. intros shifts. simpl. apply raises_lift.
  - intros self. unfold RandomInversion_call. simpl shape3. cbv iota beta.
    apply raises_bind_any. intros [lens inds]. simpl zip3. simpl mapR.
    apply raises_bind_r with (P := fun l => l = []).
    + now apply returns_lift with (v := []).
    + intros l ->. apply raises_lift.
  - intros self. unfold RandomMutation_call. simpl shape3. cbv iota beta.
    apply raises_bind_any. intros [k inds].
    apply raises_bind_r with (P := fun l => l = []).
    + now apply returns_ret.
    + intros l ->. apply raises_bind_l. apply raises_lift.
  - intros self. eapply returns_weaken.
    + apply (RandomRC_call_gen self (fun _ => True)); [auto | constructor].
    + cbv beta. intros y [Hl _]. now destruct y.
  - intros self Hstd. eapply returns_weaken.
    + apply (RandomNoise_call_shape self 0 0 0 [] Hstd).
      split; [reflexivity | constructor].
    + cbv beta. intros y [Hl _]. now destruct y.
Qed.

Lemma empty_batch_witness :
  returns (RandomNoise_call {| noise_mean := 0; noise_std := 1 # 5 |} [])
          (fun y => y = []).
Proof.
  destruct empty_batch as (_ & _ & _ & _ & _ & _ & Hn).
  apply Hn. reflexivity.
Defined.

(** ** RandomTranslocation: rotations *)

Lemma nth_roll_row {X} (shift : Z) (r : list X) (j : nat) (d : X) :
  (j < length r)%nat ->
  nth (Z.to_nat ((Z.of_nat j + shift) mod Z.of_nat (length r)))
      (roll_row shift r) d = nth j r d.
Proof.
  intros Hj. destruct r as [|u r]; [simpl in Hj; lia|].
  unfold roll_row. set (l := u :: r) in *. set (L := Z.of_nat (length l)).
  assert (HL : 0 < L) by (unfold L; lia).
  pose proof (Z.mod_pos_bound (- shift) L HL) as Hk.
  pose proof (Z.div_mod (- shift) L ltac:(lia)) as Hdiv.
  set (k := (- shift) mod L) in *. set (q := (- shift) / L) in *.
  assert (Hshift : Z.of_nat j + shift = Z.of_nat j - k + (- q) * L) by lia.
  rewrite Hshift, Z_mod_plus_full.
  assert (Lsk : length (skipn (Z.to_nat k) l) = (length l - Z.to_nat k)%nat)
    by apply length_skipn.
  destruct (Z_lt_ge_dec (Z.of_nat j) k) as [Hlt|Hge].
  - replace (Z.of_nat j - k) with (Z.of_nat j - k + L + (-1) * L) by lia.
    rewrite Z_mod_plus_full, Z.mod_small by lia.
    rewrite app_nth2 by lia. rewrite Lsk.
    rewrite nth_firstn_lt by lia. f_equal. lia.
  - rewrite Z.mod_small by lia.
    rewrite app_nth1 by lia. rewrite nth_skipn. f_equal. lia.
Qed.

Lemma roll_last_rotation (A L : nat) (shift : Z) (m : matrix) :
  shape2 A L m -> rotation_of A L shift m (roll_last shift m).
Proof.
  intros Sm a j Ha Hj. unfold entry, roll_last.
  assert (HmA : length m = A) by apply Sm.
  rewrite nth_map_default with (d' := []) by lia.
  pose proof (shape2_row_length A L m a Sm Ha) as Lr.
  rewrite <- Lr. apply nth_roll_row. lia.
Qed.

Lemma roll_row_0 {X} (r : list X) : roll_row 0 r = r.
Proof.
  destruct r as [|u r]; [reflexivity|]. unfold roll_row.
  rewrite Z.opp_0, Z.mod_0_l by (simpl; lia).
  simpl. now rewrite app_nil_r.
Qed.

Lemma negate_where_range (vmin vmax : Z) (ind_neg : list bool)
    (shifts : list Z) :
  Forall (fun v => vmin <= v <= vmax) shifts ->
  Forall (fun v => exists s, vmin <= s <= vmax /\ (v = s \/ v = - s))
         (negate_where ind_neg shifts).
Proof.
  intros F. revert ind_neg.
  induction F as [|s shifts Hs F IH]; intros [|b ind_neg];
    cbn [negate_where]; try constructor.
  - exists s. split; [exact Hs | now left].
  - eapply Forall_impl; [|exact F]. cbv beta. intros v Hv.
    exists v. split; [exact Hv | now left].
  - exists s. split; [exact Hs|]. destruct b; [right; lia | now left].
  - apply IH.
Qed.

Lemma RandomTranslocation_draws_range (self : RandomTranslocation) (N : nat) :
  shift_min self <= shift_max self ->
  returns (RandomTranslocation_draws self N)
          (fun shifts =>
             length shifts = N /\
             Forall (fun v => exists s, shift_min self <= s <= shift_max self /\
                                        (v = s \/ v = - s)) shifts).
Proof.
  intros Hmm. unfold RandomTranslocation_draws.
  eapply returns_bind.
  { apply torch_randint_returns. lia. }
  cbv beta. intros shifts [Hl Hf].
  eapply returns_bind; [apply torch_rand_returns|].
  cbv beta. intros u _. apply returns_ret. split.
  - now rewrite negate_where_length.
  - apply negate_where_range. now apply Forall_range_lt_le.
Qed.

Lemma map_combine_rel {X Y U} (f : X * Y -> U) (P : X -> Prop) (Q : Y -> Prop)
    (R : X -> U -> Prop) (a : list X) (b : list Y) :
  length a = length b -> Forall P a -> Forall Q b ->
  (forall u v, P u -> Q v -> R u (f (u, v))) ->
  Forall2 R a (map f (combine a b)).
Proof.
  intros Hl Fa. revert b Hl. induction Fa as [|u a Pu Fa IH];
    intros [|v b] Hl Fb HR; simpl in *; try discriminate; [constructor|].
  inversion Fb; subst. constructor; [now apply HR|]. apply IH; auto.
Qed.

(** X12: on every non-empty batch RandomTranslocation returns, and each
    output example is its input example rotated along the length axis by
    s or by -s, with s in [shift_min, shift_max]: column j moves to column
    (j + shift) mod L and no entry is lost or changed. *)
Theorem RandomTranslocation_rotates (self : RandomTranslocation) (N A L : nat)
    (x : batch) :
  (0 < N)%nat -> shift_min self <= shift_max self -> has_shape N A L x ->
  returns (RandomTranslocation_call self x)
    (fun y =>
       has_shape N A L y /\
       Forall2 (fun seq out =>
                  exists s shift,
                    shift_min self <= s <= shift_max self /\
                    (shift = s \/ shift = - s) /\
                    out = roll_last shift seq /\
                    rotation_of A L shift seq out)
               x y).
Proof.
  intros HN Hmm [Hx Fx]. unfold RandomTranslocation_call.
  eapply returns_bind.
  { now apply RandomTranslocation_draws_range. }
  cbv beta. intros shifts [Hs Hf]. rewrite Hx in Hs.
  set (x_rolled := map _ (combine x shifts)).
  assert (F2 : Forall2 (fun seq out =>
                          shape2 A L out /\
                          exists s shift,
                            shift_min self <= s <= shift_max self /\
                            (shift = s \/ shift = - s) /\
                            out = roll_last shift seq /\
                            rotation_of A L shift seq out)
                       x x_rolled).
  { unfold x_rolled.
    apply map_combine_rel with
      (P := shape2 A L)
      (Q := fun v => exists s, shift_min self <= s <= shift_max self /\
                               (v = s \/ v = - s)); try assumption; [lia|].
    intros u v Pu (s & Hsr & Hv). split; [now apply shape2_roll_last|].
    exists s, v. split; [exact Hsr|]. split; [exact Hv|].
    split; [reflexivity | now apply roll_last_rotation]. }
  destruct (Forall2_and_r _ _ _ _ F2) as (Hlen & Fs & Fr).
  apply returns_lift_ex. exists x_rolled. split.
  - apply stack_shape with (A := A) (L := L); [|exact Fs].
    apply length_pos_nonempty with (n := N); lia.
  - split; [split; [lia | exact Fs] | exact Fr].
Qed.

Lemma RandomTranslocation_rotates_witness :
  returns (RandomTranslocation_call {| shift_min := 0; shift_max := 3 |}
             example_batch)
    (fun y =>
       has_shape 2 4 6 y /\
       Forall2 (fun seq out =>
                  exists s shift,
                    0 <= s <= 3 /\ (shift = s \/ shift = - s) /\
                    out = roll_last shift seq /\
                    rotation_of 4 6 shift seq out)
               example_batch y).
Proof.
  apply (RandomTranslocation_rotates {| shift_min := 0; shift_max := 3 |}
           2 4 6 example_batch); try (simpl; lia).
  exact example_batch_shape.
Defined.

Lemma roll_last_0 (m : matrix) : roll_last 0 m = m.
Proof.
  unfold roll_last. rewrite <- (map_id m) at 2. apply map_ext.
  intros r. apply roll_row_0.
Qed.

(** X13: with [shift_min = shift_max = 0] RandomTranslocation returns its
    input batch unchanged, on every non-empty batch and from every state
    of the generator. *)
Theorem RandomTranslocation_zero_is_identity (self : RandomTranslocation)
    (N A L : nat) (x : batch) :
  shift_min self = 0 -> shift_max self = 0 ->
  (0 < N)%nat -> has_shape N A L x ->
  returns (RandomTranslocation_call self x) (fun y => y = x).
Proof.
  intros Hmin Hmax HN Hx. eapply returns_weaken.
  - apply (RandomTranslocation_rotates self N A L x HN ltac:(lia) Hx).
  - cbv beta. intros y [_ F].
    assert (F' : Forall2 (fun seq out => out = (fun m : list (list Q) => m) seq)
                         x y).
    { eapply Forall2_impl; [|exact F]. cbv beta.
      intros seq out (s & shift & Hs & Hsh & -> & _).
      assert (shift = 0) by lia. subst shift. apply roll_last_0. }
    apply Forall2_map_eq in F'. now rewrite map_id in F'.
Qed.

Lemma RandomTranslocation_zero_is_identity_witness :
  returns (RandomTranslocation_call {| shift_min := 0; shift_max := 0 |}
             example_batch) (fun y => y = example_batch).
Proof.
  apply (RandomTranslocation_zero_is_identity
           {| shift_min := 0; shift_max := 0 |} 2 4 6 example_batch);
    try reflexivity; try lia.
  exact example_batch_shape.
Defined.

(** X14: rotating an example by [shift] and then by [- shift] gives the
    example back, for every shift, positive or negative, and every
    example. *)
Theorem roll_last_round_trip (A L : nat) (shift : Z) (m : matrix) :
  shape2 A L m -> roll_last (- shift) (roll_last shift m) = m.
Proof.
  intros Sm. apply (entries_ext A L); [|exact Sm|].
  { now apply shape2_roll_last, shape2_roll_last. }
  intros a j Ha Hj.
  pose proof (roll_last_rotation A L shift m Sm) as R1.
  pose proof (roll_last_rotation A L (- shift) (roll_last shift m)
                (shape2_roll_last A L shift m Sm)) as R2.
  assert (HL : 0 < Z.of_nat L) by lia.
  set (j' := Z.to_nat ((Z.of_nat j + shift) mod Z.of_nat L)).
  pose proof (Z.mod_pos_bound (Z.of_nat j + shift) (Z.of_nat L) HL) as Hb.
  assert (Hj' : (j' < L)%nat) by (unfold j'; lia).
  specialize (R2 a j' Ha Hj'). specialize (R1 a j Ha Hj). fold j' in R1.
  rewrite <- R1, <- R2. f_equal. unfold j'.
  rewrite Z2Nat.id by lia.
  rewrite Zplus_mod_idemp_l.
  replace (Z.of_nat j + shift + - shift) with (Z.of_nat j) by lia.
  rewrite Z.mod_small by lia. lia.
Qed.

Lemma roll_last_round_trip_witness :
  roll_last (- 2) (roll_last 2 (encode 4 [0; 1; 2; 3; 0; 1]%nat))
  = encode 4 [0; 1; 2; 3; 0; 1]%nat.
Proof.
  apply (roll_last_round_trip 4 6 2).
  apply (encode_shape 4 [0; 1; 2; 3; 0; 1]%nat).
Defined.

(** ** RandomRC: which examples are flipped *)

Lemma mask_put_select_rel {X} (f : X -> X) (mask : list bool) (x : list X) :
  Forall2 (fun u v => v = u \/ v = f u) x
          (mask_put mask x (map f (mask_select mask x))).
Proof.
  revert mask. induction x as [|u x IH]; intros [|[|] mask]; simpl;
    try constructor; auto.
  clear. induction x; constructor; auto.
Qed.

(** X15: RandomRC returns on every batch, and each output example is its
    input example either unchanged or flipped on both the alphabet axis
    and the length axis, never anything in between. *)
Theorem RandomRC_all_or_nothing (self : RandomRC) (x : batch) :
  returns (RandomRC_call self x)
          (fun y => Forall2 (fun seq out => out = seq \/ out = flip01 seq) x y).
Proof.
  unfold RandomRC_call.
  eapply returns_bind with (P := fun _ => True).
  - unfold RandomRC_draws. eapply returns_bind; [apply torch_rand_returns|].
    intros u _. now apply returns_ret.
  - intros ind_rc _. apply returns_ret. apply mask_put_select_rel.
Qed.

Lemma rand_one_nonneg (p : Q) :
  (p <= 0)%Q -> returns rand_one (fun u => Qlt_bool u p = false).
Proof.
  intros Hp g. eexists _, _. split; [reflexivity|]. cbv beta.
  pose proof (Z.mod_pos_bound (ints g 0%nat) 16777216 ltac:(lia)) as H.
  unfold Qlt_bool. apply negb_false_iff, Qle_bool_iff.
  apply Qle_trans with (y := 0%Q); [exact Hp|].
  unfold Qle. simpl. lia.
Qed.

Lemma mask_all_false {X} (x vals : list X) :
  mask_put (repeat false (length x)) x vals = x.
Proof. induction x as [|u x IH]; simpl; [reflexivity | now rewrite IH]. Qed.

(** X16: with [rc_prob <= 0] RandomRC returns its input batch unchanged,
    on every batch and from every state of the generator. *)
Theorem RandomRC_never (self : RandomRC) (x : batch) :
  (rc_prob self <= 0)%Q -> returns (RandomRC_call self x) (fun y => y = x).
Proof.
  intros Hp. unfold RandomRC_call.
  eapply returns_bind with (P := fun mask => mask = repeat false (length x)).
  - unfold RandomRC_draws, torch_rand.
    eapply returns_bind.
    { apply returns_replicateM, (rand_one_nonneg (rc_prob self) Hp). }
    cbv beta. intros u [Hl Hf]. apply returns_ret. rewrite <- Hl.
    clear Hl. induction Hf as [|v u Hv Hf IH]; simpl; [reflexivity|].
    now rewrite Hv, IH.
  - intros mask ->. apply returns_ret. apply mask_all_false.
Qed.

Lemma RandomRC_never_witness :
  returns (RandomRC_call {| rc_prob := 0 |} example_batch)
          (fun y => y = example_batch).
Proof.
  apply (RandomRC_never {| rc_prob := 0 |} example_batch).
  simpl. apply Qle_refl.
Defined.

(** ** RandomNoise: a zero standard deviation *)







(** ** RandomRC: a probability of one or more *)

Lemma rand_one_below (p : Q) :
  (1 <= p)%Q -> returns rand_one (fun u => Qlt_bool u p = true).
Proof.
  intros Hp g. eexists _, _. split; [reflexivity|]. cbv beta.
  pose proof (Z.mod_pos_bound (ints g 0%nat) 16777216 ltac:(lia)) as H.
  unfold Qlt_bool. apply negb_true_iff.
  destruct (Qle_bool p _) eqn:E; [|reflexivity]. exfalso.
  apply Qle_bool_iff in E. pose proof (Qle_trans _ _ _ Hp E) as H1.
  unfold Qle in H1. simpl in H1. lia.
Qed.

(** X18: with [rc_prob >= 1] RandomRC flips every example of the batch on
    both the alphabet axis and the length axis, from every state of the
    generator: [torch.rand] draws from [0, 1), so every draw is below
    [rc_prob]. *)
Theorem RandomRC_always (self : RandomRC) (x : batch) :
  (1 <= rc_prob self)%Q ->
  returns (RandomRC_call self x) (fun y => y = flip12 x).
Proof.
  intros Hp. unfold RandomRC_call.
  eapply returns_bind with (P := fun mask => mask = repeat true (length x)).
  - unfold RandomRC_draws, torch_rand.
    eapply returns_bind.
    { apply returns_replicateM, (rand_one_below (rc_prob self) Hp). }
    cbv beta. intros u [Hl Hf]. apply returns_ret. rewrite <- Hl.
    clear Hl. induction Hf as [|v u Hv Hf IH]; simpl; [reflexivity|].
    now rewrite Hv, IH.
  - intros mask ->. apply returns_ret. apply mask_all_true.
Qed.

Lemma RandomRC_always_witness :
  returns (RandomRC_call {| rc_prob := 3 # 2 |} example_batch)
          (fun y => y = flip12 example_batch).
Proof.
  apply (RandomRC_always {| rc_prob := 3 # 2 |} example_batch).
  unfold Qle. simpl. lia.
Defined.

(** ** RandomNoise: when the call raises *)

Lemma Qlt_bool_iff (a b : Q) : Qlt_bool a b = true <-> (a < b)%Q.
Proof.
  unfold Qlt_bool. rewrite negb_true_iff. split.
  - intros E. apply Qnot_le_lt. intros H. apply Qle_bool_iff in H. congruence.
  - intros H. destruct (Qle_bool b a) eqn:E; [|reflexivity].
    apply Qle_bool_iff in E. exfalso. exact (Qlt_not_le _ _ H E).
Qed.

(** X19: RandomNoise raises exactly when [noise_std] is negative, whatever
    the batch and its shape (the empty batch included); with
    [noise_std >= 0] it returns from every state of the generator. *)
Theorem RandomNoise_raises_iff (self : RandomNoise) (x : batch) :
  (raises (RandomNoise_call self x) <-> (noise_std self < 0)%Q) /\
  (returns (RandomNoise_call self x) (fun _ => True)
     <-> (0 <= noise_std self)%Q).
Proof.
  assert (Hneg : (noise_std self < 0)%Q -> raises (RandomNoise_call self x)).
  { intros H g. apply Qlt_bool_iff in H. unfold RandomNoise_call, torch_normal.
    destruct (shape3 x) as [[N A] L]. rewrite H.
    eexists. reflexivity. }
  assert (Hpos : (0 <= noise_std self)%Q ->
                 returns (RandomNoise_call self x) (fun _ => True)).
  { intros H. unfold RandomNoise_call.
    destruct (shape3 x) as [[N A] L].
    eapply returns_bind with (P := fun _ => True).
    - eapply returns_weaken; [apply torch_normal_returns|auto].
      destruct (Qlt_bool (noise_std self) 0) eqn:E; [|reflexivity].
      apply Qlt_bool_iff in E. exfalso. exact (Qlt_not_le _ _ E H).
    - intros noise _. now apply returns_ret. }
  split; split; try assumption.
  - intros Hr. destruct (Qlt_le_dec (noise_std self) 0) as [Hlt|Hle];
      [exact Hlt|]. exfalso.
    destruct (Hpos Hle (const_rng 0)) as (v & g' & E & _).
    destruct (Hr (const_rng 0)) as (e & E'). congruence.
  - intros Hr. destruct (Qlt_le_dec (noise_std self) 0) as [Hlt|Hle];
      [|exact Hle]. exfalso.
    destruct (Hr (const_rng 0)) as (v & g' & E & _).
    destruct (Hneg Hlt (const_rng 0)) as (e & E'). congruence.
Qed.

Lemma RandomNoise_raises_iff_witness :
  raises (RandomNoise_call {| noise_mean := 0; noise_std := - (1 # 5) |}
            example_batch).
Proof.
  apply (proj1 (RandomNoise_raises_iff
                  {| noise_mean := 0; noise_std := - (1 # 5) |}
                  example_batch)).
  reflexivity.
Defined.
